(** * go-cmp: the comparison engine, its options and its reporters

    A shallow embedding of package [cmp].  The tree holds files of several
    revisions; each definition below names the file it is translated from:

    - compare.go   (src/unnamed/part_009): [Equal], [Diff], [state],
      [compareAny] and the per-kind walkers;
    - options.go   (src/unnamed/part_003): [Option], the filters, [ignore],
      [invalid], [comparer], [transformer], [Options.filter/apply];
    - reporter.go  (src/unnamed/part_001): [defaultReporter] with the
      byte and line budgets; report.go (src/cmp/report.go) is its successor;
    - cycles.go    (src/unnamed/part_002): the [cycles] tracker;
    - compare_test.go (src/unnamed/part_004): the package's tests, of the
      revision of compare.go; two of its cases are run below.

    options.go is older than compare.go.  Where the two disagree on what
    an option is handed (a missing element, an unreadable field), the
    model follows compare.go and the tests, and says so at the definition.

    Reflection ([reflect.Type], [reflect.Value]) is the host runtime's; it is
    gathered in the record [World], read-only during a comparison. *)

From stdpp Require Import base option list strings numbers gmap pretty.
From Stdlib Require Import ZArith Lia Ascii.

Set Warnings "-register-all".

Local Open Scope string_scope.
Local Open Scope list_scope.
Local Open Scope Z_scope.

(** ** Machine integers *)

(** Go's [int] on the 64-bit targets: two's complement, wrapping. *)
Definition wrap64 (z : Z) : Z := (z + 2 ^ 63) mod 2 ^ 64 - 2 ^ 63.
Definition int_add (a b : Z) : Z := wrap64 (a + b).
Definition int_sub (a b : Z) : Z := wrap64 (a - b).
Definition int_shl1 (a : Z) : Z := wrap64 (Z.shiftl a 1).
Definition len {A} (l : list A) : Z := Z.of_nat (length l).

(** ** IEEE-754 binary64, as its bit pattern *)

Module float64.
Definition exponent (b : Z) : Z := Z.land (Z.shiftr b 52) 2047.
Definition mantissa (b : Z) : Z := Z.land b (2 ^ 52 - 1).
Definition IsNaN (b : Z) : bool := (exponent b =? 2047) && negb (mantissa b =? 0).
Definition isZero (b : Z) : bool := Z.land b (2 ^ 63 - 1) =? 0.
  (** Go's [==] on floats: a NaN equals nothing, the two zeros are equal. *)
Definition eq (a b : Z) : bool :=
    negb (IsNaN a) && negb (IsNaN b) && ((a =? b) || (isZero a && isZero b)).
Definition NaN : Z := 0x7FF8000000000001.
Definition one : Z := 0x3FF0000000000000.
End float64.

(** ** reflect: kinds, type descriptors, values *)

(** A [reflect.Type] is a descriptor compared by identity; the model names
    descriptors by strings, two descriptors being the same one when their
    names are. *)
Definition Type_ := string.
Definition uintptr := Z.

Module reflect.
Inductive Kind :=
  | Invalid | Bool
  | Int | Int8 | Int16 | Int32 | Int64
  | Uint | Uint8 | Uint16 | Uint32 | Uint64 | Uintptr
  | Float32 | Float64 | Complex64 | Complex128
  | Array | Chan | Func | Interface | Map | Ptr | Slice
  | String | Struct | UnsafePointer.

  (** [reflect.StructField]: the parts compare.go reads. *)
Record StructField := { Name : string; Typ : Type_ }.
End reflect.

(** The data of a [reflect.Value].  The static type travels separately, as
    in compare.go where every walker receives [t] next to [vx, vy]; a value
    under an interface carries its dynamic type. *)
Inductive Value :=
| VInvalid                                   (* reflect.Value{} *)
| VBool (b : bool)
| VInt (i : Z)
| VUint (u : Z)
| VFloat (bits : Z)
| VComplex (re im : Z)
| VString (s : string)
| VChan (p : uintptr)
| VUnsafePointer (p : uintptr)
| VFunc (p : uintptr)                         (* 0 is nil *)
| VStruct (fields : list Value)
| VArray (elems : list Value)
| VSlice (elems : option (list Value))        (* None is the nil slice *)
| VMap (entries : option (list (Value * Value)))  (* None is the nil map *)
| VPtr (p : uintptr)                          (* 0 is nil *)
| VInterface (e : option (Type_ * Value)).    (* None is the nil interface *)

(** The methods of [reflect.Value] the engine calls. *)
Module rv.
Definition IsValid (v : Value) : bool :=
  match v with VInvalid => false | _ => true end.

(** [v.IsNil()]; [None] where reflect panics. *)
Definition IsNil (v : Value) : option bool :=
  match v with
  | VChan p | VFunc p | VPtr p | VUnsafePointer p => Some (p =? 0)
  | VSlice o => Some (bool_decide (o = None))
  | VMap o => Some (bool_decide (o = None))
  | VInterface o => Some (bool_decide (o = None))
  | _ => None
  end.

Definition Bool_ (v : Value) : option bool :=
  match v with VBool b => Some b | _ => None end.
Definition Int_ (v : Value) : option Z :=
  match v with VInt i => Some i | _ => None end.
Definition Uint_ (v : Value) : option Z :=
  match v with VUint i => Some i | _ => None end.
Definition Float_ (v : Value) : option Z :=
  match v with VFloat f => Some f | _ => None end.
Definition Complex_ (v : Value) : option (Z * Z) :=
  match v with VComplex r i => Some (r, i) | _ => None end.
(** [v.String()] never panics: on another kind it prints "<T Value>". *)
Definition String_ (v : Value) : string :=
  match v with VString s => s | VInvalid => "<invalid Value>" | _ => "<Value>" end.
Definition Pointer_ (v : Value) : option uintptr :=
  match v with
  | VChan p | VFunc p | VPtr p | VUnsafePointer p => Some p
  | _ => None
  end.
Definition Field (v : Value) (i : nat) : option Value :=
  match v with VStruct fs => fs !! i | _ => None end.
Definition Len (v : Value) : option nat :=
  match v with
  | VArray es => Some (length es)
  | VSlice o => Some (length (default [] o))
  | VMap o => Some (length (default [] o))
  | VString s => Some (String.length s)
  | _ => None
  end.
Definition Index (v : Value) (i : nat) : option Value :=
  match v with
  | VArray es => es !! i
  | VSlice (Some es) => es !! i
  | _ => None
  end.

(** Go's [==] on comparable values, the relation map lookups use. *)
Fixpoint goEq (a b : Value) {struct a} : bool :=
  match a, b with
  | VBool x, VBool y => Bool.eqb x y
  | VInt x, VInt y => x =? y
  | VUint x, VUint y => x =? y
  | VFloat x, VFloat y => float64.eq x y
  | VComplex xr xi, VComplex yr yi => float64.eq xr yr && float64.eq xi yi
  | VString x, VString y => bool_decide (x = y)
  | VChan x, VChan y => x =? y
  | VUnsafePointer x, VUnsafePointer y => x =? y
  | VPtr x, VPtr y => x =? y
  | VStruct xs, VStruct ys =>
      (fix all (xs ys : list Value) : bool :=
         match xs, ys with
         | [], [] => true
         | x :: xs', y :: ys' => goEq x y && all xs' ys'
         | _, _ => false
         end) xs ys
  | VArray xs, VArray ys =>
      (fix all (xs ys : list Value) : bool :=
         match xs, ys with
         | [], [] => true
         | x :: xs', y :: ys' => goEq x y && all xs' ys'
         | _, _ => false
         end) xs ys
  | VInterface None, VInterface None => true
  | VInterface (Some (tx, x)), VInterface (Some (ty, y)) =>
      bool_decide (tx = ty) && goEq x y
  | _, _ => false
  end.

Definition MapKeys (v : Value) : option (list Value) :=
  match v with VMap o => Some ((default [] o).*1) | _ => None end.

(** [v.MapIndex(k)]: the zero [reflect.Value] when no key of the map is [==]
    to [k]. *)
Fixpoint lookupEntry (k : Value) (es : list (Value * Value)) : Value :=
  match es with
  | [] => VInvalid
  | (k', e) :: es' => if goEq k' k then e else lookupEntry k es'
  end.
Definition MapIndex (v k : Value) : option Value :=
  match v with VMap o => Some (lookupEntry k (default [] o)) | _ => None end.
End rv.

Example NaN_key_unretrievable :
  rv.MapIndex (VMap (Some [(VFloat float64.NaN, VInt 1)])) (VFloat float64.NaN)
  = Some VInvalid.
Proof. reflexivity. Qed.

(** ** Strings: the pieces of [strings] and [fmt] the messages use *)

Fixpoint Join (ss : list string) (sep : string) : string :=
  match ss with
  | [] => ""
  | [s] => s
  | s :: ss' => s +:+ sep +:+ Join ss' sep
  end.

(** [strings.Count(s, "\n")]. *)
Definition newline : ascii := Ascii.ascii_of_nat 10.
Definition tab : ascii := Ascii.ascii_of_nat 9.
Definition nl : string := String newline "".
Definition nltab : string := String newline (String tab "").
Fixpoint CountNewlines (s : string) : Z :=
  match s with
  | EmptyString => 0
  | String c s' => (if Ascii.eqb c newline then 1 else 0) + CountNewlines s'
  end.

(** [Contains s sub]: [sub] occurs in [s]. *)
Definition Contains (s sub : string) : Prop :=
  ∃ pre post, s = pre +:+ sub +:+ post.

(** ** User-supplied functions *)

(** A Go [func(T) R] and a [func(T, T) bool] held in a [reflect.Value]:
    the name [function.NameOf] prints, the parameter and result types
    [f.Type().In(0)] and [f.Type().Out(0)], and what [f.Call] computes. *)
Record Func1 := {
  f1_name : string; f1_in : Type_; f1_out : Type_; call1 : Value → Value }.
Record Func2 := {
  f2_name : string; f2_in : Type_; call2 : Value → Value → bool }.

(** options.go: [type transformer struct { core; name; typ; fnc }].
    Options hold [*transformer] and compare the pointers; [tr_ptr] is the
    address. [typ] is [None] for Go's nil [reflect.Type]. *)
Record transformer := {
  tr_ptr : uintptr; tr_name : string; tr_typ : option Type_; tr_fnc : Func1 }.

(** options.go: [type comparer struct { core; typ; fnc }]. *)
Record comparer := { cm_typ : option Type_; cm_fnc : Func2 }.

(** ** Path *)

(** compare.go builds the steps [&pathStep{t, vx, vy}], [&indirect{..}],
    [&typeAssertion{..}], [&structField{..}], [&sliceIndex{..}],
    [&mapIndex{..}]; options.go builds [&transform{..}]. *)
Record pathStep := { typ : Type_; vx : Value; vy : Value }.

(** The struct-field step.  compare.go also stores [pvx], [pvy] and [field],
    the addressable parent and the field descriptor through which the
    step's [Values()] re-reads the same field once [mayForce] holds; the
    values read are [vx] and [vy] themselves, so the model keeps those and
    the flag. *)
Record structField := {
  sf_step : pathStep; name : string; idx : nat;
  unexported : bool; mayForce : bool }.

Inductive PathStep :=
| Root (ps : pathStep)
| StructField (sf : structField)
| SliceIndex (ps : pathStep) (xkey ykey : Z)
| MapIndex (ps : pathStep) (key : Value)
| Indirect (ps : pathStep)
| TypeAssertion (ps : pathStep)
| Transform (ps : pathStep) (trans : transformer).

Definition step_pathStep (s : PathStep) : pathStep :=
  match s with
  | Root ps | SliceIndex ps _ _ | MapIndex ps _ | Indirect ps
  | TypeAssertion ps | Transform ps _ => ps
  | StructField sf => sf_step sf
  end.
Definition step_Type (s : PathStep) : Type_ := typ (step_pathStep s).
Definition step_Values (s : PathStep) : Value * Value :=
  (vx (step_pathStep s), vy (step_pathStep s)).

(** [type Path []PathStep], the root first; [push] appends, [pop] drops the
    last step. *)
Definition Path := list PathStep.
Definition push (p : Path) (s : PathStep) : Path := p ++ [s].
Definition pop (p : Path) : Path := removelast p.

Lemma pop_push p s : pop (push p s) = p.
Proof. unfold pop, push. apply removelast_last. Qed.

(** ** Options *)

(** options.go: [reportFlags]; [_ = (1 << iota) / 2] gives 0, then 1, 2, 4.
    compare.go spells the third flag [reportIgnored] and also names
    [reportByMethod], the next bit. *)
Definition reportEqual : Z := 1.
Definition reportUnequal : Z := 2.
Definition reportIgnored : Z := 4.
Definition reportByMethod : Z := 8.

(** A reporter is an object with methods [PushStep], [Report], [PopStep];
    the state of the object is the sequence of calls it has received. *)
Definition reporterOption := nat.
Inductive Event :=
| CallPushStep (ps : PathStep)
| CallReport (rf : Z)
| CallPopStep.

(** The implementations of [Option].  [Nil] is the nil interface value.
    [validator] is the option compare.go's [newState] installs.  The
    method [filter] is unexported, so a type declared outside the package
    implements [Option] only by embedding one, as the [struct{ cmp.Option }]
    of compare_test.go does: [embedded], with the name [%T] prints for the
    type and the option embedded, [Nil] in the test. *)
Inductive Option :=
| Nil
| Options (opts : list Option)
| pathFilter (fnc : Path → bool) (fname : string) (opt : Option)
| valuesFilter (typ : option Type_) (fnc : Func2) (opt : Option)
| ignore
| invalid
| validator
| Transformer (tr : transformer)
| Comparer (cm : comparer)
| visibleStructs (m : list Type_)
| reporter (r : reporterOption)
| embedded (typeName : string) (opt : Option).

(** [String()] of each option, as [fmt.Sprint(opt)] prints it. *)
Fixpoint Sprint (o : Option) : string :=
  match o with
  | Nil => "<nil>"
  | Options opts =>
      "Options{" +:+
      (fix each (l : list Option) : string :=
         match l with
         | [] => ""
         | [a] => Sprint a
         | a :: l' => Sprint a +:+ ", " +:+ each l'
         end) opts +:+ "}"
  | pathFilter _ fname opt => "FilterPath(" +:+ fname +:+ ", " +:+ Sprint opt +:+ ")"
  | valuesFilter _ f opt => "FilterValues(" +:+ f2_name f +:+ ", " +:+ Sprint opt +:+ ")"
  | ignore => "Ignore()"
  | invalid => "{{}}"
  | validator => "{{}}"
  | Transformer tr =>
      "Transformer(" +:+ tr_name tr +:+ ", " +:+ f1_name (tr_fnc tr) +:+ ")"
  | Comparer cm => "Comparer(" +:+ f2_name (cm_fnc cm) +:+ ")"
  | visibleStructs m => "map[" +:+ Join ((λ t, t +:+ ":true") <$> m) " " +:+ "]"
  | reporter r => "{" +:+ pretty r +:+ "}"
  | embedded _ opt => "{" +:+ Sprint opt +:+ "}"
  end.

(** options.go: [flattenOptions(dst, src)]; [inr] is its panic.  The loop
    over [src] is [flattenOptions_loop], the case of one element
    [flattenOption]. *)
Section flattenOptions_loop.
  Variable flattenOne : list Option → Option → list Option + string.
Fixpoint flattenOptions_loop (dst : list Option) (src : list Option)
    : list Option + string :=
    match src with
    | [] => inl dst
    | a :: src' =>
        match flattenOne dst a with
        | inl dst' => flattenOptions_loop dst' src'
        | inr e => inr e
        end
    end.
End flattenOptions_loop.

Fixpoint flattenOption (dst : list Option) (o : Option) : list Option + string :=
  match o with
  | Nil => inl dst
  | Options src => flattenOptions_loop flattenOption dst src
  | visibleStructs _ | reporter _ | embedded _ _ => inr "invalid option type"
  | _ => inl (dst ++ [o])
  end.
Definition flattenOptions (dst src : list Option) : list Option + string :=
  flattenOptions_loop flattenOption dst src.

(** options.go: [normalizeOption]. *)
Definition normalizeOption (src : Option) : Option + string :=
  match flattenOptions [] [src] with
  | inl [] => inl Nil
  | inl [o] => inl o
  | inl opts => inl (Options opts)
  | inr e => inr e
  end.

(** options.go: [isFiltered], declared by [ignore], [*transformer] and
    [*comparer] only. *)
Definition isFiltered (o : Option) : option bool :=
  match o with
  | ignore => Some false
  | Transformer tr => Some (bool_decide (tr_typ tr ≠ None))
  | Comparer cm => Some (bool_decide (cm_typ cm ≠ None))
  | _ => None
  end.

(** ** internal/diff: the result tally and the edit script *)

(** compare.go counts into [diff.Result] and asks it [Equal()]; the edit
    types are the ones [compareSlice] switches on. *)
Module diff.
Record Result := { NumSame : Z; NumDiff : Z }.
Definition zero : Result := {| NumSame := 0; NumDiff := 0 |}.

  (** Modelled from the spec: [Result.Equal], "a node with zero diff count
      is equal"; internal/diff is not part of this tree. *)
Definition Equal (r : Result) : bool := NumDiff r =? 0.

Inductive EditType := Identity | UniqueX | UniqueY | Modified.

  (** [diff.Difference(nx, ny, f)] may call [f] on any pairs of indexes, in
      any order, each answer steering the next call, and then returns an
      edit script.  A [Plan] is such a strategy. *)
Inductive Plan :=
  | Done (es : list EditType)
  | Ask (ix iy : nat) (k : Result → Plan).
End diff.

(** ** The host runtime *)

Record World := {
  Kind : Type_ → reflect.Kind;                 (* t.Kind() *)
  Elem : Type_ → Type_;                         (* t.Elem() *)
  Fields : Type_ → list reflect.StructField;    (* t.NumField(), t.Field(i) *)
  (** [t.MethodByName("Equal")] when [function.IsType(m.Type,
      function.EqualAssignable)] holds. *)
  MethodEqual : Type_ → option Func2;
  AssignableTo : Type_ → Type_ → bool;          (* t.AssignableTo(u) *)
  Load : uintptr → Value;                       (* v.Elem() of a non-nil pointer *)
  SortKeys : list Value → list Value;           (* value.SortKeys *)
  Difference : nat → nat → diff.Plan;           (* diff.Difference *)
  GoString : Path → string;                     (* fmt's %#v of a Path *)
  (** [value.Format(v, FormatConfig{UseStringer, PrintPrimitiveType})]. *)
  Format : Value → bool → bool → string;
  IsUpper : string → bool;       (* unicode.IsUpper of a leading non-ASCII rune *)
  AtLeastGo110 : bool                           (* flags.AtLeastGo110 *)
}.

(** ** The comparison state *)

(** compare.go: [recChecker] and [dynChecker]. *)
Record recChecker := { rc_next : Z }.
Record dynChecker := { curr : Z; next : Z }.

(** compare.go: [type state struct].  [calls] is the memory of the reporter
    objects: every method call made on one, oldest first. *)
Record state := {
  result : diff.Result;
  curPath : Path;
  reporters : list reporterOption;
  recChecker_ : recChecker;
  dynChecker_ : dynChecker;
  exporters : gmap Type_ bool;
  opts : list Option;
  calls : list (reporterOption * Event)
}.

Definition set_result (r : diff.Result) (s : state) : state :=
  {| result := r; curPath := curPath s; reporters := reporters s;
     recChecker_ := recChecker_ s; dynChecker_ := dynChecker_ s;
     exporters := exporters s; opts := opts s; calls := calls s |}.
Definition set_curPath (p : Path) (s : state) : state :=
  {| result := result s; curPath := p; reporters := reporters s;
     recChecker_ := recChecker_ s; dynChecker_ := dynChecker_ s;
     exporters := exporters s; opts := opts s; calls := calls s |}.
Definition set_reporters (rs : list reporterOption) (s : state) : state :=
  {| result := result s; curPath := curPath s; reporters := rs;
     recChecker_ := recChecker_ s; dynChecker_ := dynChecker_ s;
     exporters := exporters s; opts := opts s; calls := calls s |}.
Definition set_recChecker (rc : recChecker) (s : state) : state :=
  {| result := result s; curPath := curPath s; reporters := reporters s;
     recChecker_ := rc; dynChecker_ := dynChecker_ s;
     exporters := exporters s; opts := opts s; calls := calls s |}.
Definition set_dynChecker (dc : dynChecker) (s : state) : state :=
  {| result := result s; curPath := curPath s; reporters := reporters s;
     recChecker_ := recChecker_ s; dynChecker_ := dc;
     exporters := exporters s; opts := opts s; calls := calls s |}.
Definition set_exporters (e : gmap Type_ bool) (s : state) : state :=
  {| result := result s; curPath := curPath s; reporters := reporters s;
     recChecker_ := recChecker_ s; dynChecker_ := dynChecker_ s;
     exporters := e; opts := opts s; calls := calls s |}.
Definition set_opts (o : list Option) (s : state) : state :=
  {| result := result s; curPath := curPath s; reporters := reporters s;
     recChecker_ := recChecker_ s; dynChecker_ := dynChecker_ s;
     exporters := exporters s; opts := o; calls := calls s |}.
Definition set_calls (c : list (reporterOption * Event)) (s : state) : state :=
  {| result := result s; curPath := curPath s; reporters := reporters s;
     recChecker_ := recChecker_ s; dynChecker_ := dynChecker_ s;
     exporters := exporters s; opts := opts s; calls := c |}.

(** ** The monad of the walkers

    A method on [*state] either returns, leaving a new state, or panics;
    nothing in the package recovers a panic of the engine, so a panic ends
    the comparison.  [Exhausted] is the model's recursion bound running out. *)
Inductive outcome (A : Type) :=
| Ret (a : A) (s : state)
| Panic (msg : string)
| Exhausted.
Arguments Ret {A} a s.
Arguments Panic {A} msg.
Arguments Exhausted {A}.

Definition M (A : Type) := state → outcome A.

Definition ret {A} (a : A) : M A := λ s, Ret a s.
Definition bind {A B} (m : M A) (k : A → M B) : M B :=
  λ s, match m s with
       | Ret a s' => k a s'
       | Panic msg => Panic msg
       | Exhausted => Exhausted
       end.
Definition panic {A} (msg : string) : M A := λ _, Panic msg.
Definition exhausted {A} : M A := λ _, Exhausted.
Definition get : M state := λ s, Ret s s.
Definition gets {A} (f : state → A) : M A := λ s, Ret (f s) s.
Definition modify (f : state → state) : M unit := λ s, Ret tt (f s).
(** A [reflect] call that panics on a value of the wrong kind. *)
Definition must {A} (o : option A) (what : string) : M A :=
  match o with
  | Some a => ret a
  | None => panic ("reflect: call of " +:+ what +:+ " on a Value of another kind")
  end.

Notation "x <- m ;; k" := (bind m (λ x, k))
  (at level 100, m at next level, right associativity,
   format "x  <-  m  ;;  '/' k").
Notation "m ;;; k" := (bind m (λ _, k))
  (at level 100, right associativity, format "m  ;;;  '/' k").

Lemma bind_ret_l {A B} (a : A) (k : A → M B) s : bind (ret a) k s = k a s.
Proof. reflexivity. Qed.

Lemma bind_assoc {A B C} (m : M A) (k : A → M B) (h : B → M C) s :
  bind (bind m k) h s = bind m (λ a, bind (k a) h) s.
Proof. unfold bind. destruct (m s); reflexivity. Qed.

(** * compare.go and options.go *)

Section Engine.
  Context (W : World).

  (** ** The checkers *)

  (** compare.go: [dynChecker.Next]. *)
Definition dynChecker_Next (dc : dynChecker) : bool * dynChecker :=
    let ok := curr dc =? next dc in
    let dc1 := if ok then {| curr := 0; next := int_add (next dc) 1 |} else dc in
    (ok, {| curr := int_add (curr dc1) 1; next := next dc1 |}).
Definition Next : M bool :=
    λ s, let '(ok, dc) := dynChecker_Next (dynChecker_ s) in
         Ret ok (set_dynChecker dc s).

  (** compare.go: the scan of [recChecker.Check], [m] counting by
      transformer pointer. *)
Fixpoint recursiveTransformers (p : Path) (m : gmap uintptr Z) : list string :=
    match p with
    | [] => []
    | Transform _ t :: p' =>
        let n := default 0 (m !! tr_ptr t) in
        (if n =? 1
         then [Sprint (Transformer t) +:+ ": " +:+ f1_in (tr_fnc t)
               +:+ " => " +:+ f1_out (tr_fnc t)]
         else [])
        ++ recursiveTransformers p' (<[tr_ptr t := int_add n 1]> m)
    | _ :: p' => recursiveTransformers p' m
    end.

Definition minLen : Z := Z.shiftl 1 16.

  (** compare.go: [recChecker.Check]. *)
Definition Check (p : Path) : M unit :=
    λ s,
      let n0 := rc_next (recChecker_ s) in
      let n := if n0 =? 0 then minLen else n0 in
      if len p <? n then Ret tt (set_recChecker {| rc_next := n |} s)
      else
        let ss := recursiveTransformers p ∅ in
        if 0 <? len ss
        then Panic ("recursive set of Transformers detected:" +:+ nltab
                    +:+ Join ss nltab +:+ nl
                    +:+ "consider using cmpopts.AcyclicTransformer")
        else Ret tt (set_recChecker {| rc_next := int_shl1 n |} s).

  (** ** Reporting *)

  (** [for _, r := range rs { r.m(..) }]. *)
Definition emit (rs : list reporterOption) (e : Event) : M unit :=
    modify (λ s, set_calls (calls s ++ ((λ r, (r, e)) <$> rs)) s).

  (** compare.go: [state.report]. *)
Definition report (eq : bool) (rf : Z) : M unit :=
    rf' <- (if Z.land rf reportIgnored =? 0 then
              if eq then
                modify (λ s, set_result
                  {| diff.NumSame := int_add (diff.NumSame (result s)) 1;
                     diff.NumDiff := diff.NumDiff (result s) |} s) ;;;
                ret (Z.lor rf reportEqual)
              else
                modify (λ s, set_result
                  {| diff.NumSame := diff.NumSame (result s);
                     diff.NumDiff := int_add (diff.NumDiff (result s)) 1 |} s) ;;;
                ret (Z.lor rf reportUnequal)
            else ret rf) ;;
    rs <- gets reporters ;;
    emit rs (CallReport rf').

  (** ** Calling user functions *)

  (** compare.go: [sanitizeValue].  Before Go 1.10 a nil interface of type T
      is made again as a nil interface of type R; the model has one nil
      interface value, so both branches return it. *)
Definition sanitizeValue (v : Value) (t : Type_) : Value :=
    if negb (AtLeastGo110 W) then
      match v with
      | VInterface None => VInterface None
      | _ => v
      end
    else v.

  (** compare.go: [callTTBFunc].  [detectRaces] runs [f(y, x)] in a
      goroutine and hands its result back; a user function is a function
      here, so that result is always valid. *)
Definition callTTBFunc (f : Func2) (x y : Value) : M bool :=
    let x := sanitizeValue x (f2_in f) in
    let y := sanitizeValue y (f2_in f) in
    ok <- Next ;;
    if negb ok then ret (call2 f x y)
    else
      let got := call2 f y x in
      let want := call2 f x y in
      if negb (Bool.eqb got want)
      then panic ("non-deterministic or non-symmetric function detected: "
                  +:+ f2_name f)
      else ret want.

  (** ** options.go: filter *)

  (** cmpopts/ignore.go: [isExported], [unicode.IsUpper] of the first rune;
      the host decides for a leading non-ASCII rune. *)
Definition isExported (id : string) : bool :=
    match id with
    | EmptyString => false
    | String.String c _ =>
        let n := Z.of_nat (nat_of_ascii c) in
        if n <? 128 then (65 <=? n) && (n <=? 90) else IsUpper W id
    end.

  (** options.go: the loop of [transformer.filter], over the path read from
      its last step backwards: [true] when [tr] is met before the most
      recent step that is not a Transform. *)
Fixpoint inTransformTail (tr : transformer) (rp : list PathStep) : bool :=
    match rp with
    | Transform _ t :: rp' =>
        if tr_ptr tr =? tr_ptr t then true else inTransformTail tr rp'
    | _ => false
    end.

Definition typeMatches (typ : option Type_) (t : Type_) : bool :=
    match typ with
    | None => true
    | Some u => AssignableTo W t u
    end.

  (** Modelled from the spec: the filter of [validator], the option
      [newState] installs first, whose declaration is not in this tree.
      Section 4.1: an element or key present on one side only is a leaf
      compared against "absent"; a field that is not externally visible
      may be read only after an Ignore or under a visibility grant. *)
Definition forbidden (p : Path) : bool :=
    match last p with
    | Some (StructField sf) => unexported sf && negb (mayForce sf)
    | _ => false
    end.
Definition validator_filter (vx vy : Value) : M Option :=
    p <- gets curPath ;;
    if negb (rv.IsValid vx) || negb (rv.IsValid vy) then ret validator
    else if forbidden p then ret validator
    else ret Nil.

  (** Modelled from the spec: the guard of [valuesFilter.filter].  The
      options.go of this tree answers [invalid{}] where a value is missing
      and calls the filter function everywhere else.  It is not the file
      compare.go was written against: its [filter] takes [(s, vx, vy, t)],
      compare.go calls [filter(s, t, vx, vy)]; and the [invalid] it answers
      is the unexported-field panic, made for an engine that settles a
      node with a missing value before it tries the options, as the
      compare.go of src/unnamed/part_008 does.  The compare.go modelled
      here hands the options the missing element and the unreadable field
      as they are, and leaves both to [validator]: compare_test.go compares
      slices element against missing element under FilterValues and
      expects a verdict, not a panic, and [reflect] refuses to call a
      function on the values of an unreadable field.  Section 4.1: an
      element present on one side only is a leaf compared against
      "absent", and "filters must be evaluatable without reading forbidden
      memory".  So at such a node the filter function is not called and
      the filter lets nothing through. *)
Definition unfilterable (p : Path) (vx vy : Value) : bool :=
    negb (rv.IsValid vx) || negb (rv.IsValid vy) || forbidden p.

  (** options.go: the loop of [Options.filter]; [flt] is [opt.filter(s, vx,
      vy, t)], [out] the result so far.  [validator] is merged as
      [invalid] is. *)
  Section Options_filter_loop.
    Variable flt : Option → M Option.
Fixpoint Options_filter_loop (l : list Option) (out : Option) : M Option :=
      match l with
      | [] => ret out
      | opt :: l' =>
          r <- flt opt ;;
          match r with
          | ignore => ret ignore
          | invalid => Options_filter_loop l' invalid
          | validator => Options_filter_loop l' validator
          | Comparer _ | Transformer _ | Options _ =>
              match out with
              | Nil => Options_filter_loop l' r
              | invalid | validator => Options_filter_loop l' out
              | Comparer _ | Transformer _ | Options _ =>
                  Options_filter_loop l' (Options [out; r])
              | _ => Options_filter_loop l' out
              end
          | _ => Options_filter_loop l' out
          end
      end.
  End Options_filter_loop.

  (** options.go: [filter] of every implementation; the case [Options] is
      [Options.filter]. *)
Fixpoint Option_filter (o : Option) (vx vy : Value) (t : Type_) {struct o} : M Option :=
    match o with
    | Nil => panic "runtime error: invalid memory address or nil pointer dereference"
    | Options opts =>
        Options_filter_loop (λ opt, Option_filter opt vx vy t) opts Nil
    | pathFilter fnc _ opt =>
        p <- gets curPath ;;
        if fnc p then Option_filter opt vx vy t else ret Nil
    | valuesFilter typ fnc opt =>
        p <- gets curPath ;;
        if unfilterable p vx vy then ret Nil
        else if typeMatches typ t then
          b <- callTTBFunc fnc vx vy ;;
          if b then Option_filter opt vx vy t else ret Nil
        else ret Nil
    | ignore => ret ignore
    | invalid => ret invalid
    | validator => validator_filter vx vy
    | Transformer tr =>
        p <- gets curPath ;;
        if inTransformTail tr (rev p) then ret Nil
        else if typeMatches (tr_typ tr) t then ret (Transformer tr)
        else ret Nil
    | Comparer cm =>
        if typeMatches (cm_typ cm) t then ret (Comparer cm) else ret Nil
    | visibleStructs _ => panic "not implemented"
    | reporter _ => panic "not implemented"
    | embedded _ opt => Option_filter opt vx vy t
    end.

  (** options.go: [Options.filter], by its name. *)
Definition Options_filter (opts : list Option) (vx vy : Value) (t : Type_)
    : M Option := Option_filter (Options opts) vx vy t.

  (** ** The walkers, open in the recursive call

      [rec] stands for [s.compareAny]; the fixpoint [compareAny] below ties
      the knot. *)
  Section Walkers.
    Variable rec : PathStep → M unit.

    (** compare.go: [statelessCompare]. *)
Definition statelessCompare (step : PathStep) : M diff.Result :=
      s0 <- get ;;
      let oldResult := result s0 in
      let oldReporters := reporters s0 in
      modify (set_result diff.zero) ;;;
      modify (set_reporters []) ;;;
      rec step ;;;
      res <- gets result ;;
      modify (set_result oldResult) ;;;
      modify (set_reporters oldReporters) ;;;
      ret res.

    (** compare.go: [callTRFunc].  [step] is the transform step whose
        values the check overwrites. *)
Definition callTRFunc (f : Func1) (v : Value) (t : Type_) (tr : transformer)
      : M Value :=
      let v := sanitizeValue v (f1_in f) in
      ok <- Next ;;
      if negb ok then ret (call1 f v)
      else
        let got := call1 f v in
        let want := call1 f v in
        r1 <- statelessCompare (Transform {| typ := t; vx := got; vy := want |} tr) ;;
        if negb (diff.Equal r1) then
          r2 <- statelessCompare (Transform {| typ := t; vx := want; vy := want |} tr) ;;
          if negb (diff.Equal r2) then ret want
          else panic ("non-deterministic function detected: " +:+ f1_name f)
        else ret want.

    (** options.go: [Options.apply]. *)
Definition Options_apply (opts : list Option) : M unit :=
      p <- gets curPath ;;
      match flattenOptions [] opts with
      | inr e => panic e
      | inl flat =>
          panic ("ambiguous set of applicable options" +:+ " at " +:+ GoString W p
                 +:+ ":" +:+ nltab +:+ Join (Sprint <$> flat) nltab +:+ nl
                 +:+ "consider using filters to ensure at most one Comparer or Transformer may apply")
      end.

    (** options.go: [invalid.apply]. *)
Definition invalid_apply : M unit :=
      p <- gets curPath ;;
      panic ("cannot handle unexported field: " +:+ GoString W p +:+ nl
             +:+ "consider using AllowUnexported or cmpopts.IgnoreUnexported").

    (** Modelled from the spec: the apply of [validator] (see
        [validator_filter]): a one-sided node is an unequal leaf, a
        forbidden field is the fatal access error. *)
Definition validator_apply (vx vy : Value) : M unit :=
      if negb (rv.IsValid vx) || negb (rv.IsValid vy)
      then report (Bool.eqb (rv.IsValid vx) (rv.IsValid vy)) 0
      else invalid_apply.

    (** options.go: [transformer.apply], written against compare.go's
        [callTRFunc(f, v, step)] and [compareAny(step)], which pushes the
        step itself. *)
Definition transformer_apply (tr : transformer) (vx vy : Value) : M unit :=
      let t := f1_out (tr_fnc tr) in
      vvx <- callTRFunc (tr_fnc tr) vx t tr ;;
      vvy <- callTRFunc (tr_fnc tr) vy t tr ;;
      rec (Transform {| typ := t; vx := vvx; vy := vvy |} tr).

    (** options.go: [comparer.apply]; [s.report(eq)] is compare.go's
        [report(eq, 0)]. *)
Definition comparer_apply (cm : comparer) (vx vy : Value) : M unit :=
      eq <- callTTBFunc (cm_fnc cm) vx vy ;;
      report eq 0.

    (** options.go: [apply] of the applicable options; [ignore.apply] is
        [s.reportIgnore()], compare.go's [report(true, reportIgnored)]. *)
Definition Option_apply (o : Option) (vx vy : Value) : M unit :=
      match o with
      | Options opts => Options_apply opts
      | ignore => report true reportIgnored
      | invalid => invalid_apply
      | validator => validator_apply vx vy
      | Transformer tr => transformer_apply tr vx vy
      | Comparer cm => comparer_apply cm vx vy
      | _ => panic "runtime error: invalid memory address or nil pointer dereference"
      end.

    (** compare.go: [tryOptions]. *)
Definition tryOptions (t : Type_) (vx vy : Value) : M bool :=
      os <- gets opts ;;
      opt <- Options_filter os vx vy t ;;
      match opt with
      | Nil => ret false
      | _ => Option_apply opt vx vy ;;; ret true
      end.

    (** compare.go: [tryMethod]. *)
Definition tryMethod (t : Type_) (vx vy : Value) : M bool :=
      match MethodEqual W t with
      | None => ret false
      | Some m =>
          eq <- callTTBFunc m vx vy ;;
          report eq reportByMethod ;;;
          ret true
      end.

    (** compare.go: [compareStruct].  [i] is the loop index, [fs] the fields
        from [i] on, [mf] the [mayForce] left in the shared step by the
        iterations before. *)
Fixpoint compareStruct_loop (t : Type_) (vx vy : Value)
        (fs : list reflect.StructField) (i : nat) (mf : bool) : M unit :=
      match fs with
      | [] => ret tt
      | f :: fs' =>
          fx <- must (rv.Field vx i) "Field" ;;
          fy <- must (rv.Field vy i) "Field" ;;
          let unexp := negb (isExported (reflect.Name f)) in
          if unexp && bool_decide (reflect.Name f = "_")
          then compareStruct_loop t vx vy fs' (S i) mf
          else
            mf' <- (if unexp
                    then e <- gets exporters ;; ret (default false (e !! t))
                    else ret mf) ;;
            rec (StructField
                   {| sf_step := {| typ := reflect.Typ f; vx := fx; vy := fy |};
                      name := reflect.Name f; idx := i;
                      unexported := unexp; mayForce := mf' |}) ;;;
            compareStruct_loop t vx vy fs' (S i) mf'
      end.
Definition compareStruct (t : Type_) (vx vy : Value) : M unit :=
      compareStruct_loop t vx vy (Fields W t) 0 false.

    (** compare.go: [withIndexes] of [compareSlice]; a negative index
        stands for no element on that side. *)
Definition withIndexes (te : Type_) (vx vy : Value) (ix iy : Z) : M PathStep :=
      x <- (if 0 <=? ix
            then v <- must (rv.Index vx (Z.to_nat ix)) "Index" ;; ret (v, ix)
            else ret (VInvalid, -1)) ;;
      y <- (if 0 <=? iy
            then v <- must (rv.Index vy (Z.to_nat iy)) "Index" ;; ret (v, iy)
            else ret (VInvalid, -1)) ;;
      ret (SliceIndex {| typ := te; vx := x.1; vy := y.1 |} x.2 y.2).

    (** compare.go: the two loops of [compareSlice] that find the elements
        ignored when standing alone; [mk i] is [withIndexes(i, -1)] or
        [withIndexes(-1, i)].  Returns [indexes] and [ignored]. *)
Fixpoint scanIgnored (mk : nat → M PathStep) (idxs : list nat)
      : M (list nat * list bool) :=
      match idxs with
      | [] => ret ([], [])
      | i :: idxs' =>
          step <- mk i ;;
          res <- statelessCompare step ;;
          let ignored := diff.NumDiff res =? 0 in
          r <- scanIgnored mk idxs' ;;
          ret (if ignored then r.1 else i :: r.1, ignored :: r.2)
      end.

    (** [diff.Difference(nx, ny, f)] run against the callback [f]. *)
Fixpoint runPlan (f : nat → nat → M diff.Result) (p : diff.Plan)
      : M (list diff.EditType) :=
      match p with
      | diff.Done es => ret es
      | diff.Ask ix iy k => r <- f ix iy ;; runPlan f (k r)
      end.

Definition indexOutOfRange {A} : M A :=
      panic "runtime error: index out of range".

    (** compare.go: the replay loop of [compareSlice].  Every iteration
        advances [ix] or [iy], and an index past its length panics, so
        [lx + ly] iterations are enough; [n] counts them down. *)
Fixpoint replay (te : Type_) (vx vy : Value) (lx ly : nat)
        (ignoredX ignoredY : list bool) (n : nat) (ix iy : nat)
        (edits : list diff.EditType) : M unit :=
      if bool_decide (ix < lx)%nat || bool_decide (iy < ly)%nat then
        match n with
        | O => exhausted
        | S n' =>
            ee <- (if default false (ignoredX !! ix) then ret (diff.UniqueX, edits)
                   else if default false (ignoredY !! iy) then ret (diff.UniqueY, edits)
                   else match edits with
                        | e :: edits' => ret (e, edits')
                        | [] => indexOutOfRange
                        end) ;;
            match ee.1 with
            | diff.UniqueX =>
                step <- withIndexes te vx vy (Z.of_nat ix) (-1) ;;
                rec step ;;;
                replay te vx vy lx ly ignoredX ignoredY n' (S ix) iy ee.2
            | diff.UniqueY =>
                step <- withIndexes te vx vy (-1) (Z.of_nat iy) ;;
                rec step ;;;
                replay te vx vy lx ly ignoredX ignoredY n' ix (S iy) ee.2
            | _ =>
                step <- withIndexes te vx vy (Z.of_nat ix) (Z.of_nat iy) ;;
                rec step ;;;
                replay te vx vy lx ly ignoredX ignoredY n' (S ix) (S iy) ee.2
            end
        end
      else ret tt.

    (** compare.go: [compareSlice]. *)
Definition compareSlice (t : Type_) (vx vy : Value) : M unit :=
      let te := Elem W t in
      lx <- must (rv.Len vx) "Len" ;;
      ly <- must (rv.Len vy) "Len" ;;
      sx <- scanIgnored (λ i, withIndexes te vx vy (Z.of_nat i) (-1)) (seq 0 lx) ;;
      sy <- scanIgnored (λ i, withIndexes te vx vy (-1) (Z.of_nat i)) (seq 0 ly) ;;
      let indexesX := sx.1 in
      let indexesY := sy.1 in
      edits <- runPlan
        (λ ix iy,
           match indexesX !! ix, indexesY !! iy with
           | Some jx, Some jy =>
               step <- withIndexes te vx vy (Z.of_nat jx) (Z.of_nat jy) ;;
               statelessCompare step
           | _, _ => indexOutOfRange
           end)
        (Difference W (length indexesX) (length indexesY)) ;;
      replay te vx vy lx ly sx.2 sy.2 (lx + ly) 0 0 edits.

    (** compare.go: the loop of [compareMap] over the sorted keys. *)
Fixpoint compareMap_loop (t : Type_) (vx vy : Value) (ks : list Value) : M unit :=
      match ks with
      | [] => ret tt
      | k :: ks' =>
          ex <- must (rv.MapIndex vx k) "MapIndex" ;;
          ey <- must (rv.MapIndex vy k) "MapIndex" ;;
          if negb (rv.IsValid ex) && negb (rv.IsValid ey) then
            p <- gets curPath ;;
            panic (GoString W p +:+ " has map key with NaNs" +:+ nl
                   +:+ "consider providing a Comparer to compare the map")
          else
            rec (MapIndex {| typ := Elem W t; vx := ex; vy := ey |} k) ;;;
            compareMap_loop t vx vy ks'
      end.

    (** compare.go: [compareMap]. *)
Definition compareMap (t : Type_) (vx vy : Value) : M unit :=
      nx <- must (rv.IsNil vx) "IsNil" ;;
      ny <- must (rv.IsNil vy) "IsNil" ;;
      if nx || ny then report (nx && ny) 0
      else
        kx <- must (rv.MapKeys vx) "MapKeys" ;;
        ky <- must (rv.MapKeys vy) "MapKeys" ;;
        compareMap_loop t vx vy (SortKeys W (kx ++ ky)).

    (** compare.go: rule 3 of [compareAny], the switch on [t.Kind()]. *)
Definition compareKind (t : Type_) (vx vy : Value) : M unit :=
      match Kind W t with
      | reflect.Bool =>
          x <- must (rv.Bool_ vx) "Bool" ;;
          y <- must (rv.Bool_ vy) "Bool" ;;
          report (Bool.eqb x y) 0
      | reflect.Int | reflect.Int8 | reflect.Int16 | reflect.Int32 | reflect.Int64 =>
          x <- must (rv.Int_ vx) "Int" ;;
          y <- must (rv.Int_ vy) "Int" ;;
          report (x =? y) 0
      | reflect.Uint | reflect.Uint8 | reflect.Uint16 | reflect.Uint32
      | reflect.Uint64 | reflect.Uintptr =>
          x <- must (rv.Uint_ vx) "Uint" ;;
          y <- must (rv.Uint_ vy) "Uint" ;;
          report (x =? y) 0
      | reflect.Float32 | reflect.Float64 =>
          x <- must (rv.Float_ vx) "Float" ;;
          y <- must (rv.Float_ vy) "Float" ;;
          report (float64.eq x y) 0
      | reflect.Complex64 | reflect.Complex128 =>
          x <- must (rv.Complex_ vx) "Complex" ;;
          y <- must (rv.Complex_ vy) "Complex" ;;
          report (float64.eq x.1 y.1 && float64.eq x.2 y.2) 0
      | reflect.String =>
          report (bool_decide (rv.String_ vx = rv.String_ vy)) 0
      | reflect.Chan | reflect.UnsafePointer =>
          x <- must (rv.Pointer_ vx) "Pointer" ;;
          y <- must (rv.Pointer_ vy) "Pointer" ;;
          report (x =? y) 0
      | reflect.Func =>
          x <- must (rv.IsNil vx) "IsNil" ;;
          y <- must (rv.IsNil vy) "IsNil" ;;
          report (x && y) 0
      | reflect.Struct => compareStruct t vx vy
      | reflect.Slice =>
          x <- must (rv.IsNil vx) "IsNil" ;;
          y <- must (rv.IsNil vy) "IsNil" ;;
          if x || y then report (x && y) 0
          else compareSlice t vx vy
      | reflect.Array => compareSlice t vx vy
      | reflect.Map => compareMap t vx vy
      | reflect.Ptr =>
          x <- must (rv.IsNil vx) "IsNil" ;;
          y <- must (rv.IsNil vy) "IsNil" ;;
          if x || y then report (x && y) 0
          else
            px <- must (rv.Pointer_ vx) "Elem" ;;
            py <- must (rv.Pointer_ vy) "Elem" ;;
            rec (Indirect {| typ := Elem W t; vx := Load W px; vy := Load W py |})
      | reflect.Interface =>
          x <- must (rv.IsNil vx) "IsNil" ;;
          y <- must (rv.IsNil vy) "IsNil" ;;
          if x || y then report (x && y) 0
          else
            match vx, vy with
            | VInterface (Some (tx, ex)), VInterface (Some (ty, ey)) =>
                if negb (bool_decide (tx = ty)) then report false 0
                else rec (TypeAssertion {| typ := tx; vx := ex; vy := ey |})
            | _, _ => panic "reflect: call of Elem on a Value of another kind"
            end
      | reflect.Invalid => panic "invalid kind not handled"
      end.

    (** compare.go: [compareAny].  The deferred calls run last, the
        reporters' [PopStep] in the reverse of the order they were
        deferred in, then the pop of the path. *)
Definition compareAny_body (step : PathStep) : M unit :=
      modify (λ s, set_curPath (push (curPath s) step) s) ;;;
      rs <- gets reporters ;;
      emit rs (CallPushStep step) ;;;
      p <- gets curPath ;;
      Check p ;;;
      let t := step_Type step in
      let vx := (step_Values step).1 in
      let vy := (step_Values step).2 in
      (b <- tryOptions t vx vy ;;
       if b then ret tt
       else
         b <- tryMethod t vx vy ;;
         if b then ret tt
         else compareKind t vx vy) ;;;
      emit (rev rs) CallPopStep ;;;
      modify (λ s, set_curPath (pop (curPath s)) s).
  End Walkers.

  (** [compareAny] calls itself; [fuel] bounds the depth of the calls. *)
Fixpoint compareAny (fuel : nat) (step : PathStep) : M unit :=
    match fuel with
    | O => exhausted
    | S fuel' => compareAny_body (compareAny fuel') step
    end.

  (** compare.go: [processOption]; [processOptions] is its loop over an
      [Options]. *)
  Section processOptions.
    Variable processOne : Option → M unit.
Fixpoint processOptions (l : list Option) : M unit :=
      match l with
      | [] => ret tt
      | o :: l' => processOne o ;;; processOptions l'
      end.
  End processOptions.

Fixpoint processOption (opt : Option) : M unit :=
    match opt with
    | Nil => ret tt
    | Options os => processOptions processOption os
    | visibleStructs m =>
        modify (λ s, set_exporters
                       (foldr (λ t e, <[t := true]> e) (exporters s) m) s)
    | reporter r =>
        modify (λ s, set_reporters (reporters s ++ [r]) s)
    | embedded typeName _ => panic ("unknown option " +:+ typeName)
    | _ =>
        match isFiltered opt with
        | Some false => panic ("cannot use an unfiltered option: " +:+ Sprint opt)
        | _ => modify (λ s, set_opts (opts s ++ [opt]) s)
        end
    end.

  (** compare.go: [newState]. *)
Definition emptyState : state :=
    {| result := diff.zero; curPath := []; reporters := [];
       recChecker_ := {| rc_next := 0 |};
       dynChecker_ := {| curr := 0; next := 0 |};
       exporters := ∅; opts := [validator]; calls := [] |}.
Definition newState (os : list Option) : outcome unit :=
    processOptions processOption os emptyState.

  (** compare.go: the type [interface{}] that [Equal] wraps its inputs in. *)
Definition emptyInterface : Type_ := "interface {}".

  (** compare.go: the root step [Equal] builds from its two arguments, each
      an [interface{}]: [None] is nil, [Some (t, v)] a value [v] of dynamic
      type [t]. *)
Definition rootStep (x y : option (Type_ * Value)) : PathStep :=
    match x, y with
    | Some (tx, dx), Some (ty, dy) =>
        if bool_decide (tx = ty)
        then Root {| typ := tx; vx := dx; vy := dy |}
        else Root {| typ := emptyInterface;
                     vx := VInterface x; vy := VInterface y |}
    | _, _ =>
        Root {| typ := emptyInterface;
                vx := if x is Some _ then VInterface x else VInvalid;
                vy := if y is Some _ then VInterface y else VInvalid |}
    end.

  (** The traversal of [Equal], with the state it ends in. *)
Definition traverse (fuel : nat) (x y : option (Type_ * Value))
      (os : list Option) : outcome unit :=
    match newState os with
    | Ret _ s => compareAny fuel (rootStep x y) s
    | Panic msg => Panic msg
    | Exhausted => Exhausted
    end.
End Engine.

(** What a call of an exported function comes to. *)
Inductive answer (A : Type) :=
| Returns (a : A)
| Panics (msg : string)
| OutOfFuel.
Arguments Returns {A} a.
Arguments Panics {A} msg.
Arguments OutOfFuel {A}.

(** compare.go: [Equal]. *)
Definition Equal (W : World) (fuel : nat) (x y : option (Type_ * Value))
    (os : list Option) : answer bool :=
  match traverse W fuel x y os with
  | Ret _ s => Returns (diff.Equal (result s))
  | Panic msg => Panics msg
  | Exhausted => OutOfFuel
  end.

(** * report.go (src/cmp/report.go): the default reporter *)

Module report.
Record defaultReporter := {
    curPath : Path;
    curVals : list (Value * Value);
    diffs : list string;     (* List of differences, possibly truncated *)
    ndiffs : Z;              (* Total number of differences *)
    nbytes : Z;              (* Number of bytes in diffs *)
    nlines : Z               (* Number of lines in diffs *)
  }.

Definition new : defaultReporter :=
    {| curPath := []; curVals := []; diffs := []; ndiffs := 0; nbytes := 0; nlines := 0 |}.

Definition maxBytes : Z := 4096.
Definition maxLines : Z := 256.

  Section Methods.
    Context (W : World).

Definition PushStep (ps : PathStep) (x y : Value) (r : defaultReporter)
      : defaultReporter :=
      {| curPath := push (curPath r) ps; curVals := curVals r ++ [(x, y)];
         diffs := diffs r; ndiffs := ndiffs r; nbytes := nbytes r; nlines := nlines r |}.

    (** [fmt.Sprintf("%#v:\n\t-: %s\n\t+: %s\n", p, sx, sy)]. *)
Definition entry (p : Path) (sx sy : string) : string :=
      GoString W p +:+ ":" +:+ nltab +:+ "-: " +:+ sx +:+ nltab +:+ "+: " +:+ sy +:+ nl.

Definition report (x y : Value) (p : Path) (r : defaultReporter)
      : defaultReporter :=
      let n := int_add (ndiffs r) 1 in
      if (nbytes r <? maxBytes) && (nlines r <? maxLines) then
        let sx := Format W x true false in
        let sy := Format W y true false in
        let exact := bool_decide (sx = sy) in
        let sx := if exact then Format W x false true else sx in
        let sy := if exact then Format W y false true else sy in
        let s := entry p sx sy in
        {| curPath := curPath r; curVals := curVals r;
           diffs := diffs r ++ [s]; ndiffs := n;
           nbytes := int_add (nbytes r) (Z.of_nat (String.length s));
           nlines := int_add (nlines r) (CountNewlines s) |}
      else
        {| curPath := curPath r; curVals := curVals r; diffs := diffs r;
           ndiffs := n; nbytes := nbytes r; nlines := nlines r |}.

    (** [None] is the run-time panic of indexing an empty [curVals]. *)
Definition Report (f : Z) (r : defaultReporter) : option defaultReporter :=
      if f =? reportUnequal then
        match last (curVals r) with
        | Some vs => Some (report vs.1 vs.2 (curPath r) r)
        | None => None
        end
      else Some r.

Definition PopStep (r : defaultReporter) : option defaultReporter :=
      match curVals r with
      | [] => None
      | _ =>
          Some {| curPath := pop (curPath r); curVals := removelast (curVals r);
                  diffs := diffs r; ndiffs := ndiffs r; nbytes := nbytes r;
                  nlines := nlines r |}
      end.

Definition String (r : defaultReporter) : string :=
      let s := Join (diffs r) "" in
      if ndiffs r =? len (diffs r) then s
      else s +:+ "... " +:+ pretty (int_sub (ndiffs r) (len (diffs r)))
             +:+ " more differences ...".

    (** One method call on the reporter object; compare.go hands the step
        to [PushStep], the values are the step's. *)
Definition call (r : defaultReporter) (e : Event) : option defaultReporter :=
      match e with
      | CallPushStep ps => Some (PushStep ps (step_Values ps).1 (step_Values ps).2 r)
      | CallReport f => Report f r
      | CallPopStep => PopStep r
      end.
  End Methods.
End report.

(** * compare.go: Diff *)

(** The reporter objects an option list already holds; [new(defaultReporter)]
    is none of them. *)
Fixpoint handles (o : Option) : list reporterOption :=
  match o with
  | reporter r => [r]
  | Options os =>
      (fix each (l : list Option) : list reporterOption :=
         match l with
         | [] => []
         | a :: l' => handles a ++ each l'
         end) os
  | pathFilter _ _ o' | valuesFilter _ _ o' | embedded _ o' => handles o'
  | _ => []
  end.
Definition newReporter (os : list Option) : reporterOption :=
  S (max_list (handles (Options os))).

(** The calls the object [r] received, oldest first. *)
Definition received (r : reporterOption) (cs : list (reporterOption * Event))
  : list Event :=
  (base.filter (λ c, c.1 = r) cs).*2.

Fixpoint replayCalls (W : World) (rep : report.defaultReporter) (es : list Event)
  : option report.defaultReporter :=
  match es with
  | [] => Some rep
  | e :: es' =>
      match report.call W rep e with
      | Some rep' => replayCalls W rep' es'
      | None => None
      end
  end.

(** compare.go: [Diff].  [r.String()] is read off the calls the fresh
    reporter received during the traversal of [Equal]. *)
Definition Diff (W : World) (fuel : nat) (x y : option (Type_ * Value))
    (os : list Option) : answer string :=
  let r := newReporter os in
  match traverse W fuel x y [Options os; reporter r] with
  | Ret _ s =>
      let eq := diff.Equal (result s) in
      match replayCalls W report.new (received r (calls s)) with
      | None => Panics "runtime error: index out of range"
      | Some rep =>
          let d := report.String rep in
          if negb (Bool.eqb (bool_decide (d = "")) eq)
          then Panics "inconsistent difference and equality results"
          else Returns d
      end
  | Panic msg => Panics msg
  | Exhausted => OutOfFuel
  end.

(** * reporter.go (src/unnamed/part_001): the reporter with budgets *)

Module reporter.
Record defaultReporter := {
    diffs : list string;     (* List of differences, possibly truncated *)
    ndiffs : Z;              (* Total number of differences *)
    nbytes : Z;              (* Number of bytes in diffs *)
    nlines : Z               (* Number of lines in diffs *)
  }.

Definition new : defaultReporter :=
    {| diffs := []; ndiffs := 0; nbytes := 0; nlines := 0 |}.

Definition maxBytes : Z := 4096.
Definition maxLines : Z := 256.

  Section Methods.
    (** [prettyPrint(v, useStringer)] and the [%#v] of a path: text
        rendering, left to the host. *)
    Variable prettyPrint : Value → bool → string.
    Variable GoString : Path → string.

    (** [fmt.Sprintf("%#v:\n\t-: %s\n\t+: %s\n", p, sx, sy)]. *)
Definition entry (p : Path) (sx sy : string) : string :=
      GoString p +:+ ":" +:+ nltab +:+ "-: " +:+ sx +:+ nltab +:+ "+: " +:+ sy +:+ nl.

Definition Report (x y : Value) (eq : bool) (p : Path) (r : defaultReporter)
      : defaultReporter :=
      if eq then r
      else
        let n := int_add (ndiffs r) 1 in
        if (nbytes r <? maxBytes) && (nlines r <? maxLines) then
          let sx := prettyPrint x true in
          let sy := prettyPrint y true in
          let exact := bool_decide (sx = sy) in
          let sx := if exact then prettyPrint x false else sx in
          let sy := if exact then prettyPrint y false else sy in
          let s := entry p sx sy in
          {| diffs := diffs r ++ [s]; ndiffs := n;
             nbytes := int_add (nbytes r) (Z.of_nat (String.length s));
             nlines := int_add (nlines r) (CountNewlines s) |}
        else
          {| diffs := diffs r; ndiffs := n; nbytes := nbytes r; nlines := nlines r |}.

Definition String (r : defaultReporter) : string :=
      let s := Join (diffs r) "" in
      if ndiffs r =? len (diffs r) then s
      else s +:+ "... " +:+ pretty (int_sub (len (diffs r)) (ndiffs r))
             +:+ " more differences ...".

    (** The reporter after a run of comparisons, each reported once. *)
Definition ReportAll (cs : list (Value * Value * bool * Path))
        (r : defaultReporter) : defaultReporter :=
      foldl (λ r c, Report c.1.1.1 c.1.1.2 c.1.2 c.2 r) r cs.
  End Methods.
End reporter.

(** * cycles.go (src/unnamed/part_002) *)

Module cycles_go.
  (** [type cycles struct { xDepth, yDepth map[uintptr]int }]. *)
Record cycles := { xDepth : gmap uintptr Z; yDepth : gmap uintptr Z }.

Definition init : cycles := {| xDepth := ∅; yDepth := ∅ |}.

  (** [compare]: a missing key reads as depth 0. *)
Definition compare (c : cycles) (xAddr yAddr : uintptr) : bool * bool :=
    let xd := xDepth c !! xAddr in
    let yd := yDepth c !! yAddr in
    (default 0 xd =? default 0 yd, bool_decide (is_Some xd) || bool_decide (is_Some yd)).

  (** [push]: the new tracker and the [pop] closure it returns. *)
Definition push (c : cycles) (xAddr yAddr : uintptr) : cycles * (cycles → cycles) :=
    let depth := int_add (Z.of_nat (size (xDepth c))) 1 in
    ({| xDepth := <[xAddr := depth]> (xDepth c);
        yDepth := <[yAddr := depth]> (yDepth c) |},
     λ c', {| xDepth := delete xAddr (xDepth c');
              yDepth := delete yAddr (yDepth c') |}).
End cycles_go.

(** * Properties *)

(** ** Small facts about the monad and the strings *)

Lemma sanitizeValue_id W v t : sanitizeValue W v t = v.
Proof. unfold sanitizeValue. destruct (AtLeastGo110 W), v as [| | | | | | | | | | | | | | | [e|]]; reflexivity. Qed.

Lemma append_assoc (a b c : string) : (a +:+ b) +:+ c = a +:+ (b +:+ c).
Proof.
  induction a as [|ch a IH]; [reflexivity |].
  change ((String ch a +:+ b) +:+ c) with (String ch ((a +:+ b) +:+ c)).
  change (String ch a +:+ b +:+ c) with (String ch (a +:+ b +:+ c)).
  by rewrite IH.
Qed.

Lemma append_empty_r (a : string) : a +:+ "" = a.
Proof.
  induction a as [|ch a IH]; [reflexivity |].
  change (String ch a +:+ "") with (String ch (a +:+ "")). by rewrite IH.
Qed.

Lemma Contains_here s pre post : Contains (pre +:+ s +:+ post) s.
Proof. by exists pre, post. Qed.

Lemma Contains_append_l s t u : Contains s u → Contains (s +:+ t) u.
Proof.
  intros (pre & post & ->). exists pre, (post +:+ t).
  by rewrite !append_assoc.
Qed.

Lemma Contains_append_r s t u : Contains t u → Contains (s +:+ t) u.
Proof.
  intros (pre & post & ->). exists (s +:+ pre), post.
  by rewrite !append_assoc.
Qed.

Lemma Contains_refl s : Contains s s.
Proof.
  exists "", "". change ("" +:+ s +:+ "") with (s +:+ ""). by rewrite append_empty_r.
Qed.

Lemma Join_Contains (l : list string) sep x : x ∈ l → Contains (Join l sep) x.
Proof.
  induction l as [|a l IH]; intros Hin; [by apply elem_of_nil in Hin |].
  apply elem_of_cons in Hin as [-> | Hin].
  - destruct l as [|b l]; [apply Contains_refl |].
    change (Join (a :: b :: l) sep) with (a +:+ sep +:+ Join (b :: l) sep).
    apply Contains_append_l, Contains_refl.
  - destruct l as [|b l]; [by apply elem_of_nil in Hin |].
    change (Join (a :: b :: l) sep) with (a +:+ sep +:+ Join (b :: l) sep).
    apply Contains_append_r, Contains_append_r, IH, Hin.
Qed.

(** An induction principle for [Option] that reaches under [Options]. *)
Section Option_induction.
  Variable P : Option → Prop.
  Hypothesis HNil : P Nil.
  Hypothesis HOptions : ∀ l, Forall P l → P (Options l).
  Hypothesis HpathFilter : ∀ f n o, P o → P (pathFilter f n o).
  Hypothesis HvaluesFilter : ∀ ty f o, P o → P (valuesFilter ty f o).
  Hypothesis Hignore : P ignore.
  Hypothesis Hinvalid : P invalid.
  Hypothesis Hvalidator : P validator.
  Hypothesis HTransformer : ∀ tr, P (Transformer tr).
  Hypothesis HComparer : ∀ cm, P (Comparer cm).
  Hypothesis HvisibleStructs : ∀ m, P (visibleStructs m).
  Hypothesis Hreporter : ∀ r, P (reporter r).
  Hypothesis Hembedded : ∀ n o, P o → P (embedded n o).

Fixpoint Option_nested_ind (o : Option) : P o :=
    match o with
    | Nil => HNil
    | Options l =>
        HOptions l
          ((fix each (l : list Option) : Forall P l :=
              match l with
              | [] => Forall_nil_2 P
              | a :: l' => Forall_cons_2 P a l' (Option_nested_ind a) (each l')
              end) l)
    | pathFilter f n o' => HpathFilter f n o' (Option_nested_ind o')
    | valuesFilter ty f o' => HvaluesFilter ty f o' (Option_nested_ind o')
    | ignore => Hignore
    | invalid => Hinvalid
    | validator => Hvalidator
    | Transformer tr => HTransformer tr
    | Comparer cm => HComparer cm
    | visibleStructs m => HvisibleStructs m
    | reporter r => Hreporter r
    | embedded n o' => Hembedded n o' (Option_nested_ind o')
    end.
End Option_induction.

(** ** options.go: a transformer is not applied upon itself *)

Definition isTransform (st : PathStep) : Prop :=
  ∃ ps tr, st = Transform ps tr.

Lemma inTransformTail_app tr (l r : list PathStep) :
  Forall isTransform l →
  (∃ ps tr', Transform ps tr' ∈ l ∧ tr_ptr tr' = tr_ptr tr) →
  inTransformTail tr (l ++ r) = true.
Proof.
  induction l as [|st l IH]; intros Hall (ps & tr' & Hin & Hptr).
  - by apply elem_of_nil in Hin.
  - apply Forall_cons in Hall as [(ps0 & tr0 & ->) Hall]. simpl.
    destruct (tr_ptr tr =? tr_ptr tr0) eqn:E; [reflexivity |].
    apply elem_of_cons in Hin as [Heq | Hin].
    + injection Heq as _ <-. rewrite Hptr, Z.eqb_refl in E. discriminate.
    + apply IH; eauto.
Qed.

(** C7: a Transformer whose pointer already stands in the run of Transform
    steps that ends the current path is not applicable: its filter returns
    nil, touching nothing, whatever the values and the type of the node. *)
Theorem transformer_filter_suppressed W (tr : transformer) (s : state)
    (vx vy : Value) (t : Type_) (pre tail : Path) :
  curPath s = pre ++ tail →
  Forall isTransform tail →
  (∃ ps tr', Transform ps tr' ∈ tail ∧ tr_ptr tr' = tr_ptr tr) →
  Option_filter W (Transformer tr) vx vy t s = Ret Nil s.
Proof.
  intros Hp Hall (ps & tr' & Hin & Hptr).
  simpl. unfold bind, gets. rewrite Hp, rev_app_distr.
  rewrite inTransformTail_app; [reflexivity | |].
  - apply Forall_forall. intros st Hst. apply list_elem_of_In, in_rev in Hst.
    rewrite Forall_forall in Hall. apply Hall, list_elem_of_In, Hst.
  - exists ps, tr'. split; [| exact Hptr].
    apply list_elem_of_In, in_rev. rewrite rev_involutive.
    by apply list_elem_of_In.
Qed.

(** ** options.go: what [Options.filter] resolves to *)

(** The set S of the doc comment of [Equal]: "all Ignore, Transformer, and
    Comparer options that remain after applying all path filters, value
    filters, and type filters", in the order of the option list, together
    with the sentinels met on the way. *)
Fixpoint remaining (W : World) (p : Path) (t : Type_) (vx vy : Value)
    (o : Option) : list Option :=
  match o with
  | Options l => flat_map (remaining W p t vx vy) l
  | pathFilter f _ o' => if f p then remaining W p t vx vy o' else []
  | valuesFilter ty f o' =>
      if unfilterable p vx vy then []
      else if typeMatches W ty t && call2 f vx vy then remaining W p t vx vy o'
      else []
  | ignore => [ignore]
  | invalid => [invalid]
  | validator =>
      if negb (rv.IsValid vx) || negb (rv.IsValid vy) || forbidden p
      then [validator] else []
  | Transformer tr =>
      if negb (inTransformTail tr (rev p)) && typeMatches W (tr_typ tr) t
      then [o] else []
  | Comparer cm => if typeMatches W (cm_typ cm) t then [o] else []
  | embedded _ o' => remaining W p t vx vy o'
  | _ => []
  end.

Definition isIgnore (o : Option) : bool :=
  match o with ignore => true | _ => false end.
Definition isSentinel (o : Option) : bool :=
  match o with invalid | validator => true | _ => false end.
Definition isCT (o : Option) : bool :=
  match o with Comparer _ | Transformer _ => true | _ => false end.

(** The options [processOption] and [normalizeOption] let through, with
    value filters that keep their contract: symmetric. *)
Fixpoint wellFormed (o : Option) : Prop :=
  match o with
  | Options l => foldr (λ a acc, wellFormed a ∧ acc) True l
  | pathFilter _ _ o' => wellFormed o'
  | valuesFilter _ f o' => (∀ x y, call2 f x y = call2 f y x) ∧ wellFormed o'
  | ignore | invalid | validator | Transformer _ | Comparer _ => True
  | Nil | visibleStructs _ | reporter _ | embedded _ _ => False
  end.

Lemma wellFormed_Options l : wellFormed (Options l) ↔ Forall wellFormed l.
Proof.
  simpl. induction l as [|a l IH]; simpl.
  - split; [constructor | done].
  - rewrite Forall_cons, IH. done.
Qed.

(** How [Options.filter] packs the comparers and transformers [S] that
    remain: nothing, the single one, or an [Options] that flattens to [S]. *)
Inductive merged : list Option → Option → Prop :=
| merged_nil : merged [] Nil
| merged_one c : isCT c = true → merged [c] c
| merged_many S l :
    (2 ≤ length S)%nat → flattenOptions [] l = inl S → merged S (Options l).

(** What the filter returns for a set [S]: Ignore wins, then a sentinel,
    then the comparers and transformers. *)
Definition resolved (S : list Option) (out : Option) : Prop :=
  if existsb isIgnore S then out = ignore
  else if existsb isSentinel S then isSentinel out = true
  else merged S out.

Lemma flattenOption_acc o :
  ∀ dst, flattenOption dst o =
         match flattenOption [] o with
         | inl x => inl (dst ++ x)
         | inr e => inr e
         end.
Proof.
  induction o as [| l IH | | | | | | | | | |] using Option_nested_ind; intros dst;
    simpl; rewrite ?app_nil_r; try reflexivity.
  revert dst. induction IH as [|a l Ha Hl IHl]; intros dst; simpl.
  - by rewrite app_nil_r.
  - rewrite (Ha dst). destruct (flattenOption [] a) as [x|e]; [| reflexivity].
    rewrite (IHl (dst ++ x)), (IHl x).
    destruct (flattenOptions_loop flattenOption [] l); [| reflexivity].
    by rewrite app_assoc.
Qed.

Lemma remaining_fundamental W p t vx vy o :
  Forall (λ c, isIgnore c || isSentinel c || isCT c = true) (remaining W p t vx vy o).
Proof.
  induction o as [| l IH | f n o IH | ty f o IH | | | | tr | cm | | | tn o IH]
    using Option_nested_ind; simpl; try by constructor.
  - induction IH as [|a l Ha Hl IHl]; simpl; [constructor |].
    apply Forall_app; split; assumption.
  - destruct (f p); [assumption | constructor].
  - destruct (unfilterable _ _ _); [constructor |].
    destruct (_ && _); [assumption | constructor].
  - destruct (_ || _); by repeat constructor.
  - destruct (_ && _); by repeat constructor.
  - destruct (typeMatches _ _ _); by repeat constructor.
  - assumption.
Qed.

Lemma set_dynChecker_same s : set_dynChecker (dynChecker_ s) s = s.
Proof. by destruct s. Qed.

Lemma set_dynChecker_twice dc dc' s :
  set_dynChecker dc (set_dynChecker dc' s) = set_dynChecker dc s.
Proof. reflexivity. Qed.

Lemma callTTBFunc_symmetric W f x y s :
  (∀ a b, call2 f a b = call2 f b a) →
  ∃ dc, callTTBFunc W f x y s = Ret (call2 f x y) (set_dynChecker dc s).
Proof.
  intros Hsym. unfold callTTBFunc, bind, Next. rewrite !sanitizeValue_id.
  destruct (dynChecker_Next (dynChecker_ s)) as [ok dc]. exists dc.
  destruct ok; simpl; [| reflexivity].
  rewrite (Hsym y x). by destruct (call2 f x y).
Qed.

Lemma merged_flatten S out : merged S out → flattenOption [] out = inl S.
Proof.
  destruct 1 as [| c Hc | S l _ Hl]; [reflexivity | | exact Hl].
  by destruct c.
Qed.

Lemma merged_join S0 S1 out r :
  merged S0 out → merged S1 r → S0 ≠ [] → S1 ≠ [] →
  merged (S0 ++ S1) (Options [out; r]).
Proof.
  intros H0 H1 Hne0 Hne1. apply merged_many.
  - rewrite length_app. destruct S0, S1; simpl; try done; lia.
  - unfold flattenOptions. simpl.
    rewrite (merged_flatten _ _ H0), (flattenOption_acc r), (merged_flatten _ _ H1).
    reflexivity.
Qed.

(** The result [Options.filter] keeps when an element resolves to [r], a
    comparer, a transformer or a set of them. *)
Definition mergeOut (out r : Option) : Option :=
  match out with
  | Nil => r
  | invalid | validator => out
  | Comparer _ | Transformer _ | Options _ => Options [out; r]
  | _ => out
  end.

(** The specification of one element's filter, as the loop assumes it. *)
Definition filter_ok (W : World) (vx vy : Value) (t : Type_) (o : Option) : Prop :=
  ∀ s, ∃ out dc,
    Option_filter W o vx vy t s = Ret out (set_dynChecker dc s)
    ∧ resolved (remaining W (curPath s) t vx vy o) out.

Lemma Options_filter_loop_spec W vx vy t l :
  Forall (filter_ok W vx vy t) l →
  ∀ S0 out0 s,
    existsb isIgnore S0 = false →
    resolved S0 out0 →
    ∃ out dc,
      Options_filter_loop (λ o, Option_filter W o vx vy t) l out0 s
      = Ret out (set_dynChecker dc s)
      ∧ resolved (S0 ++ flat_map (remaining W (curPath s) t vx vy) l) out.
Proof.
  induction 1 as [|o l Ho Hl IH]; intros S0 out0 s Hign Hacc.
  - exists out0, (dynChecker_ s). simpl. rewrite app_nil_r, set_dynChecker_same.
    by split.
  - simpl. unfold bind. destruct (Ho s) as (r & dc & -> & Hr).
    set (S1 := remaining W (curPath s) t vx vy o) in *.
    assert (Hfund := remaining_fundamental W (curPath s) t vx vy o). fold S1 in Hfund.
    rewrite app_assoc.
    assert (Hnext : ∀ out1, existsb isIgnore S1 = false → resolved (S0 ++ S1) out1 →
      ∃ out dc0,
        Options_filter_loop (λ o, Option_filter W o vx vy t) l out1 (set_dynChecker dc s)
        = Ret out (set_dynChecker dc0 s)
        ∧ resolved ((S0 ++ S1) ++ flat_map (remaining W (curPath s) t vx vy) l) out).
    { intros out1 Hi1 Hres.
      destruct (IH (S0 ++ S1) out1 (set_dynChecker dc s)) as (out & dc0 & Heq & Hfin);
        [by rewrite existsb_app, Hign, Hi1 | exact Hres |].
      exists out, dc0. by rewrite Heq. }
    unfold resolved in Hr. destruct (existsb isIgnore S1) eqn:Hi1.
    { subst r. exists ignore, dc. split; [reflexivity |].
      unfold resolved. by rewrite !existsb_app, Hi1, orb_true_r. }
    assert (Hkeep : r = Nil → S1 = [] → ∃ out dc0,
      Options_filter_loop (λ o, Option_filter W o vx vy t) l out0 (set_dynChecker dc s)
      = Ret out (set_dynChecker dc0 s)
      ∧ resolved ((S0 ++ S1) ++ flat_map (remaining W (curPath s) t vx vy) l) out).
    { intros _ HS1. apply Hnext; [done |]. by rewrite HS1, app_nil_r. }
    destruct (existsb isSentinel S1) eqn:Hs1.
    { assert (resolved (S0 ++ S1) r) as Hres.
      { unfold resolved. by rewrite !existsb_app, Hign, Hi1, Hs1, orb_true_r. }
      destruct r; try discriminate Hr; by apply Hnext. }
    (* no Ignore, no sentinel: [r] packs the comparers and transformers *)
    assert (Hmerge : S1 ≠ [] → resolved (S0 ++ S1) (mergeOut out0 r)).
    { intros Hne.
      unfold resolved in *. rewrite !existsb_app, Hign, Hi1, Hs1. simpl.
      rewrite Hign in Hacc. rewrite orb_false_r.
      destruct (existsb isSentinel S0) eqn:Hs0.
      - by destruct out0.
      - destruct Hacc as [| c Hc | S l' Hlen Hl'].
        + exact Hr.
        + destruct c; try discriminate Hc;
            (apply merged_join; [by apply merged_one | exact Hr | done | exact Hne]).
        + apply merged_join; [by apply merged_many | exact Hr | | exact Hne].
          intros ->. simpl in Hlen. lia. }
    destruct Hr as [| c Hc | S l' Hlen Hl'].
    + by apply Hkeep.
    + destruct (Hnext (mergeOut out0 c)) as (out & dc0 & Heq & Hfin);
        [done | by apply Hmerge |].
      exists out, dc0. split; [| exact Hfin]. rewrite <- Heq.
      destruct c; try discriminate Hc; by destruct out0.
    + destruct (Hnext (mergeOut out0 (Options l'))) as (out & dc0 & Heq & Hfin);
        [done | apply Hmerge; intros ->; simpl in Hlen; lia |].
      exists out, dc0. split; [| exact Hfin]. rewrite <- Heq.
      by destruct out0.
Qed.

(** [Options.filter] and the filters under it return, having changed the
    dynamic checker only, and what they return is what the set S resolves
    to. *)
Lemma Option_filter_spec W vx vy t o :
  wellFormed o → filter_ok W vx vy t o.
Proof.
  induction o as [| l IH | f n o IH | ty f o IH | | | | tr | cm | | | tn o IH]
    using Option_nested_ind; intros Hwf s; try (by destruct Hwf).
  - (* Options *)
    apply wellFormed_Options in Hwf.
    assert (Forall (filter_ok W vx vy t) l) as Hall.
    { clear s. induction IH as [|a l Ha Hl IHl]; [constructor |].
      apply Forall_cons in Hwf as [Hwa Hwl]. constructor; auto. }
    destruct (Options_filter_loop_spec W vx vy t l Hall [] Nil s) as (out & dc & Heq & Hres);
      [reflexivity | constructor |].
    exists out, dc. split; [exact Heq | exact Hres].
  - (* pathFilter *)
    simpl. unfold bind, gets. destruct (f (curPath s)).
    + apply IH, Hwf.
    + exists Nil, (dynChecker_ s). rewrite set_dynChecker_same. split; [reflexivity | constructor].
  - (* valuesFilter *)
    destruct Hwf as [Hsym Hwf]. simpl. unfold bind at 1. unfold gets at 1.
    destruct (unfilterable (curPath s) vx vy).
    { exists Nil, (dynChecker_ s). rewrite set_dynChecker_same. split; [reflexivity | constructor]. }
    destruct (typeMatches W ty t); simpl.
    + unfold bind. destruct (callTTBFunc_symmetric W f vx vy s Hsym) as (dc & ->).
      destruct (call2 f vx vy).
      * destruct (IH Hwf (set_dynChecker dc s)) as (out & dc' & Heq & Hres).
        exists out, dc'. split; [exact Heq | exact Hres].
      * exists Nil, dc. split; [reflexivity | constructor].
    + exists Nil, (dynChecker_ s). rewrite set_dynChecker_same. split; [reflexivity | constructor].
  - exists ignore, (dynChecker_ s). rewrite set_dynChecker_same. by split.
  - exists invalid, (dynChecker_ s). rewrite set_dynChecker_same. by split.
  - (* validator *)
    simpl. unfold validator_filter, bind, gets.
    destruct (negb (rv.IsValid vx) || negb (rv.IsValid vy)); simpl.
    { exists validator, (dynChecker_ s). rewrite set_dynChecker_same. by split. }
    destruct (forbidden (curPath s)).
    + exists validator, (dynChecker_ s). rewrite set_dynChecker_same. by split.
    + exists Nil, (dynChecker_ s). rewrite set_dynChecker_same. split; [reflexivity | constructor].
  - (* Transformer *)
    simpl. unfold bind, gets. destruct (inTransformTail tr (rev (curPath s))); simpl.
    { exists Nil, (dynChecker_ s). rewrite set_dynChecker_same. split; [reflexivity | constructor]. }
    destruct (typeMatches W (tr_typ tr) t).
    + exists (Transformer tr), (dynChecker_ s). rewrite set_dynChecker_same.
      split; [reflexivity | by apply merged_one].
    + exists Nil, (dynChecker_ s). rewrite set_dynChecker_same. split; [reflexivity | constructor].
  - (* Comparer *)
    simpl. destruct (typeMatches W (cm_typ cm) t).
    + exists (Comparer cm), (dynChecker_ s). rewrite set_dynChecker_same.
      split; [reflexivity | by apply merged_one].
    + exists Nil, (dynChecker_ s). rewrite set_dynChecker_same. split; [reflexivity | constructor].
Qed.

(** ** options.go: Ignore short-circuits; ambiguity is fatal *)

(** The amended C3: with options as the constructors of the package build
    them, whose value filters are symmetric, when an applicable option
    resolves to Ignore, [tryOptions] returns true, so [compareAny] returns
    without descending ([rec] is never called: the outcome is the same for
    every [rec]); the tally and the path are untouched, every reporter is
    told the node is ignored, and nothing of the other options shows in the
    state but the count of the dynamic checker.  Without the symmetry the
    claim fails, as the worked inputs show. *)
Theorem ignore_short_circuits W (rec : PathStep → M unit) (s : state)
    (t : Type_) (vx vy : Value) :
  wellFormed (Options (opts s)) →
  ignore ∈ remaining W (curPath s) t vx vy (Options (opts s)) →
  ∃ dc,
    tryOptions W rec t vx vy s
    = Ret true
        (set_calls (calls s ++ ((λ r, (r, CallReport reportIgnored)) <$> reporters s))
           (set_dynChecker dc s)).
Proof.
  intros Hwf Hin.
  destruct (Option_filter_spec W vx vy t _ Hwf s) as (out & dc & Heq & Hres).
  unfold resolved in Hres.
  assert (existsb isIgnore (remaining W (curPath s) t vx vy (Options (opts s))) = true) as Hex.
  { apply existsb_exists. exists ignore. split; [by apply list_elem_of_In | reflexivity]. }
  rewrite Hex in Hres. subst out. exists dc.
  unfold tryOptions, Options_filter, bind, gets. rewrite Heq. reflexivity.
Qed.

(** The amended C2: with options as the constructors of the package build
    them, whose value filters are symmetric, when no applicable option
    resolves to Ignore, the node is not one the validator takes (a value
    missing on one side, a field that may not be read; [invalid] is the
    sentinel of options.go for the same), and two or more comparers and
    transformers remain, the comparison panics; the message names the
    ambiguity, the current path and every one of the conflicting options.
    Each of the three provisos is needed, as the worked inputs show. *)
Theorem ambiguity_is_fatal W (rec : PathStep → M unit) (s : state)
    (t : Type_) (vx vy : Value) :
  wellFormed (Options (opts s)) →
  existsb isIgnore (remaining W (curPath s) t vx vy (Options (opts s))) = false →
  existsb isSentinel (remaining W (curPath s) t vx vy (Options (opts s))) = false →
  (2 ≤ length (remaining W (curPath s) t vx vy (Options (opts s))))%nat →
  ∃ msg,
    tryOptions W rec t vx vy s = Panic msg
    ∧ Contains msg "ambiguous set of applicable options"
    ∧ Contains msg (GoString W (curPath s))
    ∧ ∀ o, o ∈ remaining W (curPath s) t vx vy (Options (opts s)) →
           Contains msg (Sprint o).
Proof.
  intros Hwf Hign Hsen Hlen.
  destruct (Option_filter_spec W vx vy t _ Hwf s) as (out & dc & Heq & Hres).
  unfold resolved in Hres. rewrite Hign, Hsen in Hres.
  set (S := remaining W (curPath s) t vx vy (Options (opts s))) in *.
  destruct Hres as [| c Hc | S l _ Hl]; [simpl in Hlen; lia | simpl in Hlen; lia |].
  eexists. unfold tryOptions, Options_filter, bind, gets. rewrite Heq.
  simpl. unfold Options_apply, bind, gets. simpl. rewrite Hl.
  split; [reflexivity |]. split; [| split].
  - apply Contains_append_l, Contains_refl.
  - apply Contains_append_r, Contains_append_r, Contains_append_l, Contains_refl.
  - intros o Ho. do 5 apply Contains_append_r. apply Contains_append_l.
    apply Join_Contains. apply list_elem_of_fmap. by exists o.
Qed.

(** ** The frame of a walker

    What every method of the engine leaves as it found it when it returns:
    the path (each push has its pop), the reporter list, the options and the
    visibility grants; and, when no reporter is attached, the reporters'
    memory. *)
Record frame (s s' : state) : Prop := {
  frame_path : curPath s' = curPath s;
  frame_reporters : reporters s' = reporters s;
  frame_opts : opts s' = opts s;
  frame_exporters : exporters s' = exporters s;
  frame_quiet : reporters s = [] → calls s' = calls s
}.

Lemma frame_refl s : frame s s.
Proof. by split. Qed.

Lemma frame_trans s1 s2 s3 : frame s1 s2 → frame s2 s3 → frame s1 s3.
Proof.
  intros [Hp1 Hr1 Ho1 He1 Hq1] [Hp2 Hr2 Ho2 He2 Hq2]. split; try congruence.
  intros H. rewrite Hq2, Hq1; congruence.
Qed.

Definition framed {A} (m : M A) : Prop :=
  ∀ s, match m s with Ret _ s' => frame s s' | _ => True end.

Lemma framed_ret {A} (a : A) : framed (ret a).
Proof. intros s. apply frame_refl. Qed.

Lemma framed_panic {A} msg : framed (@panic A msg).
Proof. by intros s. Qed.

Lemma framed_exhausted {A} : framed (@exhausted A).
Proof. by intros s. Qed.

Lemma framed_bind {A B} (m : M A) (k : A → M B) :
  framed m → (∀ a, framed (k a)) → framed (bind m k).
Proof.
  intros Hm Hk s. unfold bind. specialize (Hm s).
  destruct (m s) as [a s1| |]; [| done | done].
  specialize (Hk a s1). destruct (k a s1); [| done | done].
  by eapply frame_trans.
Qed.

Lemma framed_gets {A} (f : state → A) : framed (gets f).
Proof. intros s. apply frame_refl. Qed.

Lemma framed_get : framed get.
Proof. intros s. apply frame_refl. Qed.

Lemma framed_must {A} (o : option A) what : framed (must o what).
Proof. destruct o; [apply framed_ret | apply framed_panic]. Qed.

Lemma framed_set_result r : framed (modify (set_result r)).
Proof. intros s. by split. Qed.

Lemma framed_Next : framed Next.
Proof. intros s. unfold Next. destruct (dynChecker_Next _). by split. Qed.

Lemma framed_Check p : framed (Check p).
Proof.
  intros s. unfold Check.
  destruct (len p <? _); [by split |]. destruct (0 <? _); [done | by split].
Qed.

Lemma framed_report eq rf : framed (report eq rf).
Proof.
  intros s. unfold report, bind, gets, emit, modify, ret.
  destruct (Z.land rf reportIgnored =? 0); [destruct eq |]; simpl;
    (split; simpl; try reflexivity; intros ->; by rewrite app_nil_r).
Qed.

Lemma framed_callTTBFunc W f x y : framed (callTTBFunc W f x y).
Proof.
  unfold callTTBFunc. apply framed_bind; [apply framed_Next | intros ok].
  destruct ok; simpl; [| apply framed_ret].
  destruct (negb _); [apply framed_panic | apply framed_ret].
Qed.

Ltac framed_step :=
  lazymatch goal with
  | |- framed (bind _ _) => apply framed_bind; [| intros ?]
  | |- framed (ret _) => apply framed_ret
  | |- framed (panic _) => apply framed_panic
  | |- framed indexOutOfRange => apply framed_panic
  | |- framed exhausted => apply framed_exhausted
  | |- framed (gets _) => apply framed_gets
  | |- framed get => apply framed_get
  | |- framed (must _ _) => apply framed_must
  | |- framed (report _ _) => apply framed_report
  | |- framed Next => apply framed_Next
  | |- framed (Check _) => apply framed_Check
  | |- framed (callTTBFunc _ _ _ _) => apply framed_callTTBFunc
  | |- framed (if ?b then _ else _) => destruct b
  | |- framed (match ?x with _ => _ end) => destruct x
  | |- framed (let _ := _ in _) => cbv zeta
  end.
Ltac framed_auto := repeat framed_step; try (by eauto).

Lemma framed_Options_filter_loop flt l :
  (∀ o, o ∈ l → framed (flt o)) → ∀ out, framed (Options_filter_loop flt l out).
Proof.
  induction l as [|o l IH]; intros Hflt out; simpl; [apply framed_ret |].
  assert (∀ out', framed (Options_filter_loop flt l out')) as IH'.
  { apply IH. intros o' Ho'. apply Hflt. by right. }
  apply framed_bind; [apply Hflt; by left | intros r].
  destruct r; try apply IH'; try apply framed_ret; destruct out; apply IH'.
Qed.

Lemma framed_Option_filter W o vx vy t : framed (Option_filter W o vx vy t).
Proof.
  induction o as [| l IH | f n o IH | ty f o IH | | | | tr | cm | | | tn o IH]
    using Option_nested_ind; simpl; try (by framed_auto).
  - apply framed_Options_filter_loop. intros o Ho.
    rewrite Forall_forall in IH. by apply IH.
  - unfold validator_filter. framed_auto.
Qed.

Lemma statelessCompare_unfold rec step s :
  statelessCompare rec step s =
  match rec step (set_reporters [] (set_result diff.zero s)) with
  | Ret _ s' =>
      Ret (result s') (set_reporters (reporters s) (set_result (result s) s'))
  | Panic msg => Panic msg
  | Exhausted => Exhausted
  end.
Proof.
  unfold statelessCompare, bind, get, gets, modify, ret. simpl.
  by destruct (rec step _).
Qed.

Section Walkers_framed.
  Context (W : World) (rec : PathStep → M unit).
  Hypothesis Hrec : ∀ step, framed (rec step).

Lemma framed_statelessCompare step : framed (statelessCompare rec step).
  Proof.
    intros s. rewrite statelessCompare_unfold.
    specialize (Hrec step (set_reporters [] (set_result diff.zero s))).
    destruct (rec step _) as [a s'| |]; [| done | done].
    destruct Hrec as [Hp Hr Ho He Hq]. simpl in *. split; simpl; auto.
  Qed.

Lemma framed_callTRFunc f v t tr : framed (callTRFunc W rec f v t tr).
  Proof.
    unfold callTRFunc. pose proof framed_statelessCompare. framed_auto.
  Qed.

Lemma framed_Option_apply o vx vy : framed (Option_apply W rec o vx vy).
  Proof.
    pose proof framed_callTRFunc.
    destruct o; simpl; try apply framed_panic.
    - unfold Options_apply. framed_auto.
    - framed_auto.
    - unfold invalid_apply. framed_auto.
    - unfold validator_apply, invalid_apply. framed_auto.
    - unfold transformer_apply. framed_auto.
    - unfold comparer_apply. framed_auto.
  Qed.

Lemma framed_tryOptions t vx vy : framed (tryOptions W rec t vx vy).
  Proof.
    unfold tryOptions, Options_filter.
    pose proof framed_Option_apply. pose proof (framed_Option_filter W).
    apply framed_bind; [framed_auto | intros os].
    apply framed_bind; [auto | intros opt].
    destruct opt; framed_auto.
  Qed.

Lemma framed_tryMethod t vx vy : framed (tryMethod W t vx vy).
  Proof. unfold tryMethod. framed_auto. Qed.

Lemma framed_compareStruct_loop t vx vy fs :
    ∀ i mf, framed (compareStruct_loop W rec t vx vy fs i mf).
  Proof.
    induction fs as [|f fs IH]; intros i mf; simpl; framed_auto.
  Qed.

Lemma framed_withIndexes te vx vy ix iy : framed (withIndexes te vx vy ix iy).
  Proof. unfold withIndexes. framed_auto. Qed.

Lemma framed_scanIgnored mk idxs :
    (∀ i, framed (mk i)) → framed (scanIgnored rec mk idxs).
  Proof.
    intros Hmk. pose proof framed_statelessCompare.
    induction idxs as [|i idxs IH]; simpl; framed_auto.
  Qed.

Lemma framed_runPlan f p : (∀ ix iy, framed (f ix iy)) → framed (runPlan f p).
  Proof. intros Hf. induction p as [es | ix iy k IH]; simpl; framed_auto. Qed.

Lemma framed_replay te vx vy lx ly ignoredX ignoredY n :
    ∀ ix iy edits, framed (replay rec te vx vy lx ly ignoredX ignoredY n ix iy edits).
  Proof.
    pose proof framed_withIndexes.
    induction n as [|n IH]; intros ix iy edits; simpl.
    - framed_auto.
    - destruct (_ || _); [| apply framed_ret].
      apply framed_bind; [framed_auto | intros ee].
      destruct (ee.1); framed_auto.
  Qed.

Lemma framed_compareSlice t vx vy : framed (compareSlice W rec t vx vy).
  Proof.
    unfold compareSlice. cbv zeta.
    pose proof framed_withIndexes. pose proof framed_statelessCompare.
    pose proof framed_replay.
    apply framed_bind; [framed_auto | intros lx].
    apply framed_bind; [framed_auto | intros ly].
    apply framed_bind; [apply framed_scanIgnored; auto | intros sx].
    apply framed_bind; [apply framed_scanIgnored; auto | intros sy].
    apply framed_bind; [| auto].
    apply framed_runPlan. intros ix iy. framed_auto.
  Qed.

Lemma framed_compareMap_loop t vx vy ks : framed (compareMap_loop W rec t vx vy ks).
  Proof. induction ks as [|k ks IH]; simpl; framed_auto. Qed.

Lemma framed_compareMap t vx vy : framed (compareMap W rec t vx vy).
  Proof.
    unfold compareMap. pose proof framed_compareMap_loop. framed_auto.
  Qed.

Lemma framed_compareKind t vx vy : framed (compareKind W rec t vx vy).
  Proof.
    unfold compareKind, compareStruct.
    pose proof framed_compareStruct_loop. pose proof framed_compareSlice.
    pose proof framed_compareMap.
    destruct (Kind W t); framed_auto.
  Qed.

Lemma framed_compareAny_body step : framed (compareAny_body W rec step).
  Proof.
    intros s. unfold compareAny_body.
    set (inner := bind (tryOptions W rec _ _ _) _).
    assert (framed inner) as Hinner.
    { subst inner. pose proof framed_tryOptions. pose proof framed_tryMethod.
      pose proof framed_compareKind. framed_auto. }
    unfold bind at 1 2 3 4 5 6 7. unfold modify, gets, emit. simpl.
    match goal with |- context [Check ?p ?s0] =>
      pose proof (framed_Check p s0) as HC; destruct (Check p s0) as [[] s1| |] end;
      [| done | done].
    specialize (Hinner s1). destruct (inner s1) as [[] s2| |]; [| done | done].
    simpl. destruct HC as [Hp1 Hr1 Ho1 He1 Hq1], Hinner as [Hp2 Hr2 Ho2 He2 Hq2].
    simpl in *. split; simpl; try congruence.
    - rewrite Hp2, Hp1. apply pop_push.
    - intros Hnil. rewrite Hnil in *. simpl in *.
      rewrite app_nil_r, Hq2, Hq1 by congruence. by rewrite app_nil_r.
  Qed.
End Walkers_framed.

(** The path discipline and the rest of the frame, for the engine itself. *)
Lemma framed_compareAny W fuel : ∀ step, framed (compareAny W fuel step).
Proof.
  induction fuel as [|fuel IH]; intros step; simpl.
  - apply framed_exhausted.
  - by apply framed_compareAny_body.
Qed.

(** ** The reporters are listeners

    Two states that differ in the reporter list and in the reporters' memory
    only are [same]; every walker takes [same] states to [same] states, with
    the same value returned or the same panic. *)
Definition same (s1 s2 : state) : Prop :=
  result s1 = result s2 ∧ curPath s1 = curPath s2
  ∧ recChecker_ s1 = recChecker_ s2 ∧ dynChecker_ s1 = dynChecker_ s2
  ∧ exporters s1 = exporters s2 ∧ opts s1 = opts s2.

Definition osame {A} (o1 o2 : outcome A) : Prop :=
  match o1, o2 with
  | Ret a1 s1, Ret a2 s2 => a1 = a2 ∧ same s1 s2
  | Panic m1, Panic m2 => m1 = m2
  | Exhausted, Exhausted => True
  | _, _ => False
  end.

Definition resp {A} (m1 m2 : M A) : Prop :=
  ∀ s1 s2, same s1 s2 → osame (m1 s1) (m2 s2).

Definition insens {A} (m : M A) : Prop := resp m m.

Lemma same_refl s : same s s.
Proof. by repeat split. Qed.

Lemma resp_bind {A B} (m1 m2 : M A) (k1 k2 : A → M B) :
  resp m1 m2 → (∀ a, resp (k1 a) (k2 a)) → resp (bind m1 k1) (bind m2 k2).
Proof.
  intros Hm Hk s1 s2 Hs. unfold bind. specialize (Hm s1 s2 Hs).
  destruct (m1 s1) as [a1 t1| |], (m2 s2) as [a2 t2| |]; simpl in Hm; try done.
  destruct Hm as [-> Ht]. by apply Hk.
Qed.

Lemma insens_bind {A B} (m : M A) (k : A → M B) :
  insens m → (∀ a, insens (k a)) → insens (bind m k).
Proof. apply resp_bind. Qed.

Lemma insens_ret {A} (a : A) : insens (ret a).
Proof. by intros s1 s2 Hs. Qed.

Lemma insens_panic {A} msg : insens (@panic A msg).
Proof. by intros s1 s2 Hs. Qed.

Lemma insens_exhausted {A} : insens (@exhausted A).
Proof. by intros s1 s2 Hs. Qed.

Lemma insens_must {A} (o : option A) what : insens (must o what).
Proof. destruct o; [apply insens_ret | apply insens_panic]. Qed.

Lemma insens_gets {A} (f : state → A) :
  (∀ s1 s2, same s1 s2 → f s1 = f s2) → insens (gets f).
Proof. intros Hf s1 s2 Hs. split; [by apply Hf | exact Hs]. Qed.

Lemma insens_gets_curPath : insens (gets curPath).
Proof. apply insens_gets. by intros s1 s2 (?&?&?&?&?&?). Qed.

Lemma insens_gets_opts : insens (gets opts).
Proof. apply insens_gets. by intros s1 s2 (?&?&?&?&?&?). Qed.

Lemma insens_gets_exporters : insens (gets exporters).
Proof. apply insens_gets. by intros s1 s2 (?&?&?&?&?&?). Qed.

Lemma resp_emit rs1 rs2 e1 e2 : resp (emit rs1 e1) (emit rs2 e2).
Proof. intros s1 s2 Hs. by split. Qed.

(** Reading the reporter list is the one place where the two runs see
    different values; what is done with the list must not tell. *)
Lemma resp_gets_reporters {B} (k1 k2 : list reporterOption → M B) :
  (∀ rs1 rs2, resp (k1 rs1) (k2 rs2)) →
  resp (bind (gets reporters) k1) (bind (gets reporters) k2).
Proof. intros Hk s1 s2 Hs. unfold bind, gets. by apply Hk. Qed.

Lemma insens_Next : insens Next.
Proof.
  intros s1 s2 (?&?&?&Hd&?&?). unfold Next. rewrite Hd.
  destruct (dynChecker_Next _). by repeat split.
Qed.

Lemma insens_Check p : insens (Check p).
Proof.
  intros s1 s2 (?&?&Hr&?&?&?). unfold Check. rewrite Hr.
  destruct (len p <? _); [by repeat split |].
  destruct (0 <? _); [done | by repeat split].
Qed.

Lemma insens_report eq rf : insens (report eq rf).
Proof.
  unfold report. apply resp_bind.
  - destruct (Z.land rf reportIgnored =? 0); [destruct eq |]; try apply insens_ret;
      (apply insens_bind; [| intros; apply insens_ret]);
      intros s1 s2 (Hr&?&?&?&?&?); unfold modify; simpl; rewrite Hr; by repeat split.
  - intros rf'. apply resp_gets_reporters. intros rs1 rs2. apply resp_emit.
Qed.

Lemma insens_callTTBFunc W f x y : insens (callTTBFunc W f x y).
Proof.
  unfold callTTBFunc. apply insens_bind; [apply insens_Next | intros ok].
  destruct ok; simpl; [| apply insens_ret].
  destruct (negb _); [apply insens_panic | apply insens_ret].
Qed.

Ltac insens_step :=
  lazymatch goal with
  | |- insens (bind _ _) => apply insens_bind; [| intros ?]
  | |- insens (ret _) => apply insens_ret
  | |- insens (panic _) => apply insens_panic
  | |- insens indexOutOfRange => apply insens_panic
  | |- insens exhausted => apply insens_exhausted
  | |- insens (gets curPath) => apply insens_gets_curPath
  | |- insens (gets opts) => apply insens_gets_opts
  | |- insens (gets exporters) => apply insens_gets_exporters
  | |- insens (must _ _) => apply insens_must
  | |- insens (report _ _) => apply insens_report
  | |- insens Next => apply insens_Next
  | |- insens (Check _) => apply insens_Check
  | |- insens (callTTBFunc _ _ _ _) => apply insens_callTTBFunc
  | |- insens (if ?b then _ else _) => destruct b
  | |- insens (match ?x with _ => _ end) => destruct x
  | |- insens (let _ := _ in _) => cbv zeta
  end.
Ltac insens_auto := repeat insens_step; try (by eauto).

Lemma insens_Options_filter_loop flt l :
  (∀ o, o ∈ l → insens (flt o)) → ∀ out, insens (Options_filter_loop flt l out).
Proof.
  induction l as [|o l IH]; intros Hflt out; simpl; [apply insens_ret |].
  assert (∀ out', insens (Options_filter_loop flt l out')) as IH'.
  { apply IH. intros o' Ho'. apply Hflt. by right. }
  apply insens_bind; [apply Hflt; by left | intros r].
  destruct r; try apply IH'; try apply insens_ret; destruct out; apply IH'.
Qed.

Lemma insens_Option_filter W o vx vy t : insens (Option_filter W o vx vy t).
Proof.
  induction o as [| l IH | f n o IH | ty f o IH | | | | tr | cm | | | tn o IH]
    using Option_nested_ind; simpl; try (by insens_auto).
  - apply insens_Options_filter_loop. intros o Ho.
    rewrite Forall_forall in IH. by apply IH.
  - unfold validator_filter. insens_auto.
Qed.

Section Walkers_insens.
  Context (W : World) (rec : PathStep → M unit).
  Hypothesis Hrec : ∀ step, insens (rec step).

Lemma insens_statelessCompare step : insens (statelessCompare rec step).
Proof.
  intros s1 s2 Hs. rewrite !statelessCompare_unfold.
  assert (same (set_reporters [] (set_result diff.zero s1))
               (set_reporters [] (set_result diff.zero s2))) as Hs0.
  { destruct Hs as (?&?&?&?&?&?). by repeat split. }
  specialize (Hrec step _ _ Hs0).
  destruct (rec step (set_reporters [] (set_result diff.zero s1))) as [a1 t1| |],
           (rec step (set_reporters [] (set_result diff.zero s2))) as [a2 t2| |];
    simpl in *; try done.
  destruct Hrec as (_ & Hr & ? & ? & ? & ? & ?), Hs as (Hres & _).
  by repeat split.
Qed.

Lemma insens_callTRFunc f v t tr : insens (callTRFunc W rec f v t tr).
Proof. unfold callTRFunc. pose proof insens_statelessCompare. insens_auto. Qed.

Lemma insens_Option_apply o vx vy : insens (Option_apply W rec o vx vy).
Proof.
  pose proof insens_callTRFunc.
  destruct o; simpl; try apply insens_panic.
  - unfold Options_apply. insens_auto.
  - insens_auto.
  - unfold invalid_apply. insens_auto.
  - unfold validator_apply, invalid_apply. insens_auto.
  - unfold transformer_apply. insens_auto.
  - unfold comparer_apply. insens_auto.
Qed.

Lemma insens_tryOptions t vx vy : insens (tryOptions W rec t vx vy).
Proof.
  unfold tryOptions, Options_filter.
  pose proof insens_Option_apply. pose proof (insens_Option_filter W).
  apply insens_bind; [insens_auto | intros os].
  apply insens_bind; [auto | intros opt].
  destruct opt; insens_auto.
Qed.

Lemma insens_tryMethod t vx vy : insens (tryMethod W t vx vy).
Proof. unfold tryMethod. insens_auto. Qed.

Lemma insens_compareStruct_loop t vx vy fs :
  ∀ i mf, insens (compareStruct_loop W rec t vx vy fs i mf).
Proof. induction fs as [|f fs IH]; intros i mf; simpl; insens_auto. Qed.

Lemma insens_withIndexes te vx vy ix iy : insens (withIndexes te vx vy ix iy).
Proof. unfold withIndexes. insens_auto. Qed.

Lemma insens_scanIgnored mk idxs :
  (∀ i, insens (mk i)) → insens (scanIgnored rec mk idxs).
Proof.
  intros Hmk. pose proof insens_statelessCompare.
  induction idxs as [|i idxs IH]; simpl; insens_auto.
Qed.

Lemma insens_runPlan f p : (∀ ix iy, insens (f ix iy)) → insens (runPlan f p).
Proof. intros Hf. induction p as [es | ix iy k IH]; simpl; insens_auto. Qed.

Lemma insens_replay te vx vy lx ly ignoredX ignoredY n :
  ∀ ix iy edits, insens (replay rec te vx vy lx ly ignoredX ignoredY n ix iy edits).
Proof.
  pose proof insens_withIndexes.
  induction n as [|n IH]; intros ix iy edits; simpl.
  - insens_auto.
  - destruct (_ || _); [| apply insens_ret].
    apply insens_bind; [insens_auto | intros ee].
    destruct (ee.1); insens_auto.
Qed.

Lemma insens_compareSlice t vx vy : insens (compareSlice W rec t vx vy).
Proof.
  unfold compareSlice. cbv zeta.
  pose proof insens_withIndexes. pose proof insens_statelessCompare.
  pose proof insens_replay.
  apply insens_bind; [insens_auto | intros lx].
  apply insens_bind; [insens_auto | intros ly].
  apply insens_bind; [apply insens_scanIgnored; auto | intros sx].
  apply insens_bind; [apply insens_scanIgnored; auto | intros sy].
  apply insens_bind; [| auto].
  apply insens_runPlan. intros ix iy. insens_auto.
Qed.

Lemma insens_compareMap_loop t vx vy ks : insens (compareMap_loop W rec t vx vy ks).
Proof. induction ks as [|k ks IH]; simpl; insens_auto. Qed.

Lemma insens_compareMap t vx vy : insens (compareMap W rec t vx vy).
Proof. unfold compareMap. pose proof insens_compareMap_loop. insens_auto. Qed.

Lemma insens_compareKind t vx vy : insens (compareKind W rec t vx vy).
Proof.
  unfold compareKind, compareStruct.
  pose proof insens_compareStruct_loop. pose proof insens_compareSlice.
  pose proof insens_compareMap.
  destruct (Kind W t); insens_auto.
Qed.

Lemma insens_compareAny_body step : insens (compareAny_body W rec step).
Proof.
  unfold compareAny_body.
  apply insens_bind.
  { intros s1 s2 (?&Hp&?&?&?&?). unfold modify. simpl. rewrite Hp. by repeat split. }
  intros _. apply resp_gets_reporters. intros rs1 rs2.
  apply resp_bind; [apply resp_emit | intros _].
  apply resp_bind; [apply insens_gets_curPath | intros p].
  apply resp_bind; [apply insens_Check | intros _].
  apply resp_bind.
  { pose proof insens_tryOptions. pose proof insens_tryMethod.
    pose proof insens_compareKind.
    match goal with |- resp ?m ?m => change (insens m) end. insens_auto. }
  intros _. apply resp_bind; [apply resp_emit | intros _].
  intros s1 s2 (?&Hp&?&?&?&?). unfold modify. simpl. rewrite Hp. by repeat split.
Qed.
End Walkers_insens.

Lemma insens_compareAny W fuel : ∀ step, insens (compareAny W fuel step).
Proof.
  induction fuel as [|fuel IH]; intros step; simpl.
  - apply insens_exhausted.
  - by apply insens_compareAny_body.
Qed.

(** ** compare.go: statelessCompare is stateless *)

(** The comparison state that [statelessCompare] must not be seen to
    change: the tally, the path, the reporter list, and what the reporters
    have been told. *)
Definition untouched (s s' : state) : Prop :=
  result s' = result s ∧ curPath s' = curPath s
  ∧ reporters s' = reporters s ∧ calls s' = calls s.

Lemma untouched_refl s : untouched s s.
Proof. by repeat split. Qed.

Lemma untouched_trans s1 s2 s3 : untouched s1 s2 → untouched s2 s3 → untouched s1 s3.
Proof. unfold untouched. intros (?&?&?&?) (?&?&?&?). repeat split; congruence. Qed.

Lemma statelessCompare_untouched rec step s res s' :
  (∀ st, framed (rec st)) →
  statelessCompare rec step s = Ret res s' → untouched s s'.
Proof.
  intros Hrec. rewrite statelessCompare_unfold.
  specialize (Hrec step (set_reporters [] (set_result diff.zero s))).
  destruct (rec step _) as [a s1| |]; [| done | done].
  intros [= _ <-]. destruct Hrec as [Hp Hr Ho He Hq]. simpl in *.
  repeat split; simpl; auto.
Qed.

Lemma withIndexes_pure te vx vy ix iy s step s' :
  withIndexes te vx vy ix iy s = Ret step s' → s' = s.
Proof.
  unfold withIndexes, bind, must, ret, panic.
  destruct (0 <=? ix); [destruct (rv.Index vx (Z.to_nat ix)) |];
    (destruct (0 <=? iy); [destruct (rv.Index vy (Z.to_nat iy)) |]); simpl; congruence.
Qed.

Lemma scanIgnored_untouched rec mk idxs :
  (∀ st, framed (rec st)) →
  (∀ i s a s', mk i s = Ret a s' → s' = s) →
  ∀ s r s', scanIgnored rec mk idxs s = Ret r s' → untouched s s'.
Proof.
  intros Hrec Hmk. induction idxs as [|i idxs IH]; intros s r s'; simpl.
  - intros [= _ <-]. apply untouched_refl.
  - unfold bind at 1. destruct (mk i s) as [step s1| |] eqn:E1; [| done | done].
    apply Hmk in E1 as ->.
    unfold bind at 1.
    destruct (statelessCompare rec step s) as [res s2| |] eqn:E2; [| done | done].
    apply statelessCompare_untouched in E2; [| exact Hrec].
    unfold bind at 1.
    destruct (scanIgnored rec mk idxs s2) as [r' s3| |] eqn:E3; [| done | done].
    intros [= _ <-]. eapply untouched_trans; [exact E2 | by eapply IH].
Qed.

(** C10: a [statelessCompare] that returns leaves the tally, the path, the
    reporter list and the reporters' memory as they were; so do the two
    scans of [compareSlice] that find the ignorable elements of [vx] and of
    [vy] before the edit script is computed. *)
Theorem statelessCompare_is_stateless W fuel :
  (∀ step s res s',
     statelessCompare (compareAny W fuel) step s = Ret res s' → untouched s s')
  ∧ (∀ te vx vy idxs s r s',
       scanIgnored (compareAny W fuel)
         (λ i, withIndexes te vx vy (Z.of_nat i) (-1)) idxs s = Ret r s' →
       untouched s s')
  ∧ (∀ te vx vy idxs s r s',
       scanIgnored (compareAny W fuel)
         (λ i, withIndexes te vx vy (-1) (Z.of_nat i)) idxs s = Ret r s' →
       untouched s s').
Proof.
  split; [| split].
  - intros step s res s'. apply statelessCompare_untouched, framed_compareAny.
  - intros te vx vy idxs s r s'. apply scanIgnored_untouched.
    + apply framed_compareAny.
    + intros i s0 a s0'. apply withIndexes_pure.
  - intros te vx vy idxs s r s'. apply scanIgnored_untouched.
    + apply framed_compareAny.
    + intros i s0 a s0'. apply withIndexes_pure.
Qed.

(** ** compare.go: blank fields are not looked at *)

(** Two field lists of a struct of fields [fs] that agree on every field
    whose name is not the blank identifier. *)
Inductive agreeOffBlank : list reflect.StructField → list Value → list Value → Prop :=
| agree_nil : agreeOffBlank [] [] []
| agree_cons f fs v v' vs vs' :
    reflect.Name f = "_" ∨ v = v' →
    agreeOffBlank fs vs vs' →
    agreeOffBlank (f :: fs) (v :: vs) (v' :: vs').

Lemma isExported_blank W : isExported W "_" = false.
Proof. reflexivity. Qed.

Lemma drop_lookup_cons {A} (l : list A) i v vs :
  drop i l = v :: vs → l !! i = Some v ∧ drop (S i) l = vs.
Proof.
  revert i. induction l as [|a l IH]; intros i H.
  - by destruct i.
  - destruct i as [|i]; simpl in *.
    + injection H as -> ->. by rewrite drop_0.
    + by apply IH.
Qed.

Lemma compareStruct_loop_blank W rec t xs xs' ys ys' fs :
  ∀ i mf s,
    agreeOffBlank fs (drop i xs) (drop i xs') →
    agreeOffBlank fs (drop i ys) (drop i ys') →
    compareStruct_loop W rec t (VStruct xs') (VStruct ys') fs i mf s
    = compareStruct_loop W rec t (VStruct xs) (VStruct ys) fs i mf s.
Proof.
  induction fs as [|f fs IH]; intros i mf s Hx Hy; [reflexivity |].
  inversion Hx as [| f0 fs0 vx0 vx0' vxs vxs' Hfx Hxs Ef Edx Edx']; subst.
  inversion Hy as [| f0 fs0 vy0 vy0' vys vys' Hfy Hys Ef Edy Edy']; subst.
  symmetry in Edx, Edx', Edy, Edy'.
  apply drop_lookup_cons in Edx as [Lx Dx], Edx' as [Lx' Dx'].
  apply drop_lookup_cons in Edy as [Ly Dy], Edy' as [Ly' Dy'].
  assert (∀ mf' s', compareStruct_loop W rec t (VStruct xs') (VStruct ys') fs (S i) mf' s'
                    = compareStruct_loop W rec t (VStruct xs) (VStruct ys) fs (S i) mf' s') as IH'.
  { intros mf' s'. apply IH; by rewrite ?Dx, ?Dx', ?Dy, ?Dy'. }
  simpl. unfold bind, must, ret, gets. simpl. rewrite Lx, Lx', Ly, Ly'.
  destruct (decide (reflect.Name f = "_")) as [Hb | Hnb].
  - rewrite Hb, isExported_blank. simpl. apply IH'.
  - destruct Hfx as [? | ->]; [done |]. destruct Hfy as [? | ->]; [done |].
    destruct (negb (isExported W (reflect.Name f))); simpl.
    + rewrite bool_decide_eq_false_2 by done.
      destruct (rec _ s); [apply IH' | reflexivity | reflexivity].
    + destruct (rec _ s); [apply IH' | reflexivity | reflexivity].
Qed.

(** ** compare.go: a map key that cannot be retrieved is fatal *)

Definition NaNKeyPanic (W : World) (p : Path) : string :=
  GoString W p +:+ " has map key with NaNs" +:+ nl
  +:+ "consider providing a Comparer to compare the map".

(** A float key that is not a number is [==] to no key, itself included. *)
Lemma NaN_key_lookup es f :
  float64.IsNaN f = true → rv.lookupEntry (VFloat f) es = VInvalid.
Proof.
  intros Hnan. induction es as [|[k' e] es IH]; [reflexivity |]. simpl.
  replace (rv.goEq k' (VFloat f)) with false; [exact IH |].
  destruct k' as [| | | |g| | | | | | | | | | |[[]|]];
    [reflexivity | reflexivity | reflexivity | reflexivity | | reflexivity ..].
  change (rv.goEq (VFloat g) (VFloat f)) with (float64.eq g f).
  unfold float64.eq. rewrite Hnan. change (negb true) with false.
  rewrite andb_false_r. reflexivity.
Qed.

Lemma compareMap_loop_unretrievable W rec t esx esy pre k post :
  rv.lookupEntry k esx = VInvalid → rv.lookupEntry k esy = VInvalid →
  ∀ s,
    compareMap_loop W rec t (VMap (Some esx)) (VMap (Some esy)) (pre ++ k :: post) s
    = match compareMap_loop W rec t (VMap (Some esx)) (VMap (Some esy)) pre s with
      | Ret _ s' => Panic (NaNKeyPanic W (curPath s'))
      | Panic msg => Panic msg
      | Exhausted => Exhausted
      end.
Proof.
  intros Hx Hy. induction pre as [|k0 pre IH]; intros s.
  - simpl. unfold bind, must, ret, gets, panic. simpl. rewrite Hx, Hy. reflexivity.
  - simpl. unfold bind, must, ret, gets, panic. simpl.
    destruct (negb (rv.IsValid (rv.lookupEntry k0 esx)) && _); [reflexivity |].
    destruct (rec _ s); [apply IH | reflexivity | reflexivity].
Qed.

(** C5: when the sorted keys of two non-nil maps hold a key [k] that
    neither map returns a value for, the comparison of the maps never
    returns: it panics, and when the keys sorted before [k] have been
    compared the panic is the one that names the path of the map. *)
Theorem map_key_with_NaNs_is_fatal W (fuel : nat) (t : Type_)
    (esx esy : list (Value * Value)) (s : state) (pre post : list Value) (k : Value) :
  SortKeys W (esx.*1 ++ esy.*1) = pre ++ k :: post →
  rv.lookupEntry k esx = VInvalid →
  rv.lookupEntry k esy = VInvalid →
  (∀ a s', compareMap W (compareAny W fuel) t (VMap (Some esx)) (VMap (Some esy)) s
           ≠ Ret a s')
  ∧ (∀ s1, compareMap_loop W (compareAny W fuel) t (VMap (Some esx)) (VMap (Some esy)) pre s
           = Ret tt s1 →
       compareMap W (compareAny W fuel) t (VMap (Some esx)) (VMap (Some esy)) s
       = Panic (NaNKeyPanic W (curPath s))).
Proof.
  intros Hkeys Hx Hy.
  assert (compareMap W (compareAny W fuel) t (VMap (Some esx)) (VMap (Some esy)) s
          = match compareMap_loop W (compareAny W fuel) t (VMap (Some esx)) (VMap (Some esy)) pre s with
            | Ret _ s' => Panic (NaNKeyPanic W (curPath s'))
            | Panic msg => Panic msg
            | Exhausted => Exhausted
            end) as ->.
  { unfold compareMap, bind, must, ret. simpl. rewrite Hkeys.
    by apply compareMap_loop_unretrievable. }
  split.
  - intros a s'. by destruct (compareMap_loop _ _ _ _ _ pre s).
  - intros s1 Hpre. rewrite Hpre.
    pose proof (framed_compareMap_loop W (compareAny W fuel) (framed_compareAny W fuel)
                  t (VMap (Some esx)) (VMap (Some esy)) pre s) as Hf.
    rewrite Hpre in Hf. by rewrite (frame_path _ _ Hf).
Qed.

(** ** compare.go: pointer cycles *)

Definition notTransform (st : PathStep) : Prop :=
  match st with Transform _ _ => False | _ => True end.

Lemma recursiveTransformers_none p :
  Forall notTransform p → ∀ m, recursiveTransformers p m = [].
Proof.
  induction 1 as [|st p Hst Hp IH]; intros m; [reflexivity |].
  destruct st; simpl in *; try done; apply IH.
Qed.

Lemma Check_noTransform p s :
  Forall notTransform p → ∃ rc, Check p s = Ret tt (set_recChecker rc s).
Proof.
  intros Hp. unfold Check. rewrite (recursiveTransformers_none p Hp). simpl.
  destruct (len p <? _); eauto.
Qed.

Lemma tryOptions_validator_only W rec t vx vy s :
  opts s = [validator] →
  rv.IsValid vx = true → rv.IsValid vy = true →
  forbidden (curPath s) = false →
  tryOptions W rec t vx vy s = Ret false s.
Proof.
  intros Ho Hx Hy Hf. unfold tryOptions, Options_filter, bind, gets. rewrite Ho.
  simpl. unfold validator_filter, bind, gets. rewrite Hx, Hy, Hf. reflexivity.
Qed.

Lemma forbidden_push p st :
  (∀ sf, st ≠ StructField sf) → forbidden (push p st) = false.
Proof.
  intros Hst. unfold forbidden, push. rewrite last_snoc.
  destruct st; try reflexivity. by destruct (Hst sf).
Qed.

(** With no option and no Equal method, [compareAny] on two pointers of a
    type [t] whose element type is [t] again, each pointing into a set [C]
    of addresses closed under dereference, calls itself on what they point
    to: no depth of calls is enough. *)
Lemma pointer_cycle_diverges W (t : Type_) (C : uintptr → Prop) :
  Kind W t = reflect.Ptr → Elem W t = t → MethodEqual W t = None →
  (∀ a, C a → a ≠ 0 ∧ ∃ a', Load W a = VPtr a' ∧ C a') →
  ∀ fuel step s a b,
    opts s = [validator] →
    Forall notTransform (curPath s) →
    (step = Root {| typ := t; vx := VPtr a; vy := VPtr b |}
     ∨ step = Indirect {| typ := t; vx := VPtr a; vy := VPtr b |}) →
    C a → C b →
    compareAny W fuel step s = Exhausted.
Proof.
  intros HK HE HM HC. induction fuel as [|fuel IH]; intros step s a b Ho Hp Hstep Ca Cb;
    [reflexivity |].
  destruct (HC a Ca) as (Ha0 & a' & Hla & Ca'), (HC b Cb) as (Hb0 & b' & Hlb & Cb').
  assert (step_Type step = t ∧ step_Values step = (VPtr a, VPtr b)
          ∧ notTransform step ∧ ∀ sf, step ≠ StructField sf) as (Ht & Hv & Hnt & Hnsf).
  { destruct Hstep as [-> | ->]; by repeat split. }
  simpl. unfold compareAny_body.
  unfold bind at 1. unfold modify at 1.
  unfold bind at 1. unfold gets at 1.
  unfold bind at 1. unfold emit, modify at 1.
  unfold bind at 1. unfold gets at 1.
  unfold bind at 1.
  match goal with |- context [Check ?p ?s0] =>
    destruct (Check_noTransform p s0) as (rc & ->) end.
  { simpl. apply Forall_app. split; [exact Hp | by constructor]. }
  unfold bind at 1. unfold bind at 1.
  rewrite Ht, Hv. simpl.
  rewrite tryOptions_validator_only; simpl; try done; [| by apply forbidden_push].
  unfold bind at 1. unfold tryMethod. rewrite HM. simpl.
  unfold compareKind. rewrite HK. unfold bind, must, ret. simpl.
  rewrite (proj2 (Z.eqb_neq a 0) Ha0), (proj2 (Z.eqb_neq b 0) Hb0). simpl.
  rewrite HE, Hla, Hlb.
  erewrite IH; [reflexivity | exact Ho | | right; reflexivity | exact Ca' | exact Cb'].
  simpl. apply Forall_app. split; [exact Hp | by constructor].
Qed.

(** * Worked inputs

    A small program's worth of types and memory:
    [type P *P], [type S struct { _ int; A int }], [[]int],
    [map[float64]int], and the cells [x := new(P); *x = x] at addresses 1 and
    2 and [y1, y2 := new(P), new(P); *y1 = y2; *y2 = y1] at 3 and 4. *)

Definition exampleKind (t : Type_) : reflect.Kind :=
  if bool_decide (t = "int") then reflect.Int
  else if bool_decide (t = "float64") then reflect.Float64
  else if bool_decide (t = "string") then reflect.String
  else if bool_decide (t = "P") then reflect.Ptr
  else if bool_decide (t = "S") then reflect.Struct
  else if bool_decide (t = "[]int") then reflect.Slice
  else if bool_decide (t = "map[float64]int") then reflect.Map
  else if bool_decide (t = "interface {}") then reflect.Interface
  else reflect.Invalid.

Definition exampleLoad (p : uintptr) : Value :=
  if p =? 1 then VPtr 1
  else if p =? 2 then VPtr 2
  else if p =? 3 then VPtr 4
  else if p =? 4 then VPtr 3
  else VInvalid.

(** A [diff.Difference] that aligns the two sequences index by index. *)
Fixpoint pairwisePlan (n i nx ny : nat) (acc : list diff.EditType) : diff.Plan :=
  match n with
  | O => diff.Done (acc ++ replicate (nx - i) diff.UniqueX
                        ++ replicate (ny - i) diff.UniqueY)
  | S n' =>
      diff.Ask i i (λ r, pairwisePlan n' (S i) nx ny
                           (acc ++ [if diff.Equal r then diff.Identity
                                    else diff.Modified]))
  end.

Definition exampleGoString (p : Path) : string :=
  "{" +:+ Join ((λ st, match st with
                       | Root _ => "root"
                       | StructField sf => "." +:+ name sf
                       | SliceIndex _ i j => "[" +:+ pretty i +:+ "->" +:+ pretty j +:+ "]"
                       | MapIndex _ _ => "[key]"
                       | Indirect _ => "*"
                       | TypeAssertion ps => ".(" +:+ typ ps +:+ ")"
                       | Transform _ tr => tr_name tr +:+ "()"
                       end) <$> p) "" +:+ "}".

Definition exampleFormat (v : Value) (useStringer printType : bool) : string :=
  match v with
  | VInt i => if printType then "int(" +:+ pretty i +:+ ")" else pretty i
  | VString s => s
  | VInvalid => "<non-existent>"
  | _ => "<value>"
  end.

Definition exampleWorld : World := {|
  Kind := exampleKind;
  Elem := λ t, if bool_decide (t = "P") then "P" else "int";
  Fields := λ t,
    if bool_decide (t = "S")
    then [ {| reflect.Name := "_"; reflect.Typ := "int" |};
           {| reflect.Name := "A"; reflect.Typ := "int" |} ]
    else [];
  MethodEqual := λ _, None;
  AssignableTo := λ t u, bool_decide (t = u);
  Load := exampleLoad;
  SortKeys := λ ks, ks;
  Difference := λ nx ny, pairwisePlan (Nat.min nx ny) 0 nx ny [];
  GoString := exampleGoString;
  Format := exampleFormat;
  IsUpper := λ _, false;
  AtLeastGo110 := true
|}.

(** [x := new(P); *x = x] against [y := new(P); *y = y], and against the
    two-cell cycle [y1]. *)
Definition selfCycleX : option (Type_ * Value) := Some ("P", VPtr 1).
Definition selfCycleY : option (Type_ * Value) := Some ("P", VPtr 2).
Definition twoCycleY : option (Type_ * Value) := Some ("P", VPtr 3).

(** C4, at the inputs of the package's cycle tests: [Equal] on two
    self-referential pointers, and on a one-cell cycle against a two-cell
    cycle, does not return whatever the depth of calls allowed;
    [compareAny] never consults a [cycles] tracker. *)
Theorem Equal_diverges_on_pointer_cycles (fuel : nat) :
  Equal exampleWorld fuel selfCycleX selfCycleY [] = OutOfFuel
  ∧ Equal exampleWorld fuel selfCycleX twoCycleY [] = OutOfFuel.
Proof.
  assert (∀ a b, (1 <= a <= 4) → (1 <= b <= 4) →
                 Equal exampleWorld fuel (Some ("P", VPtr a)) (Some ("P", VPtr b)) []
                 = OutOfFuel) as H.
  { intros a b Ha Hb.
    assert (compareAny exampleWorld fuel
              (Root {| typ := "P"; vx := VPtr a; vy := VPtr b |}) emptyState
            = Exhausted) as Hrun.
    { apply (pointer_cycle_diverges exampleWorld "P" (λ c, 1 <= c <= 4))
        with (a := a) (b := b); try reflexivity; try assumption.
      - intros c Hc. split; [lia |].
        assert (c = 1 ∨ c = 2 ∨ c = 3 ∨ c = 4) as [-> | [-> | [-> | ->]]] by lia;
          eexists; (split; [reflexivity | lia]).
      - constructor.
      - by left. }
    unfold Equal, traverse, newState. simpl processOptions.
    change (rootStep (Some ("P", VPtr a)) (Some ("P", VPtr b)))
      with (Root {| typ := "P"; vx := VPtr a; vy := VPtr b |}).
    unfold ret. by rewrite Hrun. }
  split; apply H; lia.
Qed.

(** ** reporter.go: the marker of a truncated report *)

Definition examplePrettyPrint (v : Value) (useStringer : bool) : string :=
  exampleFormat v useStringer (negb useStringer).

(** 87 differences between the ints 1 and 2 at the root: the entries have
    three lines each, so the 86th takes the report past 256 lines and the
    87th is left out. *)
Definition manyDiffs : list (Value * Value * bool * Path) :=
  replicate 87 (VInt 1, VInt 2, false, []).

(** C6, at that input: one difference is omitted, and the marker that ends
    the report gives the count [len(r.diffs) - r.ndiffs], which is -1. *)
Theorem truncation_marker_miscounts :
  reporter.ndiffs
    (reporter.ReportAll examplePrettyPrint exampleGoString manyDiffs reporter.new) = 87
  ∧ len (reporter.diffs
           (reporter.ReportAll examplePrettyPrint exampleGoString manyDiffs reporter.new)) = 86
  ∧ reporter.String
      (reporter.ReportAll examplePrettyPrint exampleGoString manyDiffs reporter.new)
    = Join (reporter.diffs
              (reporter.ReportAll examplePrettyPrint exampleGoString manyDiffs reporter.new)) ""
      +:+ "... -1 more differences ...".
Proof. repeat split; vm_compute; reflexivity. Qed.

(** The same run through report.go, the later revision of the reporter:
    its marker counts [r.ndiffs - len(r.diffs)], which is 1. *)
Example report_go_marker_counts :
  ∀ r, foldl (λ r c, report.report exampleWorld c.1.1.1 c.1.1.2 c.2 r) report.new manyDiffs = r →
       report.String r = Join (report.diffs r) "" +:+ "... 1 more differences ...".
Proof. intros r <-. vm_compute. reflexivity. Qed.

(** ** compare.go: Diff agrees with Equal *)

Lemma newState_with_reporter os r :
  newState [Options os; reporter r]
  = match newState os with
    | Ret _ s0 => Ret tt (set_reporters (reporters s0 ++ [r]) s0)
    | Panic msg => Panic msg
    | Exhausted => Exhausted
    end.
Proof.
  unfold newState. simpl. unfold bind.
  by destruct (processOptions processOption os emptyState).
Qed.

(** The traversal [Diff] starts, with its reporter attached, and the one
    [Equal] starts on the caller's options end alike. *)
Lemma traverse_with_reporter W fuel x y os r :
  osame (traverse W fuel x y [Options os; reporter r]) (traverse W fuel x y os).
Proof.
  unfold traverse. rewrite newState_with_reporter.
  destruct (newState os) as [[] s0| |]; simpl; try done.
  apply insens_compareAny. by repeat split.
Qed.

(** * The theorems at concrete inputs *)

(** [Comparer(func(x, y int) bool { return x == y })] and a second comparer
    of ints, [func(x, y int) bool { return true }]. *)
Definition eqInts : comparer :=
  {| cm_typ := Some "int";
     cm_fnc := {| f2_name := "eqInts"; f2_in := "int"; call2 := rv.goEq |} |}.
Definition anyInts : comparer :=
  {| cm_typ := Some "int";
     cm_fnc := {| f2_name := "anyInts"; f2_in := "int"; call2 := λ _ _, true |} |}.

(** [Transformer("double", func(x int) int { return 2 * x })]. *)
Definition double : transformer :=
  {| tr_ptr := 4096; tr_name := "double"; tr_typ := Some "int";
     tr_fnc := {| f1_name := "double"; f1_in := "int"; f1_out := "int";
                  call1 := λ v, match v with VInt i => VInt (2 * i) | _ => v end |} |}.

Definition intRoot (a b : Z) : PathStep :=
  Root {| typ := "int"; vx := VInt a; vy := VInt b |}.

(** The state of a comparison that stands at the root of two ints, with
    the options [os] behind the validator. *)
Definition atRoot (os : list Option) : state :=
  set_curPath [intRoot 1 2] (set_opts (validator :: os) emptyState).

Definition always : Path → bool := λ _, true.

(** [func(x, y int) bool { return x < y }], a filter that is not
    symmetric. *)
Definition ltInts : Func2 :=
  {| f2_name := "ltInts"; f2_in := "int";
     call2 := λ x y, match x, y with VInt a, VInt b => a <? b | _, _ => false end |}.

Definition oneInt (a : Z) : option (Type_ * Value) := Some ("int", VInt a).
Definition ints (l : list Z) : option (Type_ * Value) :=
  Some ("[]int", VSlice (Some (VInt <$> l))).

(** C2 as stated fails, three ways.  Two comparers of ints are applicable
    to a node of type int after the filters have been evaluated ([Equal] on
    them alone panics with the ambiguity error, at the root and at an
    element of a slice), and yet: with a filtered Ignore next to them
    nothing panics, the node is ignored and [Equal] returns true; at the
    element of a slice that has no partner on the other side nothing
    panics either, the validator makes it an unequal leaf and [Equal]
    returns false; and behind a value filter that is not symmetric the
    comparison aborts with the panic of the filter check, which is not
    the ambiguity error. *)
Lemma two_comparers_no_ambiguity_error :
  Equal exampleWorld 3 (oneInt 1) (oneInt 2) [Comparer eqInts; Comparer anyInts]
  = Panics ("ambiguous set of applicable options at {root}:" +:+ nltab
            +:+ "Comparer(eqInts)" +:+ nltab +:+ "Comparer(anyInts)" +:+ nl
            +:+ "consider using filters to ensure at most one Comparer or Transformer may apply")
  ∧ Equal exampleWorld 3 (ints [1]) (ints [1]) [Comparer eqInts; Comparer anyInts]
    = Panics ("ambiguous set of applicable options at {root[0->0]}:" +:+ nltab
              +:+ "Comparer(eqInts)" +:+ nltab +:+ "Comparer(anyInts)" +:+ nl
              +:+ "consider using filters to ensure at most one Comparer or Transformer may apply")
  ∧ Equal exampleWorld 3 (oneInt 1) (oneInt 2)
      [Comparer eqInts; Comparer anyInts; pathFilter always "always" ignore]
    = Returns true
  ∧ Equal exampleWorld 3 (ints [1]) (ints []) [Comparer eqInts; Comparer anyInts]
    = Returns false
  ∧ Equal exampleWorld 3 (oneInt 1) (oneInt 2)
      [valuesFilter (Some "int") ltInts (Comparer eqInts); Comparer eqInts; Comparer anyInts]
    = Panics "non-deterministic or non-symmetric function detected: ltInts".
Proof. repeat split; vm_compute; reflexivity. Qed.

(** C3 as stated fails: a filtered Ignore is applicable at the root, but
    the option ahead of it is a comparer behind a value filter that is not
    symmetric; the filter is evaluated first, its check panics, and the
    node is not reported as ignored: the other option has decided the
    outcome.  With the Ignore ahead of it the node is ignored. *)
Lemma asymmetric_filter_defeats_ignore :
  Equal exampleWorld 3 (oneInt 1) (oneInt 2)
    [valuesFilter (Some "int") ltInts (Comparer anyInts); pathFilter always "always" ignore]
  = Panics "non-deterministic or non-symmetric function detected: ltInts"
  ∧ Equal exampleWorld 3 (oneInt 1) (oneInt 2)
      [pathFilter always "always" ignore; valuesFilter (Some "int") ltInts (Comparer anyInts)]
    = Returns true.
Proof. split; vm_compute; reflexivity. Qed.

(** compare_test.go, the case of the two [FilterValues] over the elements
    of [[]int{0, -5, 0, -1}] and [[]int{1, 3, 0, -5}]: the elements are
    compared one against none before they are compared in pairs, the
    filters let nothing through there, and the verdict is "unequal". *)
Definition sumNotNegative : Func2 :=
  {| f2_name := "sumNotNegative"; f2_in := "int";
     call2 := λ x y, match x, y with VInt a, VInt b => 0 <=? a + b | _, _ => false end |}.
Definition sumNegative : Func2 :=
  {| f2_name := "sumNegative"; f2_in := "int";
     call2 := λ x y, match x, y with VInt a, VInt b => a + b <? 0 | _, _ => false end |}.
Definition halved : transformer :=
  {| tr_ptr := 4097; tr_name := "λ"; tr_typ := Some "int";
     tr_fnc := {| f1_name := "halved"; f1_in := "int"; f1_out := "int64";
                  call1 := λ v, match v with VInt i => VInt (Z.quot i 2) | _ => v end |} |}.
Definition widened : transformer :=
  {| tr_ptr := 4098; tr_name := "λ"; tr_typ := Some "int";
     tr_fnc := {| f1_name := "widened"; f1_in := "int"; f1_out := "int64";
                  call1 := λ v, v |} |}.
Definition int64World : World := {|
  Kind := λ t, if bool_decide (t = "int64") then reflect.Int64 else Kind exampleWorld t;
  Elem := Elem exampleWorld;
  Fields := Fields exampleWorld;
  MethodEqual := MethodEqual exampleWorld;
  AssignableTo := AssignableTo exampleWorld;
  Load := Load exampleWorld;
  SortKeys := SortKeys exampleWorld;
  Difference := Difference exampleWorld;
  GoString := GoString exampleWorld;
  Format := Format exampleWorld;
  IsUpper := IsUpper exampleWorld;
  AtLeastGo110 := AtLeastGo110 exampleWorld
|}.

Example FilterValues_over_slices :
  Equal int64World 4 (ints [0; -5; 0; -1]) (ints [1; 3; 0; -5])
    [valuesFilter (Some "int") sumNotNegative (Transformer halved);
     valuesFilter (Some "int") sumNegative (Transformer widened)]
  = Returns false.
Proof. vm_compute. reflexivity. Qed.

(** compare_test.go, the option of a type the package does not know. *)
Example unknown_option_panics :
  Equal exampleWorld 3 (oneInt 1) (oneInt 1) [embedded "struct { cmp.Option }" Nil]
  = Panics "unknown option struct { cmp.Option }".
Proof. reflexivity. Qed.

Lemma ambiguity_is_fatal_witness :
  ∃ msg,
    tryOptions exampleWorld (compareAny exampleWorld 0) "int" (VInt 1) (VInt 2)
      (atRoot [Comparer eqInts; Comparer anyInts]) = Panic msg
    ∧ Contains msg "ambiguous set of applicable options"
    ∧ Contains msg (GoString exampleWorld (curPath (atRoot [Comparer eqInts; Comparer anyInts])))
    ∧ ∀ o, o ∈ remaining exampleWorld (curPath (atRoot [Comparer eqInts; Comparer anyInts]))
                  "int" (VInt 1) (VInt 2)
                  (Options (opts (atRoot [Comparer eqInts; Comparer anyInts]))) →
           Contains msg (Sprint o).
Proof.
  apply (ambiguity_is_fatal exampleWorld (compareAny exampleWorld 0)
           (atRoot [Comparer eqInts; Comparer anyInts]) "int" (VInt 1) (VInt 2)).
  - simpl. tauto.
  - reflexivity.
  - reflexivity.
  - change (2 ≤ 2)%nat. lia.
Defined.

Lemma ignore_short_circuits_witness :
  ∃ dc,
    tryOptions exampleWorld (compareAny exampleWorld 0) "int" (VInt 1) (VInt 2)
      (atRoot [Comparer eqInts; pathFilter always "always" ignore])
    = Ret true
        (set_calls
           (calls (atRoot [Comparer eqInts; pathFilter always "always" ignore])
            ++ ((λ r, (r, CallReport reportIgnored))
                <$> reporters (atRoot [Comparer eqInts; pathFilter always "always" ignore])))
           (set_dynChecker dc (atRoot [Comparer eqInts; pathFilter always "always" ignore]))).
Proof.
  apply (ignore_short_circuits exampleWorld (compareAny exampleWorld 0)
           (atRoot [Comparer eqInts; pathFilter always "always" ignore])
           "int" (VInt 1) (VInt 2)).
  - simpl. tauto.
  - change (ignore ∈ [Comparer eqInts; ignore]). by repeat constructor.
Defined.

(** [map[float64]int{NaN: 1}], on both sides. *)
Definition nanMap : list (Value * Value) := [(VFloat float64.NaN, VInt 1)].

Lemma map_key_with_NaNs_is_fatal_witness :
  compareMap exampleWorld (compareAny exampleWorld 3) "map[float64]int"
    (VMap (Some nanMap)) (VMap (Some nanMap)) (atRoot [])
  = Panic (NaNKeyPanic exampleWorld (curPath (atRoot []))).
Proof.
  apply (proj2 (map_key_with_NaNs_is_fatal exampleWorld 3 "map[float64]int"
                  nanMap nanMap (atRoot []) [] [VFloat float64.NaN]
                  (VFloat float64.NaN) eq_refl eq_refl eq_refl) (atRoot [])).
  reflexivity.
Defined.

(** A path that ends in the step of [double]. *)
Definition afterDouble : state :=
  set_curPath [intRoot 1 2; Transform {| typ := "int"; vx := VInt 2; vy := VInt 4 |} double]
    emptyState.

Lemma transformer_filter_suppressed_witness :
  Option_filter exampleWorld (Transformer double) (VInt 2) (VInt 4) "int" afterDouble
  = Ret Nil afterDouble.
Proof.
  apply (transformer_filter_suppressed exampleWorld double afterDouble (VInt 2) (VInt 4)
           "int" [intRoot 1 2]
           [Transform {| typ := "int"; vx := VInt 2; vy := VInt 4 |} double]).
  - reflexivity.
  - constructor; [| constructor]. by eexists _, _.
  - eexists _, double. split; [by left | reflexivity].
Defined.

(** [struct{ _ int; A int }{1, 7}] and [{2, 7}] are equal, with no option. *)
Example blank_fields_do_not_count :
  Equal exampleWorld 5 (Some ("S", VStruct [VInt 1; VInt 7]))
    (Some ("S", VStruct [VInt 2; VInt 7])) [] = Returns true.
Proof. vm_compute. reflexivity. Qed.

(** A state with a reporter attached. *)
Definition withReporter : state := set_reporters [7%nat] (atRoot []).

Lemma statelessCompare_is_stateless_witness :
  untouched withReporter (set_recChecker {| rc_next := 65536 |} withReporter).
Proof.
  apply (proj1 (statelessCompare_is_stateless exampleWorld 3) (intRoot 1 2) withReporter
           {| diff.NumSame := 0; diff.NumDiff := 1 |}).
  vm_compute. reflexivity.
Defined.

(** * Further properties of compare.go *)

(** ** dynChecker: the cadence of the checks *)

Lemma wrap64_small z : - 2 ^ 63 <= z < 2 ^ 63 → wrap64 z = z.
Proof. intros Hz. unfold wrap64. rewrite Z.mod_small; lia. Qed.

(** The checker after [c] calls of [Next] on the zero value. *)
Fixpoint dynCheckerAfter (c : nat) : dynChecker :=
  match c with
  | O => {| curr := 0; next := 0 |}
  | S c' => (dynChecker_Next (dynCheckerAfter c')).2
  end.

Definition triangular (n : nat) : nat := (n * (n + 1) / 2)%nat.

Lemma triangular_S n : triangular (S n) = (triangular n + n + 1)%nat.
Proof.
  unfold triangular.
  replace (S n * (S n + 1))%nat with (n * (n + 1) + (n + 1) * 2)%nat by lia.
  rewrite Nat.div_add by lia. lia.
Qed.

(** After [triangular n + 1 + j] calls, [j <= n], the checker holds
    [curr = 1 + j] and [next = n + 1]. *)
Lemma dynCheckerAfter_shape n j :
  (j ≤ n)%nat → Z.of_nat n < 2 ^ 62 →
  dynCheckerAfter (triangular n + 1 + j)
  = {| curr := 1 + Z.of_nat j; next := Z.of_nat n + 1 |}.
Proof.
  revert j. induction n as [|n IHn]; intros j Hj Hn.
  - assert (j = 0%nat) as -> by lia. reflexivity.
  - assert (Z.of_nat n < 2 ^ 62) as Hn' by lia.
    induction j as [|j IHj].
    + (* the call number [triangular (S n)], a check *)
      rewrite triangular_S.
      replace (triangular n + n + 1 + 1 + 0)%nat with (S (triangular n + 1 + n)) by lia.
      simpl dynCheckerAfter. rewrite IHn by lia.
      unfold dynChecker_Next. simpl.
      replace (1 + Z.of_nat n =? Z.of_nat n + 1) with true by (symmetry; apply Z.eqb_eq; lia).
      simpl. unfold int_add. rewrite !wrap64_small by lia. f_equal; lia.
    + replace (triangular (S n) + 1 + S j)%nat with (S (triangular (S n) + 1 + j)) by lia.
      simpl dynCheckerAfter. rewrite IHj by lia.
      unfold dynChecker_Next. simpl.
      replace (1 + Z.of_nat j =? Z.of_nat (S n) + 1) with false
        by (symmetry; apply Z.eqb_neq; lia).
      simpl. unfold int_add. rewrite !wrap64_small by lia. f_equal; lia.
Qed.

Lemma triangular_between c :
  ∃ n j, (j ≤ n)%nat ∧ c = (triangular n + j)%nat.
Proof.
  induction c as [|c (n & j & Hj & ->)].
  - by exists 0%nat, 0%nat.
  - destruct (decide (j = n)) as [-> | Hne].
    + exists (S n), 0%nat. rewrite triangular_S. split; lia.
    + exists n, (S j). split; lia.
Qed.

Lemma triangular_mono n m : (n < m)%nat → (triangular n + n < triangular m)%nat.
Proof.
  induction 1 as [|m Hle IH]; rewrite triangular_S; lia.
Qed.

(** X1: counting the calls of [Next] from 0 on a fresh checker, the call
    number [c] asks for a check exactly when [c] is a triangular number:
    0, 1, 3, 6, 10, ... *)
Theorem dynChecker_checks_at_triangular_numbers (c : nat) :
  Z.of_nat c < 2 ^ 62 →
  (dynChecker_Next (dynCheckerAfter c)).1 = true ↔ ∃ n, c = triangular n.
Proof.
  intros Hc. destruct c as [|c].
  { split; [by exists 0%nat | reflexivity]. }
  destruct (triangular_between c) as (n & j & Hj & ->).
  assert (n ≤ triangular n + j)%nat as Hn.
  { clear. induction n as [|n IH]; [lia |]. rewrite triangular_S. lia. }
  replace (S (triangular n + j)) with (triangular n + 1 + j)%nat by lia.
  rewrite dynCheckerAfter_shape by lia.
  unfold dynChecker_Next. simpl.
  destruct (decide (j = n)) as [-> | Hne].
  - replace (1 + Z.of_nat n =? Z.of_nat n + 1) with true by (symmetry; apply Z.eqb_eq; lia).
    split; [| done]. intros _. exists (S n). rewrite triangular_S. lia.
  - replace (1 + Z.of_nat j =? Z.of_nat n + 1) with false by (symmetry; apply Z.eqb_neq; lia).
    split; [done |]. intros (m & Hm). exfalso.
    destruct (decide (m ≤ n)%nat) as [Hmn | Hmn].
    + destruct (decide (m = n)) as [-> | Hmn']; [lia |].
      pose proof (triangular_mono m n ltac:(lia)). lia.
    + pose proof (triangular_mono n m ltac:(lia)) as H1.
      destruct (decide (m = S n)) as [-> | Hmn'].
      * rewrite triangular_S in Hm. lia.
      * pose proof (triangular_mono (S n) m ltac:(lia)) as H2.
        rewrite triangular_S in H2. lia.
Qed.

Lemma dynChecker_checks_at_triangular_numbers_witness :
  (dynChecker_Next (dynCheckerAfter 10)).1 = true ↔ ∃ n, 10%nat = triangular n.
Proof.
  apply (dynChecker_checks_at_triangular_numbers 10). vm_compute. reflexivity.
Defined.

(** ** recChecker: when the scan of the path panics *)

(** The transformers of the Transform steps of a path, by address. *)
Definition transformerPtrs (p : Path) : list uintptr :=
  omap (λ st, match st with Transform _ t => Some (tr_ptr t) | _ => None end) p.

(** The length a path must have for the next scan. *)
Definition threshold (s : state) : Z :=
  if rc_next (recChecker_ s) =? 0 then minLen else rc_next (recChecker_ s).

Lemma recursiveTransformers_NoDup p :
  ∀ m, (∀ a, a ∈ transformerPtrs p → m !! a = None) →
       NoDup (transformerPtrs p) → recursiveTransformers p m = [].
Proof.
  induction p as [|st p IH]; intros m Hm Hnd; [reflexivity |].
  destruct st; simpl in *; try (by apply IH).
  apply NoDup_cons in Hnd as [Hnotin Hnd].
  assert (m !! tr_ptr trans = None) as Hnone by (apply Hm; left).
  rewrite Hnone. simpl.
  apply IH; [| exact Hnd].
  intros a Ha. rewrite lookup_insert_ne.
  - apply Hm. by right.
  - intros Heq. by rewrite Heq in Hnotin.
Qed.

Lemma recursiveTransformers_dup p :
  ∀ m, (∀ a, m !! a = None ∨ m !! a = Some 1) →
       (¬ NoDup (transformerPtrs p) ∨ ∃ a, a ∈ transformerPtrs p ∧ m !! a = Some 1) →
       recursiveTransformers p m ≠ [].
Proof.
  induction p as [|st p IH]; intros m Hm Hdup.
  { destruct Hdup as [Hnd | (a & Ha & _)]; [destruct Hnd; constructor | inversion Ha]. }
  assert (∀ m', (∀ a, m' !! a = None ∨ m' !! a = Some 1) →
                (¬ NoDup (transformerPtrs p)
                 ∨ ∃ a, a ∈ transformerPtrs p ∧ m' !! a = Some 1) →
                recursiveTransformers p m' ≠ []) as IH' by exact IH.
  destruct st; simpl in *; try (by apply IH).
  destruct (Hm (tr_ptr trans)) as [Hnone | Hone].
  - rewrite Hnone. simpl. apply IH.
    + intros a. destruct (decide (tr_ptr trans = a)) as [<- | Hne].
      * right. by rewrite lookup_insert_eq.
      * rewrite lookup_insert_ne by done. apply Hm.
    + destruct (decide (tr_ptr trans ∈ transformerPtrs p)) as [Hin | Hnotin].
      * right. exists (tr_ptr trans). split; [exact Hin |]. by rewrite lookup_insert_eq.
      * destruct Hdup as [Hnd | (a & Ha & Hma)].
        -- left. intros Hnd'. apply Hnd. by constructor.
        -- right. exists a. apply elem_of_cons in Ha as [-> | Ha]; [congruence |].
           split; [exact Ha |]. rewrite lookup_insert_ne; [exact Hma |].
           intros Heq. by rewrite Heq in Hnotin.
  - rewrite Hone. simpl. discriminate.
Qed.

(** X2: [Check] panics exactly when the path has reached the length the
    checker waits for and some transformer occurs in two of its Transform
    steps; in particular no path shorter than [1 << 16] steps is ever
    refused. *)
Theorem Check_panics_iff_long_and_repeated (p : Path) (s : state) :
  (∃ msg, Check p s = Panic msg)
  ↔ threshold s <= len p ∧ ¬ NoDup (transformerPtrs p).
Proof.
  unfold Check, threshold.
  set (n := if rc_next (recChecker_ s) =? 0 then minLen else rc_next (recChecker_ s)).
  destruct (len p <? n) eqn:Hlen.
  - apply Z.ltb_lt in Hlen. split; [by intros (msg & ?) | lia].
  - apply Z.ltb_ge in Hlen.
    destruct (decide (NoDup (transformerPtrs p))) as [Hnd | Hnd].
    + rewrite recursiveTransformers_NoDup; [| by intros; apply lookup_empty | exact Hnd].
      simpl. split; [by intros (msg & ?) | by intros [_ ?]].
    + pose proof (recursiveTransformers_dup p ∅
                    (λ a, or_introl (lookup_empty a)) (or_introl Hnd)) as Hne.
      destruct (recursiveTransformers p ∅) as [|x ss] eqn:Hss; [done |].
      replace (0 <? len (x :: ss)) with true.
      * split; [done | intros _; eauto].
      * symmetry. apply Z.ltb_lt. unfold len. simpl. lia.
Qed.

(** ** compareAny: the path discipline *)

(** X3: when [compareAny] returns, the path is what it was before the
    call (each push has had its pop), and so are the reporter list, the
    option list and the visibility grants; with no reporter attached no
    reporter has been called. *)
Theorem compareAny_restores_path W (fuel : nat) (step : PathStep) (s s' : state) :
  compareAny W fuel step s = Ret tt s' →
  curPath s' = curPath s ∧ reporters s' = reporters s
  ∧ opts s' = opts s ∧ exporters s' = exporters s
  ∧ (reporters s = [] → calls s' = calls s).
Proof.
  intros Hrun. pose proof (framed_compareAny W fuel step s) as Hf.
  rewrite Hrun in Hf. destruct Hf. auto.
Qed.

(** ** newState: what the option list comes to *)

(** The options a list comes to once every [Options] is expanded in place
    and every nil dropped. *)
Fixpoint expandOption (o : Option) : list Option :=
  match o with
  | Nil => []
  | Options os =>
      (fix each (l : list Option) : list Option :=
         match l with
         | [] => []
         | a :: l' => expandOption a ++ each l'
         end) os
  | _ => [o]
  end.
Definition expandOptions (os : list Option) : list Option := expandOption (Options os).

(** The [coreOption]s: what [processOption] appends to [s.opts]. *)
Definition isCoreOption (o : Option) : bool :=
  match o with
  | Nil | Options _ | visibleStructs _ | reporter _ | embedded _ _ => false
  | _ => true
  end.
(** The options of a type the switch of [processOption] has no case for. *)
Definition unknownOption (o : Option) : bool :=
  match o with embedded _ _ => true | _ => false end.
Definition asReporter (o : Option) : option reporterOption :=
  match o with reporter r => Some r | _ => None end.
Definition granted (l : list Option) : list Type_ :=
  flat_map (λ o, match o with visibleStructs m => m | _ => [] end) l.
Definition flatOption (o : Option) : Prop :=
  match o with Nil | Options _ => False | _ => True end.

Lemma expandOptions_cons a l : expandOptions (a :: l) = expandOption a ++ expandOptions l.
Proof. reflexivity. Qed.

Lemma expandOption_flat o : Forall flatOption (expandOption o).
Proof.
  induction o as [|l IH| | | | | | | | | |] using Option_nested_ind;
    try (by repeat constructor).
  change (Forall flatOption (expandOptions l)).
  induction IH as [|a l Ha _ IHl]; [constructor |].
  rewrite expandOptions_cons. by apply Forall_app.
Qed.

Lemma bind_unit_ret (m : M unit) s : bind m (λ _, ret tt) s = m s.
Proof. unfold bind. by destruct (m s) as [[] ?| |]. Qed.

Lemma processOptions_app f l1 l2 s :
  processOptions f (l1 ++ l2) s = bind (processOptions f l1) (λ _, processOptions f l2) s.
Proof.
  revert s. induction l1 as [|a l1 IH]; intros s; [reflexivity |].
  change (processOptions f ((a :: l1) ++ l2) s)
    with (bind (f a) (λ _, processOptions f (l1 ++ l2)) s).
  change (processOptions f (a :: l1)) with (bind (f a) (λ _, processOptions f l1)).
  rewrite bind_assoc. unfold bind at 1 2.
  destruct (f a s) as [[] s1| |]; [apply IH | done | done].
Qed.

(** [processOption] on an option is the loop over its expansion. *)
Lemma processOption_expand o :
  ∀ s, processOption o s = processOptions processOption (expandOption o) s.
Proof.
  induction o as [|l IH| | | | | | | | | |] using Option_nested_ind; intros s;
    try (symmetry; apply (bind_unit_ret (processOption _) s)); try reflexivity.
  change (processOptions processOption l s
          = processOptions processOption (expandOptions l) s).
  revert s. induction IH as [|a l Ha _ IHl]; intros s; [reflexivity |].
  rewrite expandOptions_cons, processOptions_app. simpl. unfold bind.
  rewrite <- Ha. destruct (processOption a s) as [[] s1| |]; [apply IHl | done | done].
Qed.

Lemma lookup_grant (m : list Type_) (e : gmap Type_ bool) t :
  foldr (λ t e, <[t := true]> e) e m !! t
  = if bool_decide (t ∈ m) then Some true else e !! t.
Proof.
  induction m as [|u m IH]; cbn [foldr].
  - rewrite bool_decide_eq_false_2; [done | by intros ?%elem_of_nil].
  - destruct (decide (u = t)) as [-> | Hne].
    + rewrite lookup_insert_eq, bool_decide_eq_true_2; [done | by left].
    + rewrite lookup_insert_ne, IH by done.
      destruct (decide (t ∈ m)) as [Hin | Hnin].
      * rewrite !bool_decide_eq_true_2; [done | by right | done].
      * rewrite !bool_decide_eq_false_2; [done | | done].
        intros [-> | ?]%elem_of_cons; done.
Qed.

(** The loop of [newState] over a flat list, from any state: it panics at
    the first unfiltered option or option of an unknown type, and otherwise
    sorts the options into the three fields, each in the order given. *)
Lemma processOptions_flat l :
  Forall flatOption l →
  ∀ s0,
    match processOptions processOption l s0 with
    | Ret _ s =>
        Forall (λ o, isFiltered o ≠ Some false ∧ unknownOption o = false) l
        ∧ opts s = opts s0 ++ List.filter isCoreOption l
        ∧ reporters s = reporters s0 ++ omap asReporter l
        ∧ (∀ t, exporters s !! t
                = if bool_decide (t ∈ granted l) then Some true else exporters s0 !! t)
        ∧ result s = result s0 ∧ curPath s = curPath s0 ∧ calls s = calls s0
        ∧ recChecker_ s = recChecker_ s0 ∧ dynChecker_ s = dynChecker_ s0
    | Panic msg =>
        ∃ o, o ∈ l
             ∧ ((isFiltered o = Some false
                 ∧ msg = "cannot use an unfiltered option: " +:+ Sprint o)
                ∨ (∃ tn o', o = embedded tn o' ∧ msg = "unknown option " +:+ tn))
    | Exhausted => False
    end.
Proof.
  induction 1 as [|o l Ho Hl IH]; intros s0.
  { simpl. rewrite !app_nil_r. repeat split; try done; try constructor. }
  assert (∀ s1,
    opts s1 = opts s0 ++ List.filter isCoreOption [o] →
    reporters s1 = reporters s0 ++ omap asReporter [o] →
    (∀ t, exporters s1 !! t
          = if bool_decide (t ∈ granted [o]) then Some true else exporters s0 !! t) →
    result s1 = result s0 → curPath s1 = curPath s0 → calls s1 = calls s0 →
    recChecker_ s1 = recChecker_ s0 → dynChecker_ s1 = dynChecker_ s0 →
    isFiltered o ≠ Some false → unknownOption o = false →
    match processOptions processOption l s1 with
    | Ret _ s =>
        Forall (λ o, isFiltered o ≠ Some false ∧ unknownOption o = false) (o :: l)
        ∧ opts s = opts s0 ++ List.filter isCoreOption (o :: l)
        ∧ reporters s = reporters s0 ++ omap asReporter (o :: l)
        ∧ (∀ t, exporters s !! t
                = if bool_decide (t ∈ granted (o :: l)) then Some true
                  else exporters s0 !! t)
        ∧ result s = result s0 ∧ curPath s = curPath s0 ∧ calls s = calls s0
        ∧ recChecker_ s = recChecker_ s0 ∧ dynChecker_ s = dynChecker_ s0
    | Panic msg =>
        ∃ o', o' ∈ o :: l
              ∧ ((isFiltered o' = Some false
                  ∧ msg = "cannot use an unfiltered option: " +:+ Sprint o')
                 ∨ (∃ tn o'', o' = embedded tn o'' ∧ msg = "unknown option " +:+ tn))
    | Exhausted => False
    end) as Hstep.
  { intros s1 Ho1 Hr1 He1 Hres1 Hp1 Hc1 Hrc1 Hdc1 Hf Hk. specialize (IH s1).
    destruct (processOptions processOption l s1) as [[] s| |]; [| | done].
    - destruct IH as (HF & Ho2 & Hr2 & He2 & Hres2 & Hp2 & Hc2 & Hrc2 & Hdc2).
      split; [by constructor |].
      split.
      { rewrite Ho2, Ho1, <- app_assoc. f_equal.
        change (o :: l) with ([o] ++ l). by rewrite List.filter_app. }
      split.
      { rewrite Hr2, Hr1, <- app_assoc. f_equal.
        change (o :: l) with ([o] ++ l). by rewrite omap_app. }
      split; [| repeat split; congruence].
      intros t. rewrite He2, He1.
      change (granted (o :: l))
        with (match o with visibleStructs m => m | _ => [] end ++ granted l).
      change (granted [o])
        with (match o with visibleStructs m => m | _ => [] end ++ []).
      rewrite app_nil_r.
      destruct (decide (t ∈ granted l)) as [Hin | Hnin].
      + rewrite !bool_decide_eq_true_2; [done | | done]. apply elem_of_app. by right.
      + rewrite (bool_decide_eq_false_2 _ Hnin).
        destruct (decide (t ∈ match o with visibleStructs m => m | _ => [] end))
          as [Hin' | Hnin'].
        * rewrite !bool_decide_eq_true_2; [done | | done]. apply elem_of_app. by left.
        * rewrite !bool_decide_eq_false_2; [done | | done].
          intros [?|?]%elem_of_app; done.
    - destruct IH as (o' & Hin & Hwhy). exists o'. split; [by right | done]. }
  assert (∀ t, (if bool_decide (t ∈ []) then Some true else exporters s0 !! t)
               = exporters s0 !! t) as Hnil.
  { intros t. rewrite bool_decide_eq_false_2; [done | by intros ?%elem_of_nil]. }
  destruct o; try done; simpl; unfold bind.
  - (* pathFilter *) apply Hstep; simpl; rewrite ?app_nil_r; try done.
  - apply Hstep; simpl; rewrite ?app_nil_r; try done.
  - (* ignore *) exists ignore. split; [by left | by left].
  - apply Hstep; simpl; rewrite ?app_nil_r; try done.
  - apply Hstep; simpl; rewrite ?app_nil_r; try done.
  - (* Transformer *)
    destruct (bool_decide (tr_typ tr ≠ None)) eqn:Hty; simpl.
    + apply Hstep; simpl; rewrite ?app_nil_r; try done. by rewrite Hty.
    + exists (Transformer tr). split; [by left |]. left. simpl. by rewrite Hty.
  - destruct (bool_decide (cm_typ cm ≠ None)) eqn:Hty; simpl.
    + apply Hstep; simpl; rewrite ?app_nil_r; try done. by rewrite Hty.
    + exists (Comparer cm). split; [by left |]. left. simpl. by rewrite Hty.
  - (* visibleStructs *)
    apply Hstep; simpl; rewrite ?app_nil_r; try done.
    intros t. apply lookup_grant.
  - (* reporter *)
    apply Hstep; simpl; rewrite ?app_nil_r; try done.
  - (* embedded *)
    exists (embedded typeName o). split; [by left |]. right. eauto.
Qed.

Lemma newState_expand os :
  newState os = processOptions processOption (expandOptions os) emptyState.
Proof. unfold newState. apply (processOption_expand (Options os) emptyState). Qed.

(** X4: [newState] panics exactly when the option list, every [Options]
    expanded, holds an option that says it is not filtered (an [Ignore], or
    a Transformer or Comparer of the empty interface) or an option of a type
    the switch of [processOption] does not know, the [default] case; and it
    never runs out of fuel. *)
Theorem newState_panics_iff_unfiltered (os : list Option) :
  ((∃ msg, newState os = Panic msg)
   ↔ Exists (λ o, isFiltered o = Some false ∨ unknownOption o = true) (expandOptions os))
  ∧ newState os ≠ Exhausted.
Proof.
  rewrite newState_expand.
  pose proof (processOptions_flat (expandOptions os) (expandOption_flat _) emptyState) as H.
  destruct (processOptions processOption (expandOptions os) emptyState) as [[] s| |];
    [| | done].
  - destruct H as (HF & _). split; [| done]. split; [by intros (? & ?) |].
    intros (o & Hin & Hunf)%Exists_exists.
    rewrite Forall_forall in HF. destruct (HF o Hin) as [Hf Hk].
    destruct Hunf as [Hunf | Hunf]; [done | by rewrite Hk in Hunf].
  - destruct H as (o & Hin & Hwhy). split; [| done]. split; [| eauto].
    intros _. apply Exists_exists. exists o. split; [exact Hin |].
    destruct Hwhy as [[Hunf _] | (tn & o' & -> & _)]; [by left | by right].
Qed.

(** X5: when [newState] returns, [s.opts] is the validator followed by the
    core options of the expanded list, [s.reporters] its reporters and
    [s.exporters] the union of its visibility grants, each in the order
    given; the tallies, the path and the checkers are zero. *)
Theorem newState_sorts_the_options (os : list Option) (s : state) :
  newState os = Ret tt s →
  opts s = validator :: List.filter isCoreOption (expandOptions os)
  ∧ reporters s = omap asReporter (expandOptions os)
  ∧ (∀ t, exporters s !! t
          = if bool_decide (t ∈ granted (expandOptions os)) then Some true else None)
  ∧ result s = diff.zero ∧ curPath s = [] ∧ calls s = []
  ∧ recChecker_ s = {| rc_next := 0 |} ∧ dynChecker_ s = {| curr := 0; next := 0 |}.
Proof.
  rewrite newState_expand. intros Hrun.
  pose proof (processOptions_flat (expandOptions os) (expandOption_flat _) emptyState) as H.
  rewrite Hrun in H.
  destruct H as (_ & Ho & Hr & He & Hres & Hp & Hc & Hrc & Hdc).
  repeat split; try done.
Qed.

(** ** report: one verdict for every leaf *)

(** X6: called as compare.go calls it, with neither [reportEqual] nor
    [reportUnequal] set by the caller, [report] hands every reporter one
    flag word in which exactly one of the three verdicts equal, unequal and
    ignored is set; an ignored leaf is not tallied, every other leaf is
    tallied once, as same or as different. *)
Theorem report_gives_one_verdict (eq : bool) (rf : Z) (s : state) :
  Z.land rf 3 = 0 →
  ∃ rf' s',
    report eq rf s = Ret tt s'
    ∧ calls s' = calls s ++ ((λ r, (r, CallReport rf')) <$> reporters s)
    ∧ ((Z.land rf' 7 = reportIgnored ∧ result s' = result s)
       ∨ (Z.land rf' 7 = reportEqual ∧ eq = true
          ∧ diff.NumSame (result s') = int_add (diff.NumSame (result s)) 1
          ∧ diff.NumDiff (result s') = diff.NumDiff (result s))
       ∨ (Z.land rf' 7 = reportUnequal ∧ eq = false
          ∧ diff.NumSame (result s') = diff.NumSame (result s)
          ∧ diff.NumDiff (result s') = int_add (diff.NumDiff (result s)) 1)).
Proof.
  intros Hrf.
  assert (Z.land rf 7 = Z.land rf 4) as H7.
  { change 7 with (Z.lor 4 3). by rewrite Z.land_lor_distr_r, Hrf, Z.lor_0_r. }
  assert (Z.land rf 4 = 0 ∨ Z.land rf 4 = 4) as H4.
  { change 4 with (Z.land 7 4). rewrite Z.land_assoc.
    change 7 with (Z.ones 3). rewrite Z.land_ones by lia.
    pose proof (Z.mod_pos_bound rf (2 ^ 3) ltac:(lia)) as Hb.
    assert (rf mod 2 ^ 3 = 0 ∨ rf mod 2 ^ 3 = 1 ∨ rf mod 2 ^ 3 = 2 ∨ rf mod 2 ^ 3 = 3
            ∨ rf mod 2 ^ 3 = 4 ∨ rf mod 2 ^ 3 = 5 ∨ rf mod 2 ^ 3 = 6 ∨ rf mod 2 ^ 3 = 7)
      as Hc by lia.
    destruct Hc as [-> | [-> | [-> | [-> | [-> | [-> | [-> | ->]]]]]]];
      (by left) || (by right). }
  unfold report, bind, gets, emit, modify, ret, reportIgnored.
  destruct (Z.land rf 4 =? 0) eqn:Hig.
  - apply Z.eqb_eq in Hig. rewrite Hig in H7. destruct eq.
    + eexists _, _. split; [reflexivity |]. split; [reflexivity |].
      right; left. simpl. repeat split.
      unfold reportEqual. by rewrite Z.land_lor_distr_l, H7.
    + eexists _, _. split; [reflexivity |]. split; [reflexivity |].
      right; right. simpl. repeat split.
      unfold reportUnequal. by rewrite Z.land_lor_distr_l, H7.
  - apply Z.eqb_neq in Hig.
    eexists _, _. split; [reflexivity |]. split; [reflexivity |].
    left. split; [| reflexivity]. rewrite H7. by destruct H4.
Qed.

(** ** Equal at a leaf *)

(** One call of [compareAny], laid out: the push and the reporters'
    [PushStep], the check of the path, the three rules, then the deferred
    [PopStep]s and the pop. *)
Lemma compareAny_S W fuel step s :
  compareAny W (S fuel) step s =
  let s1 := set_calls (calls s ++ ((λ r, (r, CallPushStep step)) <$> reporters s))
              (set_curPath (push (curPath s) step) s) in
  match Check (push (curPath s) step) s1 with
  | Ret _ s2 =>
      match (b <- tryOptions W (compareAny W fuel) (step_Type step)
                    (step_Values step).1 (step_Values step).2 ;;
             if b then ret tt
             else
               b <- tryMethod W (step_Type step) (step_Values step).1 (step_Values step).2 ;;
               if b then ret tt
               else compareKind W (compareAny W fuel) (step_Type step)
                      (step_Values step).1 (step_Values step).2) s2 with
      | Ret _ s3 =>
          Ret tt (set_curPath (pop (curPath s3))
                    (set_calls (calls s3 ++ ((λ r, (r, CallPopStep)) <$> rev (reporters s)))
                       s3))
      | Panic msg => Panic msg
      | Exhausted => Exhausted
      end
  | Panic msg => Panic msg
  | Exhausted => Exhausted
  end.
Proof.
  cbn [compareAny]. unfold compareAny_body.
  unfold bind at 1. unfold modify at 1.
  unfold bind at 1. unfold gets at 1.
  unfold bind at 1. unfold emit, modify at 1.
  unfold bind at 1. unfold gets at 1.
  unfold bind at 1. cbv zeta. cbn [curPath set_calls set_curPath reporters calls].
  destruct (Check _ _) as [[] s2| |]; [| done | done].
  unfold bind at 1.
  match goal with |- context [bind ?m ?k s2] => destruct (bind m k s2) as [[] s3| |] end;
    reflexivity.
Qed.

(** A path shorter than the checker's threshold passes the check. *)
Lemma Check_short p s :
  len p < threshold s → Check p s = Ret tt (set_recChecker {| rc_next := threshold s |} s).
Proof.
  intros Hlt. unfold Check. fold (threshold s).
  by rewrite (proj2 (Z.ltb_lt _ _) Hlt).
Qed.

Lemma threshold_emptyState_root step :
  len (push [] step) < threshold (set_calls [] (set_curPath (push [] step) emptyState)).
Proof. reflexivity. Qed.

(** X7: two values of different dynamic types are unequal: [Equal] wraps
    them in the empty interface, no option and no method applies there, and
    rule 3 reports the mismatch of the types without looking at the
    values. *)
Theorem Equal_false_on_different_types W (fuel : nat) (tx ty : Type_) (dx dy : Value) :
  Kind W emptyInterface = reflect.Interface →
  MethodEqual W emptyInterface = None →
  tx ≠ ty →
  Equal W (S fuel) (Some (tx, dx)) (Some (ty, dy)) [] = Returns false.
Proof.
  intros HK HM Hne. unfold Equal, traverse.
  change (newState []) with (Ret tt emptyState).
  unfold rootStep. rewrite (bool_decide_eq_false_2 _ Hne).
  rewrite compareAny_S. cbv zeta.
  change (reporters emptyState) with (@nil reporterOption).
  change (calls emptyState ++ _) with (@nil (reporterOption * Event)).
  change (curPath emptyState) with (@nil PathStep).
  rewrite Check_short by apply threshold_emptyState_root.
  unfold bind at 1.
  rewrite tryOptions_validator_only; [| reflexivity | reflexivity | reflexivity | reflexivity].
  unfold bind at 1. unfold tryMethod.
  change (step_Type _) with emptyInterface. rewrite HM.
  unfold compareKind. rewrite HK.
  cbn [step_Values step_pathStep vx vy fst snd].
  unfold bind, must, ret. cbn [rv.IsNil].
  rewrite !bool_decide_eq_false_2 by done. cbn [orb negb].
  reflexivity.
Qed.

(** The three rules of [compareAny], between the push and the pop. *)
Definition rules (W : World) (fuel : nat) (step : PathStep) : M unit :=
  b <- tryOptions W (compareAny W fuel) (step_Type step)
         (step_Values step).1 (step_Values step).2 ;;
  if b then ret tt
  else
    b <- tryMethod W (step_Type step) (step_Values step).1 (step_Values step).2 ;;
    if b then ret tt
    else compareKind W (compareAny W fuel) (step_Type step)
           (step_Values step).1 (step_Values step).2.

(** The state in which the rules run at the root, with the options [o] and
    no reporter. *)
Definition rootState (o : list Option) (step : PathStep) : state :=
  {| result := diff.zero; curPath := [step]; reporters := [];
     recChecker_ := {| rc_next := minLen |};
     dynChecker_ := {| curr := 0; next := 0 |};
     exporters := ∅; opts := o; calls := [] |}.

Lemma Equal_at_root W fuel x y os o :
  newState os = Ret tt (set_opts o emptyState) →
  Equal W (S fuel) x y os
  = match rules W fuel (rootStep x y) (rootState o (rootStep x y)) with
    | Ret _ s => Returns (diff.Equal (result s))
    | Panic msg => Panics msg
    | Exhausted => OutOfFuel
    end.
Proof.
  intros Hnew. unfold Equal, traverse. rewrite Hnew.
  rewrite compareAny_S. cbv zeta.
  rewrite Check_short by reflexivity.
  change (set_recChecker _ _) with (rootState o (rootStep x y)).
  fold (rules W fuel (rootStep x y)).
  by destruct (rules W fuel (rootStep x y) (rootState o (rootStep x y))) as [[] s| |].
Qed.

Lemma rootStep_same t dx dy :
  rootStep (Some (t, dx)) (Some (t, dy)) = Root {| typ := t; vx := dx; vy := dy |}.
Proof. unfold rootStep. by rewrite bool_decide_eq_true_2. Qed.

Lemma rootStep_Root x y : ∃ ps, rootStep x y = Root ps.
Proof.
  unfold rootStep. destruct x as [[tx dx]|], y as [[ty dy]|]; eauto.
  destruct (bool_decide (tx = ty)); eauto.
Qed.

(** The validator lets a node with both values present pass, unless it is
    a field that may not be read. *)
Lemma tryOptions_validator_then W rec t vx vy (o : list Option) s :
  opts s = validator :: o →
  rv.IsValid vx = true → rv.IsValid vy = true →
  forbidden (curPath s) = false →
  tryOptions W rec t vx vy s
  = (opt <- Options_filter_loop (λ opt, Option_filter W opt vx vy t) o Nil ;;
     match opt with
     | Nil => ret false
     | _ => Option_apply W rec opt vx vy ;;; ret true
     end) s.
Proof.
  intros Ho Hx Hy Hf. unfold tryOptions, Options_filter.
  unfold bind at 1. unfold gets at 1. rewrite Ho.
  cbn [Option_filter Options_filter_loop].
  unfold bind at 1. unfold bind at 1.
  unfold validator_filter, bind, gets. rewrite Hx, Hy, Hf. reflexivity.
Qed.

(** The first call of a [func(T, T) bool] in a comparison is made in both
    orders. *)
Lemma callTTBFunc_first W f x y s :
  dynChecker_ s = {| curr := 0; next := 0 |} →
  callTTBFunc W f x y s
  = if Bool.eqb (call2 f y x) (call2 f x y)
    then Ret (call2 f x y) (set_dynChecker {| curr := 1; next := 1 |} s)
    else Panic ("non-deterministic or non-symmetric function detected: " +:+ f2_name f).
Proof.
  intros Hdc. unfold callTTBFunc. rewrite !sanitizeValue_id.
  unfold bind, Next. rewrite Hdc. cbn [dynChecker_Next curr next].
  change (0 =? 0) with true. cbv iota beta zeta. cbn [negb fst snd].
  by destruct (Bool.eqb (call2 f y x) (call2 f x y)).
Qed.

(** X8: with no option given, a type's Equal method decides: [Equal]
    returns what the method returns.  The method is called in both orders,
    this being the first user function called, and [Equal] panics if the two
    answers differ. *)
Theorem Equal_uses_the_Equal_method W (fuel : nat) (t : Type_) (dx dy : Value) (m : Func2) :
  MethodEqual W t = Some m →
  rv.IsValid dx = true → rv.IsValid dy = true →
  Equal W (S fuel) (Some (t, dx)) (Some (t, dy)) []
  = if Bool.eqb (call2 m dy dx) (call2 m dx dy) then Returns (call2 m dx dy)
    else Panics ("non-deterministic or non-symmetric function detected: " +:+ f2_name m).
Proof.
  intros HM Hx Hy.
  rewrite (Equal_at_root W fuel _ _ [] [validator]) by reflexivity.
  rewrite rootStep_same. unfold rules.
  cbn [step_Type step_Values step_pathStep typ vx vy fst snd].
  unfold bind at 1.
  rewrite tryOptions_validator_only; [| reflexivity | exact Hx | exact Hy | reflexivity].
  unfold bind at 1. unfold tryMethod. rewrite HM.
  unfold bind at 1. rewrite callTTBFunc_first by reflexivity.
  destruct (Bool.eqb (call2 m dy dx) (call2 m dx dy)); [| reflexivity].
  by destruct (call2 m dx dy).
Qed.

(** X9: options come before methods.  A Comparer whose parameter type the
    node's type is assignable to decides the node, whatever Equal method
    the type has: [Equal] returns what the comparer returns, called in both
    orders. *)
Theorem Comparer_precedes_Equal_method W (fuel : nat) (t : Type_) (dx dy : Value)
    (cm : comparer) :
  cm_typ cm ≠ None →
  typeMatches W (cm_typ cm) t = true →
  rv.IsValid dx = true → rv.IsValid dy = true →
  Equal W (S fuel) (Some (t, dx)) (Some (t, dy)) [Comparer cm]
  = if Bool.eqb (call2 (cm_fnc cm) dy dx) (call2 (cm_fnc cm) dx dy)
    then Returns (call2 (cm_fnc cm) dx dy)
    else Panics ("non-deterministic or non-symmetric function detected: "
                 +:+ f2_name (cm_fnc cm)).
Proof.
  intros Hty Hmatch Hx Hy.
  rewrite (Equal_at_root W fuel _ _ [Comparer cm] [validator; Comparer cm]).
  2:{ unfold newState. cbn [processOptions processOption isFiltered]. unfold bind.
      by rewrite (bool_decide_eq_true_2 _ Hty). }
  rewrite rootStep_same. unfold rules.
  cbn [step_Type step_Values step_pathStep typ vx vy fst snd].
  unfold bind at 1.
  rewrite (tryOptions_validator_then _ _ _ _ _ [Comparer cm]);
    [| reflexivity | exact Hx | exact Hy | reflexivity].
  cbn [Options_filter_loop Option_filter]. rewrite Hmatch.
  unfold bind at 1. unfold bind at 1. unfold bind at 1. unfold ret at 1. unfold ret at 1.
  cbn [Option_apply]. unfold comparer_apply.
  unfold bind at 1. unfold bind at 1. rewrite callTTBFunc_first by reflexivity.
  destruct (Bool.eqb _ _); [| reflexivity].
  by destruct (call2 (cm_fnc cm) dx dy).
Qed.

(** X10: an Ignore whose path filter accepts the root makes [Equal]
    return true, whatever the two values are, nil and values of different
    types included. *)
Theorem Ignore_at_root_makes_Equal_true W (fuel : nat) (x y : option (Type_ * Value))
    (f : Path → bool) (fname : string) :
  f [rootStep x y] = true →
  Equal W (S fuel) x y [pathFilter f fname ignore] = Returns true.
Proof.
  intros Hf.
  rewrite (Equal_at_root W fuel _ _ _ [validator; pathFilter f fname ignore]) by reflexivity.
  unfold rules. unfold bind at 1. unfold tryOptions, Options_filter.
  unfold bind at 1. unfold gets at 1. cbn [opts rootState].
  cbn [Option_filter Options_filter_loop].
  unfold bind at 1. unfold bind at 1.
  assert (∃ r, validator_filter (step_Values (rootStep x y)).1 (step_Values (rootStep x y)).2
                 (rootState [validator; pathFilter f fname ignore] (rootStep x y))
               = Ret r (rootState [validator; pathFilter f fname ignore] (rootStep x y))
               ∧ (r = Nil ∨ r = validator)) as (r & -> & Hr).
  { unfold validator_filter, bind, gets. destruct (_ || _); [eauto |].
    destruct (forbidden _); eauto. }
  destruct Hr as [-> | ->];
    unfold bind at 1; unfold bind at 1; unfold gets at 1;
    cbn [curPath rootState]; rewrite Hf; reflexivity.
Qed.

(** X11: a nil slice is equal to a nil slice and to no other slice, an
    empty one included; and so for maps. *)
Theorem nil_equals_only_nil W (fuel : nat) (t : Type_) :
  MethodEqual W t = None →
  (Kind W t = reflect.Slice →
   ∀ ex ey, ex = None ∨ ey = None →
     Equal W (S fuel) (Some (t, VSlice ex)) (Some (t, VSlice ey)) []
     = Returns (bool_decide (ex = None) && bool_decide (ey = None)))
  ∧ (Kind W t = reflect.Map →
     ∀ ex ey, ex = None ∨ ey = None →
       Equal W (S fuel) (Some (t, VMap ex)) (Some (t, VMap ey)) []
       = Returns (bool_decide (ex = None) && bool_decide (ey = None))).
Proof.
  intros HM. split; intros HK ex ey Hnil;
    rewrite (Equal_at_root W fuel _ _ [] [validator]) by reflexivity;
    rewrite rootStep_same; unfold rules;
    cbn [step_Type step_Values step_pathStep typ vx vy fst snd];
    unfold bind at 1;
    (rewrite tryOptions_validator_only; [| reflexivity | reflexivity | reflexivity | reflexivity]);
    unfold bind at 1; unfold tryMethod; rewrite HM;
    unfold compareKind; rewrite HK; unfold compareMap;
    unfold bind, must, ret; cbn [rv.IsNil];
    destruct Hnil as [-> | ->].
  - rewrite (bool_decide_eq_true_2 (None = None)) by done. cbn [orb andb].
    by destruct (bool_decide (ey = None)).
  - rewrite (bool_decide_eq_true_2 (None = None)) by done. rewrite orb_true_r.
    by destruct (bool_decide (ex = None)).
  - rewrite (bool_decide_eq_true_2 (None = None)) by done. cbn [orb andb].
    by destruct (bool_decide (ey = None)).
  - rewrite (bool_decide_eq_true_2 (None = None)) by done. rewrite orb_true_r.
    by destruct (bool_decide (ex = None)).
Qed.

(** X12: [Equal] is not reflexive on floats: a NaN is unequal to every
    float, itself included. *)
Theorem Equal_false_on_NaN W (fuel : nat) (t : Type_) (a b : Z) :
  Kind W t = reflect.Float64 ∨ Kind W t = reflect.Float32 →
  MethodEqual W t = None →
  float64.IsNaN a = true ∨ float64.IsNaN b = true →
  Equal W (S fuel) (Some (t, VFloat a)) (Some (t, VFloat b)) [] = Returns false.
Proof.
  intros HK HM Hnan.
  assert (float64.eq a b = false) as Heq.
  { unfold float64.eq. destruct Hnan as [-> | ->].
    - reflexivity.
    - change (negb true) with false. by rewrite andb_false_r. }
  rewrite (Equal_at_root W fuel _ _ [] [validator]) by reflexivity.
  rewrite rootStep_same. unfold rules.
  cbn [step_Type step_Values step_pathStep typ vx vy fst snd].
  unfold bind at 1.
  rewrite tryOptions_validator_only; [| reflexivity | reflexivity | reflexivity | reflexivity].
  unfold bind at 1. unfold tryMethod. rewrite HM.
  unfold compareKind.
  destruct HK as [-> | ->]; unfold bind, must, ret; cbn [rv.Float_]; rewrite Heq; reflexivity.
Qed.

(** ** compare.go: blank fields are not visited *)

(** The list [l] with the index of each element, counting from [i]. *)
Fixpoint indexed {A} (i : nat) (l : list A) : list (nat * A) :=
  match l with
  | [] => []
  | a :: l' => (i, a) :: indexed (S i) l'
  end.
Definition isBlank (f : reflect.StructField) : bool :=
  bool_decide (reflect.Name f = "_").
(** The fields of [t] that are not blank, each with its index. *)
Definition namedFields (W : World) (t : Type_) : list (nat * reflect.StructField) :=
  List.filter (λ jf, negb (isBlank jf.2)) (indexed 0 (Fields W t)).

(** The specification's side of the comparison with [compareStruct],
    written from its words: "every field whose name is the blank
    identifier is skipped entirely".  [compareNamed] walks the fields [jfs]
    it is given, each handed to [compareAny] in the step compare.go builds
    for a field; run on [namedFields], no blank field is part of the
    walk. *)
Fixpoint compareNamed (W : World) (rec : PathStep → M unit) (t : Type_)
    (vx vy : Value) (jfs : list (nat * reflect.StructField)) (mf : bool) : M unit :=
  match jfs with
  | [] => ret tt
  | (j, f) :: jfs' =>
      fx <- must (rv.Field vx j) "Field" ;;
      fy <- must (rv.Field vy j) "Field" ;;
      let unexp := negb (isExported W (reflect.Name f)) in
      mf' <- (if unexp
              then e <- gets exporters ;; ret (default false (e !! t))
              else ret mf) ;;
      rec (StructField
             {| sf_step := {| typ := reflect.Typ f; vx := fx; vy := fy |};
                name := reflect.Name f; idx := j;
                unexported := unexp; mayForce := mf' |}) ;;;
      compareNamed W rec t vx vy jfs' mf'
  end.

Lemma agreeOffBlank_length fs vs vs' :
  agreeOffBlank fs vs vs' → length vs = length fs ∧ length vs' = length fs.
Proof. induction 1; simpl; lia. Qed.

Lemma compareStruct_loop_named W rec t xs ys fs :
  ∀ i mf s,
    (i + length fs ≤ length xs)%nat → (i + length fs ≤ length ys)%nat →
    compareStruct_loop W rec t (VStruct xs) (VStruct ys) fs i mf s
    = compareNamed W rec t (VStruct xs) (VStruct ys)
        (List.filter (λ jf, negb (isBlank jf.2)) (indexed i fs)) mf s.
Proof.
  induction fs as [|f fs IH]; intros i mf s Hx Hy; [reflexivity |].
  simpl in Hx, Hy.
  destruct (lookup_lt_is_Some_2 xs i ltac:(lia)) as [x Lx].
  destruct (lookup_lt_is_Some_2 ys i ltac:(lia)) as [y Ly].
  assert (∀ mf' s', compareStruct_loop W rec t (VStruct xs) (VStruct ys) fs (S i) mf' s'
                    = compareNamed W rec t (VStruct xs) (VStruct ys)
                        (List.filter (λ jf, negb (isBlank jf.2)) (indexed (S i) fs)) mf' s')
    as IH'.
  { intros mf' s'. apply IH; lia. }
  destruct f as [nm ty].
  cbn [compareStruct_loop indexed List.filter snd]. unfold isBlank at 1.
  cbn [reflect.Name reflect.Typ].
  unfold bind at 1. unfold must at 1. cbn [rv.Field]. rewrite Lx.
  unfold ret at 1. unfold bind at 1. unfold must at 1. cbn [rv.Field]. rewrite Ly.
  unfold ret at 1.
  destruct (decide (nm = "_")) as [-> | Hnb].
  - rewrite isExported_blank. apply IH'.
  - rewrite (bool_decide_eq_false_2 _ Hnb). rewrite andb_false_r. cbn [negb].
    cbn [compareNamed reflect.Name reflect.Typ].
    unfold bind at 3. unfold must at 1. cbn [rv.Field]. rewrite Lx.
    unfold ret at 2. unfold bind at 3. unfold must at 1. cbn [rv.Field]. rewrite Ly.
    unfold ret at 2. cbv zeta.
    unfold bind, gets, ret.
    destruct (negb (isExported W nm));
      (destruct (rec _ s) as [[] s2| |]; [apply IH' | reflexivity | reflexivity]).
Qed.

Lemma namedFields_all_blank W t :
  Forall (λ f, reflect.Name f = "_") (Fields W t) → namedFields W t = [].
Proof.
  unfold namedFields. generalize 0%nat.
  induction (Fields W t) as [|f fs IH]; intros i Hall; [reflexivity |].
  apply Forall_cons in Hall as [Hf Hall]. cbn [indexed List.filter snd].
  unfold isBlank at 1. rewrite (bool_decide_eq_true_2 _ Hf). cbn [negb]. by apply IH.
Qed.

(** The kinds of the signed integers. *)
Definition isIntKind (k : reflect.Kind) : bool :=
  match k with
  | reflect.Int | reflect.Int8 | reflect.Int16 | reflect.Int32 | reflect.Int64 => true
  | _ => false
  end.

(** A field that is blank, or exported and of a signed integer type with no
    Equal method. *)
Definition blankOrInt (W : World) (f : reflect.StructField) : Prop :=
  reflect.Name f = "_"
  ∨ (isExported W (reflect.Name f) = true
     ∧ isIntKind (Kind W (reflect.Typ f)) = true
     ∧ MethodEqual W (reflect.Typ f) = None).

(** Two field lists that hold the same integer in every field that is not
    blank. *)
Inductive sameInts : list reflect.StructField → list Value → list Value → Prop :=
| sameInts_nil : sameInts [] [] []
| sameInts_cons f fs v v' vs vs' :
    reflect.Name f = "_" ∨ (∃ a, v = VInt a ∧ v' = VInt a) →
    sameInts fs vs vs' →
    sameInts (f :: fs) (v :: vs) (v' :: vs').

Lemma agreeOffBlank_sameInts fs zs xs ys :
  agreeOffBlank fs zs xs → agreeOffBlank fs zs ys →
  Forall2 (λ f v, reflect.Name f = "_" ∨ ∃ a, v = VInt a) fs zs →
  sameInts fs xs ys.
Proof.
  intros Hx. revert ys. induction Hx as [| f fs z x zs xs Hfx Hxs IH]; intros ys Hy Hz.
  - inversion Hy. constructor.
  - inversion Hy as [| f0 fs0 z0 y zs0 ys0 Hfy Hys]; subst.
    apply Forall2_cons in Hz as [Hf Hz].
    constructor; [| by apply IH].
    destruct Hf as [Hb | (a & ->)]; [by left |].
    destruct Hfx as [Hb | <-]; [by left |]. destruct Hfy as [Hb | <-]; [by left |].
    right. eauto.
Qed.

(** The state of [Equal], given no option, while it walks the fields of a
    struct at the root, [n] leaves found the same so far. *)
Definition fieldState (root : PathStep) (n : Z) : state :=
  set_result {| diff.NumSame := n; diff.NumDiff := 0 |} (rootState [validator] root).

Lemma compareAny_same_ints W fuel root ty nm i mf a n :
  isExported W nm = true → isIntKind (Kind W ty) = true → MethodEqual W ty = None →
  compareAny W (S fuel)
    (StructField {| sf_step := {| typ := ty; vx := VInt a; vy := VInt a |};
                    name := nm; idx := i; unexported := negb (isExported W nm);
                    mayForce := mf |})
    (fieldState root n)
  = Ret tt (fieldState root (int_add n 1)).
Proof.
  intros Hexp HK HM. rewrite compareAny_S. cbv zeta.
  rewrite Check_short by reflexivity.
  unfold bind at 1.
  rewrite tryOptions_validator_only; [| reflexivity | reflexivity | reflexivity |].
  2:{ unfold forbidden, push. cbn [curPath set_calls set_curPath set_recChecker fieldState
                                     set_result rootState]. rewrite last_snoc.
      cbn [unexported]. by rewrite Hexp. }
  unfold bind at 1. unfold tryMethod.
  cbn [step_Type step_Values step_pathStep sf_step typ vx vy fst snd]. rewrite HM.
  unfold compareKind.
  destruct (Kind W ty); try discriminate HK;
    unfold bind, must, ret, report, gets, emit, modify; cbn [rv.Int_];
    rewrite (Z.eqb_refl a); reflexivity.
Qed.

Lemma compareStruct_loop_same_ints W fuel root t xs ys fs :
  Forall (blankOrInt W) fs →
  ∀ i mf n,
    sameInts fs (drop i xs) (drop i ys) →
    ∃ n', compareStruct_loop W (compareAny W (S fuel)) t (VStruct xs) (VStruct ys) fs i mf
            (fieldState root n)
          = Ret tt (fieldState root n').
Proof.
  induction 1 as [|f fs Hf Hfs IH]; intros i mf n Hsame; [by exists n |].
  inversion Hsame as [| f0 fs0 x y xs0 ys0 Hxy Hrest Ef Edx Edy]; subst.
  symmetry in Edx, Edy.
  apply drop_lookup_cons in Edx as [Lx Dx], Edy as [Ly Dy].
  rewrite <- Dx, <- Dy in Hrest.
  destruct f as [nm ty]. unfold blankOrInt in Hf. cbn [reflect.Name reflect.Typ] in *.
  cbn [compareStruct_loop reflect.Name reflect.Typ].
  unfold bind at 1. unfold must at 1. cbn [rv.Field]. rewrite Lx. unfold ret at 1.
  unfold bind at 1. unfold must at 1. cbn [rv.Field]. rewrite Ly. unfold ret at 1.
  destruct (decide (nm = "_")) as [-> | Hnb].
  - rewrite isExported_blank. cbn [negb andb].
    rewrite (bool_decide_eq_true_2 ("_" = "_")) by done. by apply IH.
  - destruct Hf as [? | (Hexp & HK & HM)]; [done |].
    destruct Hxy as [? | (a & -> & ->)]; [done |].
    rewrite Hexp. cbn [negb andb].
    unfold bind at 1. unfold ret at 1. unfold bind at 1.
    pose proof (compareAny_same_ints W fuel root ty nm i mf a n Hexp HK HM) as Hleaf.
    rewrite Hexp in Hleaf. cbn [negb] in Hleaf. rewrite Hleaf.
    by apply IH.
Qed.

(** C9: [compareStruct] is the walk over the fields that are not blank: a
    field named "_" is not made into a step and not handed to [compareAny],
    so it is not compared, not reported, and not refused as an unexported
    field.  Its effect is thus the same whatever the two structs hold in
    their blank fields; a struct type whose fields are all blank is walked
    without a call, a report or a panic, the state left as it was, and
    [Equal], given no option at all, returns true on any two values of such
    a type; and so it does on two structs that differ in blank fields only,
    the other fields being exported integers: no visibility grant and no
    ignore rule is needed, whatever the types and the values of the blank
    fields. *)
Theorem compareStruct_skips_blank W (rec : PathStep → M unit) (t : Type_)
    (xs xs' ys ys' : list Value) (s : state) :
  agreeOffBlank (Fields W t) xs xs' →
  agreeOffBlank (Fields W t) ys ys' →
  compareStruct W rec t (VStruct xs') (VStruct ys') s
  = compareNamed W rec t (VStruct xs') (VStruct ys') (namedFields W t) false s
  ∧ compareStruct W rec t (VStruct xs') (VStruct ys') s
    = compareStruct W rec t (VStruct xs) (VStruct ys) s
  ∧ (Forall (λ f, reflect.Name f = "_") (Fields W t) →
     compareStruct W rec t (VStruct xs') (VStruct ys') s = Ret tt s
     ∧ (Kind W t = reflect.Struct → MethodEqual W t = None →
        ∀ fuel, Equal W (S fuel) (Some (t, VStruct xs')) (Some (t, VStruct ys')) []
                = Returns true))
  ∧ (xs = ys →
     Forall (blankOrInt W) (Fields W t) →
     Forall2 (λ f v, reflect.Name f = "_" ∨ ∃ a, v = VInt a) (Fields W t) xs →
     Kind W t = reflect.Struct → MethodEqual W t = None →
     ∀ fuel, Equal W (S (S fuel)) (Some (t, VStruct xs')) (Some (t, VStruct ys')) []
             = Returns true).
Proof.
  intros Hx Hy.
  destruct (agreeOffBlank_length _ _ _ Hx) as [_ Lx].
  destruct (agreeOffBlank_length _ _ _ Hy) as [_ Ly].
  assert (∀ rec' s', compareStruct W rec' t (VStruct xs') (VStruct ys') s'
          = compareNamed W rec' t (VStruct xs') (VStruct ys') (namedFields W t) false s')
    as Hnamed.
  { intros rec' s'. unfold compareStruct, namedFields.
    apply compareStruct_loop_named; simpl; lia. }
  split; [apply Hnamed |]. split.
  { unfold compareStruct. apply compareStruct_loop_blank; by rewrite !drop_0. }
  split.
  - intros Hall.
    assert (∀ rec' s', compareStruct W rec' t (VStruct xs') (VStruct ys') s' = Ret tt s')
      as Hnone.
    { intros rec' s'. by rewrite Hnamed, (namedFields_all_blank W t Hall). }
    split; [apply Hnone |].
    intros HK HM fuel.
    rewrite (Equal_at_root W fuel _ _ [] [validator]) by reflexivity.
    rewrite rootStep_same. unfold rules.
    cbn [step_Type step_Values step_pathStep typ vx vy fst snd].
    unfold bind at 1.
    rewrite tryOptions_validator_only; [| reflexivity | reflexivity | reflexivity | reflexivity].
    unfold bind at 1. unfold tryMethod. rewrite HM.
    unfold compareKind. rewrite HK. unfold ret at 1. by rewrite Hnone.
  - intros <- Hfs Hints HK HM fuel.
    pose proof (agreeOffBlank_sameInts _ _ _ _ Hx Hy Hints) as Hsame.
    rewrite (Equal_at_root W (S fuel) _ _ [] [validator]) by reflexivity.
    rewrite rootStep_same. unfold rules.
    cbn [step_Type step_Values step_pathStep typ vx vy fst snd].
    unfold bind at 1.
    rewrite tryOptions_validator_only; [| reflexivity | reflexivity | reflexivity | reflexivity].
    unfold bind at 1. unfold tryMethod. rewrite HM.
    unfold compareKind. rewrite HK. unfold ret at 1. unfold compareStruct.
    destruct (compareStruct_loop_same_ints W fuel
                (Root {| typ := t; vx := VStruct xs'; vy := VStruct ys' |})
                t xs' ys' (Fields W t) Hfs 0 false 0) as (n' & Hrun).
    { by rewrite !drop_0. }
    change (rootState [validator] ?r) with (fieldState r 0). by rewrite Hrun.
Qed.

(** * The calls the reporters receive

    Every reporter attached to a comparison hears the same events, and the
    events of one call of [compareAny] are well nested: a [PushStep], then
    the events of the node, each inside that pair, then the matching
    [PopStep].  The nesting is stated against report.go: a reporter that
    replays the events never indexes an empty stack and ends with the stack
    it started from. *)

(** The calls made when every reporter of [rs] is told the events [es];
    the deferred [PopStep]s run in the reverse order. *)
Definition broadcast (rs : list reporterOption) (es : list Event)
  : list (reporterOption * Event) :=
  flat_map (λ e, (λ r, (r, e)) <$> match e with CallPopStep => rev rs | _ => rs end) es.

Section Nesting.
  Context (W : World).

(** Events that a reporter standing inside a step can take. *)
Definition safe1 (es : list Event) : Prop :=
  ∀ rep, report.curVals rep ≠ [] →
    ∃ rep', replayCalls W rep es = Some rep'
            ∧ report.curVals rep' = report.curVals rep
            ∧ report.curPath rep' = report.curPath rep.

(** Events that any reporter can take. *)
Definition safe0 (es : list Event) : Prop :=
  ∀ rep,
    ∃ rep', replayCalls W rep es = Some rep'
            ∧ report.curVals rep' = report.curVals rep
            ∧ report.curPath rep' = report.curPath rep.

Lemma replayCalls_app rep es1 es2 :
  replayCalls W rep (es1 ++ es2)
  = match replayCalls W rep es1 with
    | Some rep' => replayCalls W rep' es2
    | None => None
    end.
Proof.
  revert rep. induction es1 as [|e es1 IH]; intros rep; [reflexivity |].
  simpl. destruct (report.call W rep e); [apply IH | reflexivity].
Qed.

Lemma safe0_safe1 es : safe0 es → safe1 es.
Proof. intros H rep _. apply H. Qed.

Lemma safe1_nil : safe1 [].
Proof. intros rep _. by exists rep. Qed.

Lemma safe1_app es1 es2 : safe1 es1 → safe1 es2 → safe1 (es1 ++ es2).
Proof.
  intros H1 H2 rep Hrep. destruct (H1 rep Hrep) as (rep1 & Hrun1 & Hv1 & Hp1).
  destruct (H2 rep1) as (rep2 & Hrun2 & Hv2 & Hp2); [by rewrite Hv1 |].
  exists rep2. rewrite replayCalls_app, Hrun1. repeat split; congruence.
Qed.

Lemma safe1_Report f : safe1 [CallReport f].
Proof.
  intros rep Hrep. simpl. unfold report.Report.
  destruct (f =? reportUnequal); [| by exists rep].
  destruct (last (report.curVals rep)) as [vs|] eqn:Hlast.
  - eexists. split; [reflexivity |]. unfold report.report.
    by destruct (_ && _).
  - apply last_None in Hlast. contradiction.
Qed.

Lemma safe0_PushStep_PopStep step es :
  safe1 es → safe0 (CallPushStep step :: es ++ [CallPopStep]).
Proof.
  intros Hes rep.
  destruct (Hes (report.PushStep step (step_Values step).1 (step_Values step).2 rep))
    as (rep1 & Hrun & Hv & Hp).
  { simpl. by destruct (report.curVals rep). }
  cbn [replayCalls report.call]. rewrite replayCalls_app, Hrun.
  cbn [replayCalls report.call]. unfold report.PopStep. rewrite Hv, Hp.
  cbn [report.PushStep report.curVals report.curPath].
  destruct (report.curVals rep ++ _) eqn:Hnil.
  { by destruct (report.curVals rep). }
  rewrite <- Hnil. eexists. split; [reflexivity |].
  cbn [report.curVals report.curPath]. split; [apply removelast_last | apply pop_push].
Qed.
End Nesting.

Lemma broadcast_app rs es1 es2 :
  broadcast rs (es1 ++ es2) = broadcast rs es1 ++ broadcast rs es2.
Proof. unfold broadcast. apply flat_map_app. Qed.

(** A walker is [traced P] when, on return, it has kept the frame and told
    every reporter the same events, events that satisfy [P]. *)
Definition traced (P : list Event → Prop) {A} (m : M A) : Prop :=
  ∀ s, match m s with
       | Ret _ s' =>
           frame s s' ∧ ∃ es, P es ∧ calls s' = calls s ++ broadcast (reporters s) es
       | _ => True
       end.

Lemma traced_mono (P Q : list Event → Prop) {A} (m : M A) :
  (∀ es, P es → Q es) → traced P m → traced Q m.
Proof.
  intros HPQ Hm s. specialize (Hm s). destruct (m s); [| done | done].
  destruct Hm as (Hf & es & Hes & Hc). eauto.
Qed.

Lemma traced_framed P {A} (m : M A) : traced P m → framed m.
Proof. intros Hm s. specialize (Hm s). destruct (m s); [| done | done]. apply Hm. Qed.

(** A walker that calls no reporter. *)
Definition silent {A} (m : M A) : Prop :=
  ∀ s, match m s with Ret _ s' => frame s s' ∧ calls s' = calls s | _ => True end.

Section Traced.
  Context (W : World).
  Local Abbreviation traced1 := (traced (safe1 W)).

Lemma traced_silent {A} (m : M A) : silent m → traced1 m.
Proof.
  intros Hm s. specialize (Hm s). destruct (m s); [| done | done].
  destruct Hm as [Hf Hc]. split; [exact Hf |].
  exists []. split; [apply safe1_nil |]. simpl. by rewrite app_nil_r.
Qed.

Lemma traced_bind {A B} (m : M A) (k : A → M B) :
  traced1 m → (∀ a, traced1 (k a)) → traced1 (bind m k).
Proof.
  intros Hm Hk s. unfold bind. specialize (Hm s).
  destruct (m s) as [a s1| |]; [| done | done].
  specialize (Hk a s1). destruct (k a s1) as [b s2| |]; [| done | done].
  destruct Hm as (Hf1 & es1 & Hes1 & Hc1), Hk as (Hf2 & es2 & Hes2 & Hc2).
  split; [by eapply frame_trans |].
  exists (es1 ++ es2). split; [by apply safe1_app |].
  rewrite Hc2, Hc1, (frame_reporters _ _ Hf1), broadcast_app. by rewrite app_assoc.
Qed.

Lemma traced_ret {A} (a : A) : traced1 (ret a).
Proof. apply traced_silent. intros s. split; [apply frame_refl | done]. Qed.

Lemma traced_panic {A} msg : traced1 (@panic A msg).
Proof. by intros s. Qed.

Lemma traced_exhausted {A} : traced1 (@exhausted A).
Proof. by intros s. Qed.

Lemma traced_gets {A} (f : state → A) : traced1 (gets f).
Proof. apply traced_silent. intros s. split; [apply frame_refl | done]. Qed.

Lemma traced_get : traced1 get.
Proof. apply traced_silent. intros s. split; [apply frame_refl | done]. Qed.

Lemma traced_must {A} (o : option A) what : traced1 (must o what).
Proof. destruct o; [apply traced_ret | apply traced_panic]. Qed.

Lemma traced_Next : traced1 Next.
Proof.
  apply traced_silent. intros s. unfold Next. destruct (dynChecker_Next _).
  split; [by split | done].
Qed.

Lemma traced_Check p : traced1 (Check p).
Proof.
  apply traced_silent. intros s. unfold Check.
  destruct (len p <? _); [by repeat split |].
  destruct (0 <? _); [done | by repeat split].
Qed.

Lemma traced_report eq rf : traced1 (report eq rf).
Proof.
  intros s. pose proof (framed_report eq rf s) as Hf.
  unfold report, bind, gets, emit, modify, ret in *.
  destruct (Z.land rf reportIgnored =? 0); [destruct eq |];
    (split; [exact Hf |]);
    (eexists [CallReport _]; split; [apply safe1_Report |]);
    simpl; by rewrite app_nil_r.
Qed.

Lemma traced_callTTBFunc f x y : traced1 (callTTBFunc W f x y).
Proof.
  unfold callTTBFunc. apply traced_bind; [apply traced_Next | intros ok].
  destruct ok; simpl; [| apply traced_ret].
  destruct (negb _); [apply traced_panic | apply traced_ret].
Qed.
End Traced.

Ltac traced_step :=
  lazymatch goal with
  | |- traced _ (bind _ _) => apply traced_bind; [| intros ?]
  | |- traced _ (ret _) => apply traced_ret
  | |- traced _ (panic _) => apply traced_panic
  | |- traced _ indexOutOfRange => apply traced_panic
  | |- traced _ exhausted => apply traced_exhausted
  | |- traced _ (gets _) => apply traced_gets
  | |- traced _ get => apply traced_get
  | |- traced _ (must _ _) => apply traced_must
  | |- traced _ (report _ _) => apply traced_report
  | |- traced _ Next => apply traced_Next
  | |- traced _ (Check _) => apply traced_Check
  | |- traced _ (callTTBFunc _ _ _ _) => apply traced_callTTBFunc
  | |- traced _ (if ?b then _ else _) => destruct b
  | |- traced _ (match ?x with _ => _ end) => destruct x
  | |- traced _ (let _ := _ in _) => cbv zeta
  end.
Ltac traced_auto := repeat traced_step; try (by eauto).

Lemma traced_Options_filter_loop W flt l :
  (∀ o, o ∈ l → traced (safe1 W) (flt o)) →
  ∀ out, traced (safe1 W) (Options_filter_loop flt l out).
Proof.
  induction l as [|o l IH]; intros Hflt out; simpl; [apply traced_ret |].
  assert (∀ out', traced (safe1 W) (Options_filter_loop flt l out')) as IH'.
  { apply IH. intros o' Ho'. apply Hflt. by right. }
  apply traced_bind; [apply Hflt; by left | intros r].
  destruct r; try apply IH'; try apply traced_ret; destruct out; apply IH'.
Qed.

Lemma traced_Option_filter W o vx vy t : traced (safe1 W) (Option_filter W o vx vy t).
Proof.
  induction o as [| l IH | f n o IH | ty f o IH | | | | tr | cm | | | tn o IH]
    using Option_nested_ind; simpl; try (by traced_auto).
  - apply traced_Options_filter_loop. intros o Ho.
    rewrite Forall_forall in IH. by apply IH.
  - unfold validator_filter. traced_auto.
Qed.

Lemma compareAny_body_unfold W rec step s :
  compareAny_body W rec step s =
  let s1 := set_calls (calls s ++ ((λ r, (r, CallPushStep step)) <$> reporters s))
              (set_curPath (push (curPath s) step) s) in
  match Check (push (curPath s) step) s1 with
  | Ret _ s2 =>
      match (b <- tryOptions W rec (step_Type step)
                    (step_Values step).1 (step_Values step).2 ;;
             if b then ret tt
             else
               b <- tryMethod W (step_Type step) (step_Values step).1 (step_Values step).2 ;;
               if b then ret tt
               else compareKind W rec (step_Type step)
                      (step_Values step).1 (step_Values step).2) s2 with
      | Ret _ s3 =>
          Ret tt (set_curPath (pop (curPath s3))
                    (set_calls (calls s3 ++ ((λ r, (r, CallPopStep)) <$> rev (reporters s)))
                       s3))
      | Panic msg => Panic msg
      | Exhausted => Exhausted
      end
  | Panic msg => Panic msg
  | Exhausted => Exhausted
  end.
Proof.
  unfold compareAny_body.
  unfold bind at 1. unfold modify at 1.
  unfold bind at 1. unfold gets at 1.
  unfold bind at 1. unfold emit, modify at 1.
  unfold bind at 1. unfold gets at 1.
  unfold bind at 1. cbv zeta. cbn [curPath set_calls set_curPath reporters calls].
  destruct (Check _ _) as [[] s2| |]; [| done | done].
  unfold bind at 1.
  match goal with |- context [bind ?m ?k s2] => destruct (bind m k s2) as [[] s3| |] end;
    reflexivity.
Qed.

Section Walkers_traced.
  Context (W : World) (rec : PathStep → M unit).
  Hypothesis Hrec : ∀ step, traced (safe0 W) (rec step).
  Local Abbreviation traced1 := (traced (safe1 W)).

Lemma traced_rec step : traced1 (rec step).
Proof. eapply traced_mono; [apply safe0_safe1 | apply Hrec]. Qed.

Lemma traced_statelessCompare step : traced1 (statelessCompare rec step).
Proof.
  apply traced_silent. intros s. rewrite statelessCompare_unfold.
  pose proof (Hrec step (set_reporters [] (set_result diff.zero s))) as H.
  destruct (rec step _) as [a s'| |]; [| done | done].
  destruct H as ([Hp Hr Ho He Hq] & _). simpl in *.
  split; [split; simpl; auto |]. simpl. auto.
Qed.

Lemma traced_callTRFunc f v t tr : traced1 (callTRFunc W rec f v t tr).
Proof. unfold callTRFunc. pose proof traced_statelessCompare. traced_auto. Qed.

Lemma traced_Option_apply o vx vy : traced1 (Option_apply W rec o vx vy).
Proof.
  pose proof traced_callTRFunc. pose proof traced_rec.
  destruct o; simpl; try apply traced_panic.
  - unfold Options_apply. traced_auto.
  - traced_auto.
  - unfold invalid_apply. traced_auto.
  - unfold validator_apply, invalid_apply. traced_auto.
  - unfold transformer_apply. traced_auto.
  - unfold comparer_apply. traced_auto.
Qed.

Lemma traced_tryOptions t vx vy : traced1 (tryOptions W rec t vx vy).
Proof.
  unfold tryOptions, Options_filter.
  pose proof traced_Option_apply. pose proof (traced_Option_filter W).
  apply traced_bind; [traced_auto | intros os].
  apply traced_bind; [auto | intros opt].
  destruct opt; traced_auto.
Qed.

Lemma traced_tryMethod t vx vy : traced1 (tryMethod W t vx vy).
Proof. unfold tryMethod. traced_auto. Qed.

Lemma traced_compareStruct_loop t vx vy fs :
  ∀ i mf, traced1 (compareStruct_loop W rec t vx vy fs i mf).
Proof.
  pose proof traced_rec.
  induction fs as [|f fs IH]; intros i mf; simpl; traced_auto.
Qed.

Lemma traced_withIndexes te vx vy ix iy : traced1 (withIndexes te vx vy ix iy).
Proof. unfold withIndexes. traced_auto. Qed.

Lemma traced_scanIgnored mk idxs :
  (∀ i, traced1 (mk i)) → traced1 (scanIgnored rec mk idxs).
Proof.
  intros Hmk. pose proof traced_statelessCompare.
  induction idxs as [|i idxs IH]; simpl; traced_auto.
Qed.

Lemma traced_runPlan f p : (∀ ix iy, traced1 (f ix iy)) → traced1 (runPlan f p).
Proof. intros Hf. induction p as [es | ix iy k IH]; simpl; traced_auto. Qed.

Lemma traced_replay te vx vy lx ly ignoredX ignoredY n :
  ∀ ix iy edits, traced1 (replay rec te vx vy lx ly ignoredX ignoredY n ix iy edits).
Proof.
  pose proof traced_withIndexes. pose proof traced_rec.
  induction n as [|n IH]; intros ix iy edits; simpl.
  - traced_auto.
  - destruct (_ || _); [| apply traced_ret].
    apply traced_bind; [traced_auto | intros ee].
    destruct (ee.1); traced_auto.
Qed.

Lemma traced_compareSlice t vx vy : traced1 (compareSlice W rec t vx vy).
Proof.
  unfold compareSlice. cbv zeta.
  pose proof traced_withIndexes. pose proof traced_statelessCompare.
  pose proof traced_replay.
  apply traced_bind; [traced_auto | intros lx].
  apply traced_bind; [traced_auto | intros ly].
  apply traced_bind; [apply traced_scanIgnored; auto | intros sx].
  apply traced_bind; [apply traced_scanIgnored; auto | intros sy].
  apply traced_bind; [| auto].
  apply traced_runPlan. intros ix iy. traced_auto.
Qed.

Lemma traced_compareMap_loop t vx vy ks : traced1 (compareMap_loop W rec t vx vy ks).
Proof. pose proof traced_rec. induction ks as [|k ks IH]; simpl; traced_auto. Qed.

Lemma traced_compareMap t vx vy : traced1 (compareMap W rec t vx vy).
Proof. unfold compareMap. pose proof traced_compareMap_loop. traced_auto. Qed.

Lemma traced_compareKind t vx vy : traced1 (compareKind W rec t vx vy).
Proof.
  unfold compareKind, compareStruct.
  pose proof traced_compareStruct_loop. pose proof traced_compareSlice.
  pose proof traced_compareMap. pose proof traced_rec.
  destruct (Kind W t); traced_auto.
Qed.

Lemma traced_compareAny_body step : traced (safe0 W) (compareAny_body W rec step).
Proof.
  intros s. rewrite compareAny_body_unfold. cbv zeta.
  set (inner := bind (tryOptions W rec _ _ _) _).
  assert (traced1 inner) as Hinner.
  { subst inner. pose proof traced_tryOptions. pose proof traced_tryMethod.
    pose proof traced_compareKind. traced_auto. }
  match goal with |- context [Check ?p ?s0] =>
    pose proof (traced_Check W p s0) as HC; destruct (Check p s0) as [[] s1| |] end;
    [| done | done].
  specialize (Hinner s1). destruct (inner s1) as [[] s2| |]; [| done | done].
  destruct HC as ([Hp1 Hr1 Ho1 He1 Hq1] & es1 & Hes1 & Hc1).
  destruct Hinner as ([Hp2 Hr2 Ho2 He2 Hq2] & es2 & Hes2 & Hc2).
  simpl in *. split.
  - split; simpl; try congruence.
    + rewrite Hp2, Hp1. apply pop_push.
    + intros Hnil. rewrite Hnil in *. simpl in *.
      rewrite app_nil_r, Hq2, Hq1 by congruence. by rewrite app_nil_r.
  - exists (CallPushStep step :: (es1 ++ es2) ++ [CallPopStep]). split.
    + apply safe0_PushStep_PopStep. by apply safe1_app.
    + rewrite Hc2, Hc1, Hr1.
      change (CallPushStep step :: (es1 ++ es2) ++ [CallPopStep])
        with ([CallPushStep step] ++ (es1 ++ es2) ++ [CallPopStep]).
      rewrite !broadcast_app. simpl. rewrite !app_nil_r, <- !app_assoc. reflexivity.
Qed.
End Walkers_traced.

(** The events of one call of [compareAny] are well nested. *)
Lemma traced_compareAny W fuel : ∀ step, traced (safe0 W) (compareAny W fuel step).
Proof.
  induction fuel as [|fuel IH]; intros step; simpl.
  - by intros s.
  - by apply traced_compareAny_body.
Qed.

(** A reporter attached once hears the events as they are. *)
Lemma received_app r cs1 cs2 : received r (cs1 ++ cs2) = received r cs1 ++ received r cs2.
Proof. unfold received. by rewrite filter_app, fmap_app. Qed.

Lemma filter_rev {A} (P : A → Prop) `{∀ x, Decision (P x)} (l : list A) :
  base.filter P (rev l) = rev (base.filter P l).
Proof.
  induction l as [|a l IH]; [reflexivity |].
  simpl. rewrite filter_app, IH, filter_cons.
  destruct (decide (P a)).
  - rewrite filter_cons, decide_True by done. reflexivity.
  - rewrite filter_cons, decide_False, filter_nil, app_nil_r by done. reflexivity.
Qed.

Lemma filter_none {A} (P : A → Prop) `{∀ x, Decision (P x)} (l : list A) :
  (∀ x, x ∈ l → ¬ P x) → base.filter P l = [].
Proof.
  induction l as [|a l IH]; intros Hl; [reflexivity |].
  rewrite filter_cons, decide_False by (apply Hl; by left).
  apply IH. intros x Hx. apply Hl. by right.
Qed.

Lemma received_told r rs e :
  received r ((λ r', (r', e)) <$> rs) = (λ _, e) <$> base.filter (λ r', r' = r) rs.
Proof.
  unfold received. induction rs as [|r' rs IH]; [reflexivity |].
  rewrite fmap_cons, (filter_cons (λ r', r' = r)), filter_cons.
  cbn [fst]. destruct (decide (r' = r)); simpl; [f_equal |]; exact IH.
Qed.

Lemma received_broadcast r rs es :
  base.filter (λ r', r' = r) rs = [r] → received r (broadcast rs es) = es.
Proof.
  intros Honce. induction es as [|e es IH]; [reflexivity |].
  change (broadcast rs (e :: es))
    with (((λ r', (r', e)) <$> match e with CallPopStep => rev rs | _ => rs end)
          ++ broadcast rs es).
  rewrite received_app, IH, received_told.
  assert (base.filter (λ r', r' = r) (rev rs) = [r]) as Hrev.
  { by rewrite filter_rev, Honce. }
  destruct e; by rewrite ?Honce, ?Hrev.
Qed.

(** The reporters [newState] registers are among the handles of the
    options. *)
Lemma asReporter_handles o :
  ∀ q, q ∈ omap asReporter (expandOption o) → q ∈ handles o.
Proof.
  induction o as [|l IH| | | | | | | | | |] using Option_nested_ind; intros q Hq;
    try (by apply elem_of_nil in Hq).
  - change (q ∈ omap asReporter (expandOptions l)) in Hq.
    change (q ∈ (fix each (l : list Option) : list reporterOption :=
                   match l with
                   | [] => []
                   | a :: l' => handles a ++ each l'
                   end) l).
    induction IH as [|a l Ha _ IHl]; [by apply elem_of_nil in Hq |].
    rewrite expandOptions_cons, omap_app in Hq.
    apply elem_of_app in Hq as [Hq | Hq]; apply elem_of_app; auto.
  - exact Hq.
Qed.

Lemma newReporter_fresh os s0 :
  newState os = Ret tt s0 →
  base.filter (λ r', r' = newReporter os) (reporters s0 ++ [newReporter os])
  = [newReporter os].
Proof.
  intros Hnew. rewrite newState_expand in Hnew.
  pose proof (processOptions_flat (expandOptions os) (expandOption_flat _) emptyState) as H.
  rewrite Hnew in H. destruct H as (_ & _ & Hr & _). simpl in Hr.
  rewrite filter_app, (filter_cons _ (newReporter os)), decide_True, filter_nil by done.
  rewrite filter_none; [reflexivity |].
  intros x Hx ->. rewrite Hr in Hx.
  apply (asReporter_handles (Options os)) in Hx.
  apply max_list_elem_of_le in Hx. unfold newReporter in Hx. lia.
Qed.

(** X13: the default reporter of report.go never indexes an empty stack
    under [Diff]: whenever the traversal returns, the calls the reporter
    received replay without a panic, and leave its stack of values and its
    path empty again. *)
Theorem Diff_reporter_stack_is_balanced W (fuel : nat) (x y : option (Type_ * Value))
    (os : list Option) (s : state) :
  traverse W fuel x y [Options os; reporter (newReporter os)] = Ret tt s →
  ∃ rep, replayCalls W report.new (received (newReporter os) (calls s)) = Some rep
         ∧ report.curVals rep = [] ∧ report.curPath rep = [].
Proof.
  unfold traverse. rewrite newState_with_reporter.
  destruct (newState os) as [[] s0| |] eqn:Hnew; [| done | done].
  intros Hrun.
  pose proof (traced_compareAny W fuel (rootStep x y)
                (set_reporters (reporters s0 ++ [newReporter os]) s0)) as H.
  rewrite Hrun in H. destruct H as (_ & es & Hes & Hc).
  assert (calls s0 = []) as Hc0.
  { rewrite newState_expand in Hnew.
    pose proof (processOptions_flat (expandOptions os) (expandOption_flat _) emptyState) as H.
    rewrite Hnew in H. by destruct H as (_ & _ & _ & _ & _ & _ & ? & _). }
  simpl in Hc. rewrite Hc0 in Hc. simpl in Hc. rewrite Hc.
  rewrite received_broadcast by (by apply newReporter_fresh).
  destruct (Hes report.new) as (rep & Hrep & Hv & Hp). eauto.
Qed.

(** * The tally and the reports

    [Equal] reads its verdict off the tally [NumDiff]; the reporter of
    [Diff] builds its text from the reports it hears.  Every walker that
    returns has told its reporters some events and moved [NumDiff] by the
    number of reports among them that carry [reportUnequal]: the count is
    kept in a Go [int], so the two agree modulo [2 ^ 64]. *)

Definition isUnequalReport (e : Event) : bool :=
  match e with CallReport f => Z.testbit f 1 | _ => false end.
Definition unequalReports (es : list Event) : Z :=
  len (List.filter isUnequalReport es).

Lemma unequalReports_app es1 es2 :
  unequalReports (es1 ++ es2) = unequalReports es1 + unequalReports es2.
Proof.
  unfold unequalReports, len. rewrite List.filter_app, length_app. lia.
Qed.

Lemma unequalReports_bounds es : 0 <= unequalReports es <= len es.
Proof.
  unfold unequalReports, len. pose proof (List.filter_length_le isUnequalReport es). lia.
Qed.

Lemma wrap64_divide z : (2 ^ 64 | wrap64 z - z).
Proof.
  unfold wrap64. exists (- ((z + 2 ^ 63) / 2 ^ 64)).
  pose proof (Z.div_mod (z + 2 ^ 63) (2 ^ 64) ltac:(lia)). lia.
Qed.

Definition tallied {A} (m : M A) : Prop :=
  ∀ s, match m s with
       | Ret _ s' =>
           frame s s'
           ∧ ∃ es, calls s' = calls s ++ broadcast (reporters s) es
                   ∧ (2 ^ 64 | diff.NumDiff (result s') - diff.NumDiff (result s)
                               - unequalReports es)
       | _ => True
       end.

(** A walker that calls no reporter and leaves the tally alone. *)
Definition still {A} (m : M A) : Prop :=
  ∀ s, match m s with
       | Ret _ s' => frame s s' ∧ calls s' = calls s ∧ result s' = result s
       | _ => True
       end.

Lemma tallied_still {A} (m : M A) : still m → tallied m.
Proof.
  intros Hm s. specialize (Hm s). destruct (m s); [| done | done].
  destruct Hm as (Hf & Hc & Hr). split; [exact Hf |].
  exists []. split; [simpl; by rewrite app_nil_r |].
  rewrite Hr. exists 0. unfold unequalReports, len. simpl. lia.
Qed.

Lemma tallied_bind {A B} (m : M A) (k : A → M B) :
  tallied m → (∀ a, tallied (k a)) → tallied (bind m k).
Proof.
  intros Hm Hk s. unfold bind. specialize (Hm s).
  destruct (m s) as [a s1| |]; [| done | done].
  specialize (Hk a s1). destruct (k a s1) as [b s2| |]; [| done | done].
  destruct Hm as (Hf1 & es1 & Hc1 & Hd1), Hk as (Hf2 & es2 & Hc2 & Hd2).
  split; [by eapply frame_trans |].
  exists (es1 ++ es2). split.
  - rewrite Hc2, Hc1, (frame_reporters _ _ Hf1), broadcast_app. by rewrite app_assoc.
  - rewrite unequalReports_app.
    replace (diff.NumDiff (result s2) - diff.NumDiff (result s)
             - (unequalReports es1 + unequalReports es2))
      with ((diff.NumDiff (result s1) - diff.NumDiff (result s) - unequalReports es1)
            + (diff.NumDiff (result s2) - diff.NumDiff (result s1) - unequalReports es2))
      by lia.
    by apply Z.divide_add_r.
Qed.

Lemma tallied_ret {A} (a : A) : tallied (ret a).
Proof. apply tallied_still. intros s. split; [apply frame_refl | done]. Qed.

Lemma tallied_panic {A} msg : tallied (@panic A msg).
Proof. by intros s. Qed.

Lemma tallied_exhausted {A} : tallied (@exhausted A).
Proof. by intros s. Qed.

Lemma tallied_gets {A} (f : state → A) : tallied (gets f).
Proof. apply tallied_still. intros s. split; [apply frame_refl | done]. Qed.

Lemma tallied_get : tallied get.
Proof. apply tallied_still. intros s. split; [apply frame_refl | done]. Qed.

Lemma tallied_must {A} (o : option A) what : tallied (must o what).
Proof. destruct o; [apply tallied_ret | apply tallied_panic]. Qed.

Lemma tallied_Next : tallied Next.
Proof.
  apply tallied_still. intros s. unfold Next. destruct (dynChecker_Next _).
  split; [by split | done].
Qed.

Lemma tallied_Check p : tallied (Check p).
Proof.
  apply tallied_still. intros s. unfold Check.
  destruct (len p <? _); [by repeat split |].
  destruct (0 <? _); [done | by repeat split].
Qed.

(** compare.go calls [report] with no flag, with [reportIgnored] or with
    [reportByMethod]: never with [reportUnequal] set. *)
Lemma tallied_report eq rf : Z.testbit rf 1 = false → tallied (report eq rf).
Proof.
  intros Hrf s. pose proof (framed_report eq rf s) as Hf.
  unfold report, bind, gets, emit, modify, ret in *.
  destruct (Z.land rf reportIgnored =? 0); [destruct eq |];
    (split; [exact Hf |]);
    (eexists [CallReport _]; split; [simpl; by rewrite app_nil_r |]);
    unfold unequalReports, len; cbn [List.filter isUnequalReport result set_result set_calls
                                       diff.NumDiff];
    rewrite ?Z.lor_spec, ?Hrf; cbn [orb length].
  - exists 0. change (Z.testbit reportEqual 1) with false. cbn [length]. lia.
  - change (Z.testbit reportUnequal 1) with true. cbn [orb length].
    unfold int_add.
    replace (wrap64 (diff.NumDiff (result s) + 1) - diff.NumDiff (result s) - Z.of_nat 1)
      with (wrap64 (diff.NumDiff (result s) + 1) - (diff.NumDiff (result s) + 1)) by lia.
    apply wrap64_divide.
  - exists 0. lia.
Qed.

Lemma tallied_callTTBFunc W f x y : tallied (callTTBFunc W f x y).
Proof.
  unfold callTTBFunc. apply tallied_bind; [apply tallied_Next | intros ok].
  destruct ok; simpl; [| apply tallied_ret].
  destruct (negb _); [apply tallied_panic | apply tallied_ret].
Qed.

Ltac tallied_step :=
  lazymatch goal with
  | |- tallied (bind _ _) => apply tallied_bind; [| intros ?]
  | |- tallied (ret _) => apply tallied_ret
  | |- tallied (panic _) => apply tallied_panic
  | |- tallied indexOutOfRange => apply tallied_panic
  | |- tallied exhausted => apply tallied_exhausted
  | |- tallied (gets _) => apply tallied_gets
  | |- tallied get => apply tallied_get
  | |- tallied (must _ _) => apply tallied_must
  | |- tallied (report _ _) => apply tallied_report; reflexivity
  | |- tallied Next => apply tallied_Next
  | |- tallied (Check _) => apply tallied_Check
  | |- tallied (callTTBFunc _ _ _ _) => apply tallied_callTTBFunc
  | |- tallied (if ?b then _ else _) => destruct b
  | |- tallied (match ?x with _ => _ end) => destruct x
  | |- tallied (let _ := _ in _) => cbv zeta
  end.
Ltac tallied_auto := repeat tallied_step; try (by eauto).

Lemma tallied_Options_filter_loop flt l :
  (∀ o, o ∈ l → tallied (flt o)) → ∀ out, tallied (Options_filter_loop flt l out).
Proof.
  induction l as [|o l IH]; intros Hflt out; simpl; [apply tallied_ret |].
  assert (∀ out', tallied (Options_filter_loop flt l out')) as IH'.
  { apply IH. intros o' Ho'. apply Hflt. by right. }
  apply tallied_bind; [apply Hflt; by left | intros r].
  destruct r; try apply IH'; try apply tallied_ret; destruct out; apply IH'.
Qed.

Lemma tallied_Option_filter W o vx vy t : tallied (Option_filter W o vx vy t).
Proof.
  induction o as [| l IH | f n o IH | ty f o IH | | | | tr | cm | | | tn o IH]
    using Option_nested_ind; simpl; try (by tallied_auto).
  - apply tallied_Options_filter_loop. intros o Ho.
    rewrite Forall_forall in IH. by apply IH.
  - unfold validator_filter. tallied_auto.
Qed.

Section Walkers_tallied.
  Context (W : World) (rec : PathStep → M unit).
  Hypothesis Hrec : ∀ step, tallied (rec step).

Lemma tallied_statelessCompare step : tallied (statelessCompare rec step).
Proof.
  apply tallied_still. intros s. rewrite statelessCompare_unfold.
  pose proof (Hrec step (set_reporters [] (set_result diff.zero s))) as H.
  destruct (rec step _) as [a s'| |]; [| done | done].
  destruct H as ([Hp Hr Ho He Hq] & _). simpl in *.
  split; [split; simpl; auto |]. simpl. auto.
Qed.

Lemma tallied_callTRFunc f v t tr : tallied (callTRFunc W rec f v t tr).
Proof. unfold callTRFunc. pose proof tallied_statelessCompare. tallied_auto. Qed.

Lemma tallied_Option_apply o vx vy : tallied (Option_apply W rec o vx vy).
Proof.
  pose proof tallied_callTRFunc.
  destruct o; simpl; try apply tallied_panic.
  - unfold Options_apply. tallied_auto.
  - tallied_auto.
  - unfold invalid_apply. tallied_auto.
  - unfold validator_apply, invalid_apply. tallied_auto.
  - unfold transformer_apply. tallied_auto.
  - unfold comparer_apply. tallied_auto.
Qed.

Lemma tallied_tryOptions t vx vy : tallied (tryOptions W rec t vx vy).
Proof.
  unfold tryOptions, Options_filter.
  pose proof tallied_Option_apply. pose proof (tallied_Option_filter W).
  apply tallied_bind; [tallied_auto | intros os].
  apply tallied_bind; [auto | intros opt].
  destruct opt; tallied_auto.
Qed.

Lemma tallied_tryMethod t vx vy : tallied (tryMethod W t vx vy).
Proof. unfold tryMethod. tallied_auto. Qed.

Lemma tallied_compareStruct_loop t vx vy fs :
  ∀ i mf, tallied (compareStruct_loop W rec t vx vy fs i mf).
Proof.
  induction fs as [|f fs IH]; intros i mf; simpl; tallied_auto.
Qed.

Lemma tallied_withIndexes te vx vy ix iy : tallied (withIndexes te vx vy ix iy).
Proof. unfold withIndexes. tallied_auto. Qed.

Lemma tallied_scanIgnored mk idxs :
  (∀ i, tallied (mk i)) → tallied (scanIgnored rec mk idxs).
Proof.
  intros Hmk. pose proof tallied_statelessCompare.
  induction idxs as [|i idxs IH]; simpl; tallied_auto.
Qed.

Lemma tallied_runPlan f p : (∀ ix iy, tallied (f ix iy)) → tallied (runPlan f p).
Proof. intros Hf. induction p as [es | ix iy k IH]; simpl; tallied_auto. Qed.

Lemma tallied_replay te vx vy lx ly ignoredX ignoredY n :
  ∀ ix iy edits, tallied (replay rec te vx vy lx ly ignoredX ignoredY n ix iy edits).
Proof.
  pose proof tallied_withIndexes.
  induction n as [|n IH]; intros ix iy edits; simpl.
  - tallied_auto.
  - destruct (_ || _); [| apply tallied_ret].
    apply tallied_bind; [tallied_auto | intros ee].
    destruct (ee.1); tallied_auto.
Qed.

Lemma tallied_compareSlice t vx vy : tallied (compareSlice W rec t vx vy).
Proof.
  unfold compareSlice. cbv zeta.
  pose proof tallied_withIndexes. pose proof tallied_statelessCompare.
  pose proof tallied_replay.
  apply tallied_bind; [tallied_auto | intros lx].
  apply tallied_bind; [tallied_auto | intros ly].
  apply tallied_bind; [apply tallied_scanIgnored; auto | intros sx].
  apply tallied_bind; [apply tallied_scanIgnored; auto | intros sy].
  apply tallied_bind; [| auto].
  apply tallied_runPlan. intros ix iy. tallied_auto.
Qed.

Lemma tallied_compareMap_loop t vx vy ks : tallied (compareMap_loop W rec t vx vy ks).
Proof. induction ks as [|k ks IH]; simpl; tallied_auto. Qed.

Lemma tallied_compareMap t vx vy : tallied (compareMap W rec t vx vy).
Proof. unfold compareMap. pose proof tallied_compareMap_loop. tallied_auto. Qed.

Lemma tallied_compareKind t vx vy : tallied (compareKind W rec t vx vy).
Proof.
  unfold compareKind, compareStruct.
  pose proof tallied_compareStruct_loop. pose proof tallied_compareSlice.
  pose proof tallied_compareMap.
  destruct (Kind W t); tallied_auto.
Qed.

Lemma tallied_compareAny_body step : tallied (compareAny_body W rec step).
Proof.
  intros s. rewrite compareAny_body_unfold. cbv zeta.
  set (inner := bind (tryOptions W rec _ _ _) _).
  assert (tallied inner) as Hinner.
  { subst inner. pose proof tallied_tryOptions. pose proof tallied_tryMethod.
    pose proof tallied_compareKind. tallied_auto. }
  match goal with |- context [Check ?p ?s0] =>
    pose proof (tallied_Check p s0) as HC; destruct (Check p s0) as [[] s1| |] end;
    [| done | done].
  specialize (Hinner s1). destruct (inner s1) as [[] s2| |]; [| done | done].
  destruct HC as ([Hp1 Hr1 Ho1 He1 Hq1] & es1 & Hc1 & Hd1).
  destruct Hinner as ([Hp2 Hr2 Ho2 He2 Hq2] & es2 & Hc2 & Hd2).
  simpl in *. split.
  - split; simpl; try congruence.
    + rewrite Hp2, Hp1. apply pop_push.
    + intros Hnil. rewrite Hnil in *. simpl in *.
      rewrite app_nil_r, Hq2, Hq1 by congruence. by rewrite app_nil_r.
  - exists (CallPushStep step :: (es1 ++ es2) ++ [CallPopStep]). split.
    + rewrite Hc2, Hc1, Hr1.
      change (CallPushStep step :: (es1 ++ es2) ++ [CallPopStep])
        with ([CallPushStep step] ++ (es1 ++ es2) ++ [CallPopStep]).
      rewrite !broadcast_app. simpl. rewrite !app_nil_r, <- !app_assoc. reflexivity.
    + change (CallPushStep step :: (es1 ++ es2) ++ [CallPopStep])
        with ([CallPushStep step] ++ (es1 ++ es2) ++ [CallPopStep]).
      rewrite !unequalReports_app.
      change (unequalReports [CallPushStep step]) with 0.
      change (unequalReports [CallPopStep]) with 0.
      replace (diff.NumDiff (result s2) - diff.NumDiff (result s)
               - (0 + (unequalReports es1 + unequalReports es2 + 0)))
        with ((diff.NumDiff (result s1) - diff.NumDiff (result s) - unequalReports es1)
              + (diff.NumDiff (result s2) - diff.NumDiff (result s1) - unequalReports es2))
        by lia.
      by apply Z.divide_add_r.
Qed.
End Walkers_tallied.

Lemma tallied_compareAny W fuel : ∀ step, tallied (compareAny W fuel step).
Proof.
  induction fuel as [|fuel IH]; intros step; simpl.
  - by intros s.
  - by apply tallied_compareAny_body.
Qed.

(** A reporter that hears no report flagged exactly [reportUnequal] has
    nothing to print. *)
Lemma replayCalls_no_unequal W es :
  ∀ rep rep', replayCalls W rep es = Some rep' → unequalReports es = 0 →
    report.diffs rep' = report.diffs rep ∧ report.ndiffs rep' = report.ndiffs rep.
Proof.
  induction es as [|e es IH]; intros rep rep' Hrun Hnone.
  - by injection Hrun as <-.
  - change (e :: es) with ([e] ++ es) in Hnone. rewrite unequalReports_app in Hnone.
    pose proof (unequalReports_bounds [e]) as [He _].
    pose proof (unequalReports_bounds es) as [Hes _].
    assert (unequalReports [e] = 0) as He0 by lia.
    assert (unequalReports es = 0) as Hes0 by lia.
    cbn [replayCalls] in Hrun.
    destruct (report.call W rep e) as [rep1|] eqn:Hcall; [| done].
    destruct (IH rep1 rep' Hrun Hes0) as [Hd Hn]. rewrite Hd, Hn.
    destruct e as [ps | f |]; cbn [report.call] in Hcall.
    + by injection Hcall as <-.
    + unfold report.Report in Hcall.
      destruct (f =? reportUnequal) eqn:Hf; [| by injection Hcall as <-].
      apply Z.eqb_eq in Hf. subst f. discriminate He0.
    + unfold report.PopStep in Hcall. destruct (report.curVals rep); [done |].
      by injection Hcall as <-.
Qed.

Lemma received_length r cs : len (received r cs) <= len cs.
Proof.
  unfold received, len. rewrite length_fmap.
  pose proof (length_filter (λ c : reporterOption * Event, c.1 = r) cs). lia.
Qed.

(** What the traversal of [Diff] leaves when it returns: the events its
    reporter heard replay without a panic, and the tally is the number of
    unequal reports among them, modulo [2 ^ 64]. *)
Lemma traverse_of_Diff W fuel x y os s :
  traverse W fuel x y [Options os; reporter (newReporter os)] = Ret tt s →
  ∃ rep,
    replayCalls W report.new (received (newReporter os) (calls s)) = Some rep
    ∧ (2 ^ 64 | diff.NumDiff (result s)
                - unequalReports (received (newReporter os) (calls s))).
Proof.
  unfold traverse. rewrite newState_with_reporter.
  destruct (newState os) as [[] s0| |] eqn:Hnew; [| done | done].
  intros Hrun.
  assert (calls s0 = [] ∧ result s0 = diff.zero) as [Hc0 Hr0].
  { rewrite newState_expand in Hnew.
    pose proof (processOptions_flat (expandOptions os) (expandOption_flat _) emptyState) as H.
    rewrite Hnew in H. by destruct H as (_ & _ & _ & _ & ? & _ & ? & _). }
  pose proof (traced_compareAny W fuel (rootStep x y)
                (set_reporters (reporters s0 ++ [newReporter os]) s0)) as H.
  rewrite Hrun in H. destruct H as (_ & es & Hes & Hc).
  pose proof (tallied_compareAny W fuel (rootStep x y)
                (set_reporters (reporters s0 ++ [newReporter os]) s0)) as H.
  rewrite Hrun in H. destruct H as (_ & es' & Hc' & Hd).
  cbn [calls set_reporters reporters result] in Hc, Hc', Hd.
  rewrite Hc0 in Hc, Hc'. rewrite Hr0 in Hd. cbn [app diff.NumDiff diff.zero] in Hc, Hc', Hd.
  assert (received (newReporter os) (calls s) = es) as Hrec.
  { rewrite Hc. apply received_broadcast. by apply newReporter_fresh. }
  assert (received (newReporter os) (calls s) = es') as Hrec'.
  { rewrite Hc'. apply received_broadcast. by apply newReporter_fresh. }
  rewrite Hrec. destruct (Hes report.new) as (rep & Hrep & _). exists rep.
  split; [exact Hrep |].
  rewrite <- Hrec, Hrec'. by rewrite Z.sub_0_r in Hd.
Qed.

(** C1: [Diff] returns the empty string exactly when [Equal], called on
    the same values and options, returns true (the tally is a Go [int]: the
    reporters are taken to have been called fewer than [2 ^ 64] times);
    whatever [Diff] returns is empty exactly when [Equal] returns true;
    when [Equal] returns false, [Diff] returns a text that is not empty or
    panics with the internal-invariant message; when [Equal] panics or
    does not end, so does [Diff]; and whenever the report and the verdict
    of the traversal disagree, [Diff] panics with the internal-invariant
    message and returns nothing. *)
Theorem Diff_empty_iff_Equal W (fuel : nat) (x y : option (Type_ * Value))
    (os : list Option) :
  ((∀ s, traverse W fuel x y [Options os; reporter (newReporter os)] = Ret tt s →
         len (calls s) < 2 ^ 64) →
   (Diff W fuel x y os = Returns "" ↔ Equal W fuel x y os = Returns true))
  ∧ (∀ d, Diff W fuel x y os = Returns d →
          (d = "" ↔ Equal W fuel x y os = Returns true))
  ∧ (Equal W fuel x y os = Returns false →
     (∃ d, d ≠ "" ∧ Diff W fuel x y os = Returns d)
     ∨ Diff W fuel x y os = Panics "inconsistent difference and equality results")
  ∧ (∀ msg, Equal W fuel x y os = Panics msg → Diff W fuel x y os = Panics msg)
  ∧ (Equal W fuel x y os = OutOfFuel → Diff W fuel x y os = OutOfFuel)
  ∧ (∀ s rep,
       traverse W fuel x y [Options os; reporter (newReporter os)] = Ret tt s →
       replayCalls W report.new (received (newReporter os) (calls s)) = Some rep →
       bool_decide (report.String rep = "") ≠ diff.Equal (result s) →
       Diff W fuel x y os = Panics "inconsistent difference and equality results").
Proof.
  pose proof (traverse_with_reporter W fuel x y os (newReporter os)) as Hsim.
  pose proof (traverse_of_Diff W fuel x y os) as Hrun.
  assert (∀ d, Diff W fuel x y os = Returns d →
               (d = "" ↔ Equal W fuel x y os = Returns true)) as Hret.
  { intros d. unfold Diff, Equal.
    destruct (traverse W fuel x y [Options os; reporter (newReporter os)]) as [[] s| |];
      [| done | done].
    destruct (traverse W fuel x y os) as [[] s'| |]; simpl in Hsim; try done.
    destruct Hsim as (_ & Hres & _). rewrite <- Hres.
    destruct (replayCalls _ _ _) as [rep|]; [| done].
    destruct (negb _) eqn:E; [done |]. intros [= <-].
    apply negb_false_iff, eqb_prop in E. rewrite <- E.
    split.
    - intros Hd. by rewrite bool_decide_eq_true_2.
    - intros [= Hd]. by apply bool_decide_eq_true_1 in Hd. }
  split; [| split; [exact Hret | split; [| split; [| split]]]].
  - (* the equivalence *)
    intros Hfew. split; [intros HD; by apply (Hret "") |].
    unfold Diff, Equal.
    destruct (traverse W fuel x y [Options os; reporter (newReporter os)]) as [[] s| |];
      destruct (traverse W fuel x y os) as [[] s'| |]; simpl in Hsim; try done.
    destruct Hsim as (_ & Hres & _). rewrite <- Hres. intros [= Heq].
    destruct (Hrun s eq_refl) as (rep & Hrep & Hdiv). rewrite Hrep.
    specialize (Hfew s eq_refl).
    unfold diff.Equal in Heq. apply Z.eqb_eq in Heq. rewrite Heq in Hdiv.
    pose proof (unequalReports_bounds (received (newReporter os) (calls s))) as Hb.
    pose proof (received_length (newReporter os) (calls s)) as Hl.
    assert (unequalReports (received (newReporter os) (calls s)) = 0) as Hnone.
    { destruct Hdiv as [k Hk]. lia. }
    destruct (replayCalls_no_unequal W _ _ _ Hrep Hnone) as [Hd Hn].
    assert (report.String rep = "") as ->.
    { unfold report.String. rewrite Hd, Hn. reflexivity. }
    unfold diff.Equal. rewrite Heq. reflexivity.
  - (* Equal returns false *)
    unfold Diff, Equal.
    destruct (traverse W fuel x y [Options os; reporter (newReporter os)]) as [[] s| |];
      destruct (traverse W fuel x y os) as [[] s'| |]; simpl in Hsim; try done.
    destruct Hsim as (_ & Hres & _). rewrite <- Hres. intros [= Heq].
    destruct (Hrun s eq_refl) as (rep & Hrep & _). rewrite Hrep, Heq.
    destruct (bool_decide (report.String rep = "")) eqn:Hd; cbn [Bool.eqb negb].
    + by right.
    + left. exists (report.String rep). split; [| reflexivity].
      by apply bool_decide_eq_false_1 in Hd.
  - (* Equal panics *)
    intros msg. unfold Diff, Equal.
    destruct (traverse W fuel x y [Options os; reporter (newReporter os)]) as [[] s| |];
      destruct (traverse W fuel x y os) as [[] s'| |]; simpl in Hsim; try done.
    intros [= <-]. by rewrite Hsim.
  - (* Equal does not end *)
    unfold Diff, Equal.
    destruct (traverse W fuel x y [Options os; reporter (newReporter os)]) as [[] s| |];
      destruct (traverse W fuel x y os) as [[] s'| |]; simpl in Hsim; done.
  - intros s rep Htr Hrep Hne. unfold Diff. rewrite Htr, Hrep.
    destruct (negb _) eqn:E; [reflexivity |].
    apply negb_false_iff, eqb_prop in E. contradiction.
Qed.

(** * Further properties of options.go *)

(** ** flattenOptions and normalizeOption *)

Lemma forallb_isCoreOption_flat l :
  forallb isCoreOption l = true → Forall flatOption l.
Proof.
  induction l as [|a l IH]; simpl; [constructor |].
  intros [Ha Hl]%andb_true_iff. constructor; [by destruct a | auto].
Qed.

Lemma expandOptions_flat_id l : Forall flatOption l → expandOptions l = l.
Proof.
  induction 1 as [|a l Ha _ IH]; [reflexivity |].
  rewrite expandOptions_cons, IH. by destruct a.
Qed.

(** [flattenOptions] computes the expansion, and refuses it when it holds
    an option that is not a core option. *)
Lemma flattenOption_expand o :
  flattenOption [] o
  = if forallb isCoreOption (expandOption o) then inl (expandOption o)
    else inr "invalid option type".
Proof.
  induction o as [| l IH | | | | | | | | | |] using Option_nested_ind; try reflexivity.
  change (flattenOptions_loop flattenOption [] l
          = if forallb isCoreOption (expandOptions l) then inl (expandOptions l)
            else inr "invalid option type").
  induction IH as [|a l Ha _ IHl]; [reflexivity |].
  rewrite expandOptions_cons, forallb_app.
  cbn [flattenOptions_loop]. rewrite Ha.
  destruct (forallb isCoreOption (expandOption a)); [| reflexivity].
  change (flattenOptions_loop flattenOption (expandOption a) l)
    with (flattenOption (expandOption a) (Options l)).
  rewrite flattenOption_acc.
  change (flattenOption [] (Options l)) with (flattenOptions_loop flattenOption [] l).
  rewrite IHl. cbn [andb]. by destruct (forallb isCoreOption (expandOptions l)).
Qed.

(** X14: [normalizeOption] is idempotent, and what it returns is nil, one
    core option, or an [Options] of at least two core options, none of them
    an [Options] itself. *)
Theorem normalizeOption_idempotent (o o' : Option) :
  normalizeOption o = inl o' →
  normalizeOption o' = inl o'
  ∧ ∀ l, o' = Options l →
         (2 ≤ length l)%nat ∧ Forall (λ c, isCoreOption c = true) l.
Proof.
  unfold normalizeOption, flattenOptions.
  change (flattenOptions_loop flattenOption [] [o]) with (flattenOption [] (Options [o])).
  rewrite flattenOption_expand.
  change (expandOption (Options [o])) with (expandOption o ++ []). rewrite app_nil_r.
  destruct (forallb isCoreOption (expandOption o)) eqn:Hcore; [| done].
  pose proof (forallb_isCoreOption_flat _ Hcore) as Hflat.
  destruct (expandOption o) as [|a [|b l]] eqn:Hex; intros [= <-].
  - split; [reflexivity | discriminate].
  - apply Forall_inv in Hflat. simpl in Hcore. rewrite andb_true_r in Hcore.
    split; [by destruct a | intros l ->; done].
  - change (flattenOptions_loop flattenOption [] [Options (a :: b :: l)])
      with (flattenOption [] (Options [Options (a :: b :: l)])).
    rewrite flattenOption_expand.
    change (expandOption (Options [Options (a :: b :: l)]))
      with (expandOptions (a :: b :: l) ++ []).
    rewrite app_nil_r, (expandOptions_flat_id _ Hflat), Hcore.
    split; [reflexivity |]. intros l' [= <-]. split; [simpl; lia |].
    apply Forall_forall. intros c Hc.
    rewrite forallb_forall in Hcore. apply Hcore. by apply list_elem_of_In.
Qed.

(** ** A path filter on an Options *)

Lemma curPath_Option_filter W o vx vy t s r s' :
  Option_filter W o vx vy t s = Ret r s' → curPath s' = curPath s.
Proof.
  intros Hrun. pose proof (framed_Option_filter W o vx vy t s) as Hf.
  rewrite Hrun in Hf. apply Hf.
Qed.

Lemma Options_filter_loop_pathFilter_true W f n vx vy t l :
  ∀ out s, f (curPath s) = true →
    Options_filter_loop (λ opt, Option_filter W opt vx vy t) (pathFilter f n <$> l) out s
    = Options_filter_loop (λ opt, Option_filter W opt vx vy t) l out s.
Proof.
  induction l as [|a l IH]; intros out s Hf; [reflexivity |].
  rewrite fmap_cons. cbn [Options_filter_loop]. unfold bind at 1 2.
  assert (Option_filter W (pathFilter f n a) vx vy t s = Option_filter W a vx vy t s) as ->.
  { cbn [Option_filter]. unfold bind, gets. by rewrite Hf. }
  destruct (Option_filter W a vx vy t s) as [r s'| |] eqn:Hrun; [| done | done].
  apply curPath_Option_filter in Hrun. rewrite <- Hrun in Hf.
  destruct r; try apply IH; try done; destruct out; by apply IH.
Qed.

Lemma Options_filter_loop_pathFilter_false W f n vx vy t l :
  ∀ out s, f (curPath s) = false →
    Options_filter_loop (λ opt, Option_filter W opt vx vy t) (pathFilter f n <$> l) out s
    = Ret out s.
Proof.
  induction l as [|a l IH]; intros out s Hf; [reflexivity |].
  rewrite fmap_cons. cbn [Options_filter_loop]. unfold bind at 1.
  cbn [Option_filter]. unfold bind at 1. unfold gets at 1. rewrite Hf.
  unfold ret at 1. by apply IH.
Qed.

(** X15: applying a path filter to an [Options] is the same as applying
    it to each option held within: the two filter to the same option, from
    every state. *)
Theorem pathFilter_distributes_over_Options W (f : Path → bool) (n : string)
    (l : list Option) (vx vy : Value) (t : Type_) (s : state) :
  Option_filter W (pathFilter f n (Options l)) vx vy t s
  = Option_filter W (Options (pathFilter f n <$> l)) vx vy t s.
Proof.
  cbn [Option_filter]. unfold bind at 1. unfold gets at 1.
  destruct (f (curPath s)) eqn:Hf.
  - symmetry. by apply Options_filter_loop_pathFilter_true.
  - symmetry. by apply Options_filter_loop_pathFilter_false.
Qed.

(** * Properties of cycles.go *)

(** X16: the [pop] returned by [push] undoes the push: pushing two
    addresses that are not being tracked and calling the [pop] gives back
    the tracker as it was. *)
Theorem cycles_pop_undoes_push (c : cycles_go.cycles) (xAddr yAddr : uintptr) :
  cycles_go.xDepth c !! xAddr = None →
  cycles_go.yDepth c !! yAddr = None →
  (cycles_go.push c xAddr yAddr).2 (cycles_go.push c xAddr yAddr).1 = c.
Proof.
  intros Hx Hy. destruct c as [xd yd]. simpl in *.
  f_equal; rewrite delete_insert_eq; by apply delete_id.
Qed.

(** X17: after a push, [compare] on the pushed pair finds a cycle on both
    sides at the same depth; on the pushed x address and a y address that
    is not tracked it finds a cycle that is not equal, whenever fewer than
    2^63 - 1 addresses were tracked. *)
Theorem cycles_compare_after_push (c : cycles_go.cycles) (xAddr yAddr yOther : uintptr) :
  Z.of_nat (size (cycles_go.xDepth c)) < 2 ^ 63 - 1 →
  yOther ≠ yAddr →
  cycles_go.yDepth c !! yOther = None →
  cycles_go.compare (cycles_go.push c xAddr yAddr).1 xAddr yAddr = (true, true)
  ∧ cycles_go.compare (cycles_go.push c xAddr yAddr).1 xAddr yOther = (false, true).
Proof.
  intros Hsize Hne Hother. destruct c as [xd yd]. simpl in *.
  unfold cycles_go.compare. simpl.
  rewrite !lookup_insert_eq, lookup_insert_ne, Hother by done. simpl.
  rewrite Z.eqb_refl.
  unfold int_add. rewrite wrap64_small by lia.
  replace (Z.of_nat (size xd) + 1 =? 0) with false by (symmetry; apply Z.eqb_neq; lia).
  split; f_equal; apply bool_decide_eq_true_2; eauto.
Qed.

(** * Properties of the default reporters *)

(** ** reporter.go (src/unnamed/part_001): the number in the marker *)

Lemma len_app {A} (l1 l2 : list A) : len (l1 ++ l2) = len l1 + len l2.
Proof. unfold len. rewrite length_app. lia. Qed.

Section reporter_counts.
  Variable prettyPrint : Value → bool → string.
  Variable GoString : Path → string.

Lemma reporter_Report_counts x y eq p r :
  len (reporter.diffs r) <= reporter.ndiffs r < 2 ^ 63 - 1 →
  len (reporter.diffs (reporter.Report prettyPrint GoString x y eq p r))
  <= reporter.ndiffs (reporter.Report prettyPrint GoString x y eq p r)
  <= reporter.ndiffs r + 1.
Proof.
  intros Hr. unfold reporter.Report. destruct eq; [lia |].
  destruct (_ && _); simpl; unfold int_add; rewrite wrap64_small by (unfold len in *; lia).
  - rewrite len_app. change (len [_]) with 1. lia.
  - lia.
Qed.

Lemma reporter_ReportAll_counts cs :
  ∀ r, len (reporter.diffs r) <= reporter.ndiffs r →
       reporter.ndiffs r + len cs < 2 ^ 63 - 1 →
       len (reporter.diffs (reporter.ReportAll prettyPrint GoString cs r))
       <= reporter.ndiffs (reporter.ReportAll prettyPrint GoString cs r)
       <= reporter.ndiffs r + len cs.
Proof.
  unfold reporter.ReportAll.
  induction cs as [|c cs IH]; intros r Hr Hb; simpl.
  - unfold len in *. simpl in *. lia.
  - assert (len (c :: cs) = 1 + len cs) as Hlen by (unfold len; simpl; lia).
    assert (0 <= len cs) as Hpos by (unfold len; lia).
    rewrite Hlen in *.
    pose proof (reporter_Report_counts c.1.1.1 c.1.1.2 c.1.2 c.2 r ltac:(lia)) as H1.
    specialize (IH (reporter.Report prettyPrint GoString c.1.1.1 c.1.1.2 c.1.2 c.2 r)
                  ltac:(lia) ltac:(lia)).
    lia.
Qed.
End reporter_counts.

(** X18: in reporter.go, whenever [String] prints the marker after a run
    of reports, the number in it is negative: it is minus the count of the
    differences that were left out. *)
Theorem reporter_marker_is_negative (prettyPrint : Value → bool → string)
    (GoString : Path → string) (cs : list (Value * Value * bool * Path)) :
  len cs < 2 ^ 63 - 1 →
  reporter.ndiffs (reporter.ReportAll prettyPrint GoString cs reporter.new)
  ≠ len (reporter.diffs (reporter.ReportAll prettyPrint GoString cs reporter.new)) →
  ∃ k, 0 < k
       ∧ k = reporter.ndiffs (reporter.ReportAll prettyPrint GoString cs reporter.new)
             - len (reporter.diffs (reporter.ReportAll prettyPrint GoString cs reporter.new))
       ∧ reporter.String (reporter.ReportAll prettyPrint GoString cs reporter.new)
         = Join (reporter.diffs (reporter.ReportAll prettyPrint GoString cs reporter.new)) ""
           +:+ "... " +:+ pretty (- k) +:+ " more differences ...".
Proof.
  intros Hlen Hne.
  pose proof (reporter_ReportAll_counts prettyPrint GoString cs reporter.new) as H.
  change (reporter.ndiffs reporter.new) with 0 in H.
  change (len (reporter.diffs reporter.new)) with 0 in H.
  specialize (H ltac:(lia) ltac:(lia)).
  set (r := reporter.ReportAll prettyPrint GoString cs reporter.new) in *.
  exists (reporter.ndiffs r - len (reporter.diffs r)).
  split; [lia |]. split; [reflexivity |].
  unfold reporter.String. rewrite (proj2 (Z.eqb_neq _ _) Hne).
  unfold int_sub. rewrite wrap64_small by (unfold len in *; lia).
  by replace (len (reporter.diffs r) - reporter.ndiffs r)
    with (- (reporter.ndiffs r - len (reporter.diffs r))) by lia.
Qed.

(** ** report.go (src/cmp/report.go) *)

Lemma report_call_counts W rep e rep' :
  report.call W rep e = Some rep' →
  len (report.diffs rep) <= report.ndiffs rep < 2 ^ 63 - 1 →
  len (report.diffs rep') <= report.ndiffs rep' <= report.ndiffs rep + 1.
Proof.
  intros Hcall Hr. destruct e; simpl in Hcall.
  - injection Hcall as <-. simpl. lia.
  - unfold report.Report in Hcall. destruct (rf =? reportUnequal).
    + destruct (last _); [| done]. injection Hcall as <-.
      unfold report.report. destruct (_ && _); simpl; unfold int_add;
        rewrite wrap64_small by (unfold len in *; lia).
      * rewrite len_app. change (len [_]) with 1. lia.
      * lia.
    + injection Hcall as <-. lia.
  - unfold report.PopStep in Hcall. destruct (report.curVals rep); [done |].
    injection Hcall as <-. simpl. lia.
Qed.

Lemma replayCalls_counts W es :
  ∀ rep rep', replayCalls W rep es = Some rep' →
    len (report.diffs rep) <= report.ndiffs rep →
    report.ndiffs rep + len es < 2 ^ 63 - 1 →
    len (report.diffs rep') <= report.ndiffs rep' <= report.ndiffs rep + len es.
Proof.
  induction es as [|e es IH]; intros rep rep' Hrun Hr Hb; simpl in Hrun.
  - injection Hrun as <-. unfold len in *. simpl in *. lia.
  - assert (len (e :: es) = 1 + len es) as Hlen by (unfold len; simpl; lia).
    assert (0 <= len es) as Hpos by (unfold len; lia).
    rewrite Hlen in *.
    destruct (report.call W rep e) as [rep1|] eqn:Hcall; [| done].
    pose proof (report_call_counts W rep e rep1 Hcall ltac:(lia)) as H1.
    specialize (IH rep1 rep' Hrun ltac:(lia) ltac:(lia)). lia.
Qed.

(** X19: in report.go, whenever [String] prints the marker after the
    reporter has taken a run of calls, the number in it is the count of the
    differences that were left out, a positive number. *)
Theorem report_marker_counts_the_dropped W (es : list Event) (rep : report.defaultReporter) :
  len es < 2 ^ 63 - 1 →
  replayCalls W report.new es = Some rep →
  report.ndiffs rep ≠ len (report.diffs rep) →
  ∃ k, 0 < k
       ∧ k = report.ndiffs rep - len (report.diffs rep)
       ∧ report.String rep
         = Join (report.diffs rep) "" +:+ "... " +:+ pretty k +:+ " more differences ...".
Proof.
  intros Hlen Hrun Hne.
  pose proof (replayCalls_counts W es report.new rep Hrun) as H.
  change (report.ndiffs report.new) with 0 in H.
  change (len (report.diffs report.new)) with 0 in H.
  specialize (H ltac:(lia) ltac:(lia)).
  exists (report.ndiffs rep - len (report.diffs rep)).
  split; [lia |]. split; [reflexivity |].
  unfold report.String. rewrite (proj2 (Z.eqb_neq _ _) Hne).
  unfold int_sub. by rewrite wrap64_small by (unfold len in *; lia).
Qed.

(** * reporter.go (src/unnamed/part_001): the order of map keys *)

(** Go's [<] on floats, on the bit patterns: false when either side is a
    NaN; otherwise the order of sign and magnitude, the two zeros equal. *)
Definition float64_key (b : Z) : Z :=
  if Z.testbit b 63 then - Z.land b (2 ^ 63 - 1) else Z.land b (2 ^ 63 - 1).
Definition float64_lt (a b : Z) : bool :=
  negb (float64.IsNaN a) && negb (float64.IsNaN b) && (float64_key a <? float64_key b).

(** [reflect.Kind] as the number it is. *)
Definition Kind_number (k : reflect.Kind) : Z :=
  match k with
  | reflect.Invalid => 0 | reflect.Bool => 1
  | reflect.Int => 2 | reflect.Int8 => 3 | reflect.Int16 => 4 | reflect.Int32 => 5
  | reflect.Int64 => 6
  | reflect.Uint => 7 | reflect.Uint8 => 8 | reflect.Uint16 => 9 | reflect.Uint32 => 10
  | reflect.Uint64 => 11 | reflect.Uintptr => 12
  | reflect.Float32 => 13 | reflect.Float64 => 14
  | reflect.Complex64 => 15 | reflect.Complex128 => 16
  | reflect.Array => 17 | reflect.Chan => 18 | reflect.Func => 19
  | reflect.Interface => 20 | reflect.Map => 21 | reflect.Ptr => 22 | reflect.Slice => 23
  | reflect.String => 24 | reflect.Struct => 25 | reflect.UnsafePointer => 26
  end.

(** The loops of [isLess] over the elements of an array and the fields of
    a struct: [ys] is read at the index [xs] is read at, and reading past
    its end panics. *)
Fixpoint lexLess (less : Value → Value → answer bool) (xs ys : list Value) : answer bool :=
  match xs, ys with
  | [], _ => Returns false
  | _ :: _, [] => Panics "reflect: index out of range"
  | xi :: xs', yi :: ys' =>
      match less xi yi with
      | Returns true => Returns true
      | Returns false =>
          match less yi xi with
          | Returns true => Returns false
          | Returns false => lexLess less xs' ys'
          | other => other
          end
      | other => other
      end
  end.

Section isLess.
  Context (W : World).
  (** [t.String()], [t.PkgPath()] and the address of the descriptor. *)
  Variables (TypeString PkgPath : Type_ → string) (TypePointer : Type_ → uintptr).

Definition wrongKind {A} (what : string) : answer A :=
  Panics ("reflect: call of " +:+ what +:+ " on a Value of another kind").

(** reporter.go: [isLess]; [n] bounds the depth of the calls.  The switch
    is on the kind of [x]; the source asks for inputs of one type. *)
Fixpoint isLess (n : nat) (x y : Value) : answer bool :=
  match n with
  | O => OutOfFuel
  | S n' =>
      match x with
      | VBool a =>
          match rv.Bool_ y with
          | Some b => Returns (negb a && b)
          | None => wrongKind "Bool"
          end
      | VInt a =>
          match rv.Int_ y with Some b => Returns (a <? b) | None => wrongKind "Int" end
      | VUint a =>
          match rv.Uint_ y with Some b => Returns (a <? b) | None => wrongKind "Uint" end
      | VFloat fx =>
          match rv.Float_ y with
          | Some fy =>
              Returns (float64_lt fx fy || float64.IsNaN fx && negb (float64.IsNaN fy))
          | None => wrongKind "Float"
          end
      | VComplex rx ix =>
          match rv.Complex_ y with
          | Some (ry, iy) =>
              if float64.eq rx ry || (float64.IsNaN rx && float64.IsNaN ry)
              then Returns (float64_lt ix iy || float64.IsNaN ix && negb (float64.IsNaN iy))
              else Returns (float64_lt rx ry || float64.IsNaN rx && negb (float64.IsNaN ry))
          | None => wrongKind "Complex"
          end
      | VPtr a | VUnsafePointer a | VChan a =>
          match rv.Pointer_ y with
          | Some b => Returns (a <? b)
          | None => wrongKind "Pointer"
          end
      | VString a => Returns (String.ltb a (rv.String_ y))
      | VArray xs =>
          match y with
          | VArray ys | VSlice (Some ys) => lexLess (isLess n') xs ys
          | VSlice None =>
              match xs with [] => Returns false | _ => Panics "reflect: index out of range" end
          | _ => match xs with [] => Returns false | _ => wrongKind "Index" end
          end
      | VStruct xs =>
          match y with
          | VStruct ys => lexLess (isLess n') xs ys
          | _ => match xs with [] => Returns false | _ => wrongKind "Field" end
          end
      | VInterface ex =>
          match y with
          | VInterface ey =>
              match ex, ey with
              | Some (tx, vx), Some (ty, vy) =>
                  if bool_decide (tx = ty) then isLess n' vx vy
                  else if negb (Kind_number (Kind W tx) =? Kind_number (Kind W ty))
                  then Returns (Kind_number (Kind W tx) <? Kind_number (Kind W ty))
                  else if negb (bool_decide (TypeString tx = TypeString ty))
                  then Returns (String.ltb (TypeString tx) (TypeString ty))
                  else if negb (bool_decide (PkgPath tx = PkgPath ty))
                  then Returns (String.ltb (PkgPath tx) (PkgPath ty))
                  else Returns (TypePointer tx <? TypePointer ty)
              | _, _ =>
                  Returns (bool_decide (ex = None) && negb (bool_decide (ey = None)))
              end
          | _ => wrongKind "Elem"
          end
      | VFunc _ | VMap _ | VSlice _ => Panics "*reflect.rtype is not comparable"
      | VInvalid => Panics "reflect: call of reflect.Value.Type on zero Value"
      end
  end.
End isLess.

(** Two values of one static type: the same kind, an array of the same
    length, a struct with the same fields; under two interfaces that hold
    the same dynamic type, again values of one type. *)
Fixpoint sameType (x y : Value) {struct x} : Prop :=
  match x, y with
  | VInvalid, VInvalid => True
  | VBool _, VBool _ | VInt _, VInt _ | VUint _, VUint _ | VFloat _, VFloat _
  | VComplex _ _, VComplex _ _ | VString _, VString _ | VChan _, VChan _
  | VUnsafePointer _, VUnsafePointer _ | VFunc _, VFunc _ | VPtr _, VPtr _
  | VSlice _, VSlice _ | VMap _, VMap _ => True
  | VStruct xs, VStruct ys | VArray xs, VArray ys =>
      (fix all (xs ys : list Value) : Prop :=
         match xs, ys with
         | [], [] => True
         | a :: xs', b :: ys' => sameType a b ∧ all xs' ys'
         | _, _ => False
         end) xs ys
  | VInterface (Some (tx, a)), VInterface (Some (ty, b)) => tx = ty → sameType a b
  | VInterface _, VInterface _ => True
  | _, _ => False
  end.

Lemma float64_eq_sym a b : float64.eq a b = float64.eq b a.
Proof.
  unfold float64.eq. rewrite (Z.eqb_sym a b).
  destruct (float64.IsNaN a), (float64.IsNaN b), (b =? a),
    (float64.isZero a), (float64.isZero b); reflexivity.
Qed.

Lemma float64_less_asym a b :
  float64_lt a b || float64.IsNaN a && negb (float64.IsNaN b) = true →
  float64_lt b a || float64.IsNaN b && negb (float64.IsNaN a) = false.
Proof.
  unfold float64_lt.
  destruct (float64.IsNaN a), (float64.IsNaN b); simpl; try done.
  rewrite !orb_false_r. intros H%Z.ltb_lt. apply Z.ltb_ge. lia.
Qed.

Lemma String_ltb_asym a b : String.ltb a b = true → String.ltb b a = false.
Proof.
  unfold String.ltb. rewrite (String.compare_antisym b a).
  by destruct (String.compare a b).
Qed.

Lemma lexLess_asym (less : Value → Value → answer bool) xs :
  ∀ ys,
    sameType (VArray xs) (VArray ys) →
    (∀ a b, sameType a b → less a b = Returns true → less b a = Returns false) →
    lexLess less xs ys = Returns true → lexLess less ys xs = Returns false.
Proof.
  induction xs as [|xi xs IH]; intros [|yi ys] Hsame Hless Hrun; try done.
  destruct Hsame as [Hi Hrest]. cbn [lexLess] in *.
  destruct (less xi yi) as [[|]| |] eqn:Hxy; try done.
  - by rewrite (Hless _ _ Hi Hxy).
  - destruct (less yi xi) as [[|]| |] eqn:Hyx; try done.
    by apply IH.
Qed.

Lemma Returns_inj {A} (a b : A) : Returns a = Returns b → a = b.
Proof. by intros [= ->]. Qed.

(** X20: [isLess] is asymmetric on values of one type, NaNs included:
    when it says that [x] is less than [y], it says that [y] is not less
    than [x]; and so no value is less than itself. *)
Theorem isLess_asymmetric W (TypeString PkgPath : Type_ → string)
    (TypePointer : Type_ → uintptr) (n : nat) (x y : Value) :
  sameType x y →
  isLess W TypeString PkgPath TypePointer n x y = Returns true →
  isLess W TypeString PkgPath TypePointer n y x = Returns false.
Proof.
  revert x y. induction n as [|n IH]; intros x y Hsame Hrun; [discriminate Hrun |].
  destruct x; destruct y; try (exfalso; exact Hsame);
    cbn [isLess] in Hrun |- *;
    cbn [rv.Bool_ rv.Int_ rv.Uint_ rv.Float_ rv.Complex_ rv.Pointer_ rv.String_]
      in Hrun |- *;
    try discriminate Hrun.
  - (* bool *)
    apply Returns_inj in Hrun. f_equal.
    destruct b, b0; (reflexivity || discriminate Hrun).
  - (* int *) apply Returns_inj, Z.ltb_lt in Hrun. f_equal. apply Z.ltb_ge. lia.
  - (* uint *) apply Returns_inj, Z.ltb_lt in Hrun. f_equal. apply Z.ltb_ge. lia.
  - (* float *) apply Returns_inj in Hrun. f_equal. by apply float64_less_asym.
  - (* complex *)
    rewrite (float64_eq_sym re0 re), (andb_comm (float64.IsNaN re0)).
    destruct (float64.eq re re0 || float64.IsNaN re && float64.IsNaN re0);
      apply Returns_inj in Hrun; f_equal; by apply float64_less_asym.
  - (* string *) apply Returns_inj in Hrun. f_equal. by apply String_ltb_asym.
  - (* chan *) apply Returns_inj, Z.ltb_lt in Hrun. f_equal. apply Z.ltb_ge. lia.
  - (* unsafe pointer *)
    apply Returns_inj, Z.ltb_lt in Hrun. f_equal. apply Z.ltb_ge. lia.
  - (* struct *)
    apply (lexLess_asym _ fields fields0); [exact Hsame | | exact Hrun].
    intros a b. apply IH.
  - (* array *)
    apply (lexLess_asym _ elems elems0); [exact Hsame | | exact Hrun].
    intros a b. apply IH.
  - (* pointer *) apply Returns_inj, Z.ltb_lt in Hrun. f_equal. apply Z.ltb_ge. lia.
  - (* interface *)
    destruct e as [[tx vx]|], e0 as [[ty vy]|]; try discriminate Hrun.
    + destruct (decide (tx = ty)) as [-> | Hne].
      * rewrite bool_decide_eq_true_2 in Hrun |- * by reflexivity.
        apply IH; [by apply Hsame | exact Hrun].
      * rewrite (bool_decide_eq_false_2 (tx = ty)) in Hrun by done.
        rewrite (bool_decide_eq_false_2 (ty = tx)) by done.
        rewrite (Z.eqb_sym (Kind_number (Kind W ty))).
        destruct (Kind_number (Kind W tx) =? Kind_number (Kind W ty)); cbn [negb] in *.
        2:{ apply Returns_inj, Z.ltb_lt in Hrun. f_equal. apply Z.ltb_ge. lia. }
        destruct (decide (TypeString tx = TypeString ty)) as [Hs | Hs].
        2:{ rewrite (bool_decide_eq_false_2 _ Hs) in Hrun.
            rewrite (bool_decide_eq_false_2 (TypeString ty = TypeString tx)) by done.
            cbn [negb] in *. apply Returns_inj in Hrun. f_equal. by apply String_ltb_asym. }
        rewrite (bool_decide_eq_true_2 _ Hs) in Hrun.
        rewrite (bool_decide_eq_true_2 (TypeString ty = TypeString tx)) by done.
        cbn [negb] in *.
        destruct (decide (PkgPath tx = PkgPath ty)) as [Hp | Hp].
        2:{ rewrite (bool_decide_eq_false_2 _ Hp) in Hrun.
            rewrite (bool_decide_eq_false_2 (PkgPath ty = PkgPath tx)) by done.
            cbn [negb] in *. apply Returns_inj in Hrun. f_equal. by apply String_ltb_asym. }
        rewrite (bool_decide_eq_true_2 _ Hp) in Hrun.
        rewrite (bool_decide_eq_true_2 (PkgPath ty = PkgPath tx)) by done.
        cbn [negb] in *. apply Returns_inj, Z.ltb_lt in Hrun. f_equal. apply Z.ltb_ge. lia.
    + reflexivity.
Qed.

(** ** sortKeys: the keys that are dropped *)

(** reporter.go: the loop of [sortKeys] over the sorted keys, [vs2] the
    keys kept so far.  [vs2] shares the array of [vs] and never grows past
    the key being read, so the appends overwrite only keys already read. *)
Fixpoint dedup (vs2 vs : list Value) : list Value :=
  match vs with
  | [] => vs2
  | v :: vs' =>
      if negb (rv.goEq v (default VInvalid (last vs2)))
      then dedup (vs2 ++ [v]) vs'
      else dedup vs2 vs'
  end.

(** reporter.go: [sortKeys]; [sort] is [sort.Sort(valueSorter(vs))]. *)
Definition sortKeys (sort : list Value → list Value) (vs : list Value) : list Value :=
  match vs with
  | [] => vs
  | _ =>
      match sort vs with
      | v :: rest => dedup [v] rest
      | [] => []
      end
  end.

Definition isNaNKey (v : Value) : bool :=
  match v with VFloat b => float64.IsNaN b | _ => false end.

Lemma goEq_NaN v w : isNaNKey v = true → rv.goEq v w = false.
Proof.
  destruct v; try discriminate. simpl. intros Hnan.
  destruct w; try reflexivity.
  change (rv.goEq (VFloat bits) (VFloat bits0)) with (float64.eq bits bits0).
  unfold float64.eq. by rewrite Hnan.
Qed.

Lemma dedup_NaN vs : ∀ vs2,
  base.filter (λ v, isNaNKey v = true) (dedup vs2 vs)
  = base.filter (λ v, isNaNKey v = true) (vs2 ++ vs).
Proof.
  induction vs as [|v vs IH]; intros vs2; [by rewrite app_nil_r |].
  cbn [dedup].
  destruct (rv.goEq v (default VInvalid (last vs2))) eqn:Heq; cbn [negb].
  - rewrite IH, !filter_app, filter_cons.
    destruct (decide (isNaNKey v = true)) as [Hnan | _]; [| reflexivity].
    by rewrite (goEq_NaN _ _ Hnan) in Heq.
  - by rewrite IH, <- app_assoc.
Qed.

(** No key of the list is == to the key after it. *)
Fixpoint distinctNeighbours (vs : list Value) : Prop :=
  match vs with
  | a :: (b :: _) as vs' => rv.goEq b a = false ∧ distinctNeighbours vs'
  | _ => True
  end.

Lemma distinctNeighbours_snoc vs v :
  distinctNeighbours vs →
  rv.goEq v (default VInvalid (last vs)) = false ∨ vs = [] →
  distinctNeighbours (vs ++ [v]).
Proof.
  induction vs as [|a [|b vs] IH]; intros Hd Hv; [done | |].
  - destruct Hv as [Hv | ?]; [| done]. by split.
  - destruct Hd as [Hab Hd]. split; [exact Hab |].
    apply IH; [exact Hd |]. destruct Hv as [Hv | ?]; [| done]. by left.
Qed.

Lemma dedup_distinctNeighbours vs : ∀ vs2,
  vs2 ≠ [] → distinctNeighbours vs2 → distinctNeighbours (dedup vs2 vs).
Proof.
  induction vs as [|v vs IH]; intros vs2 Hne Hd; [exact Hd |].
  cbn [dedup].
  destruct (rv.goEq v (default VInvalid (last vs2))) eqn:Heq; cbn [negb].
  - by apply IH.
  - apply IH; [by destruct vs2 | apply distinctNeighbours_snoc; auto].
Qed.

(** X21: [sortKeys] drops a key only when it is == to the key kept just
    before it: in its result no key is == to its neighbour, and, a NaN
    being == to nothing, every NaN key the sort returns is still there,
    duplicates included. *)
Theorem sortKeys_keeps_NaN_keys (sort : list Value → list Value) (vs : list Value) :
  vs ≠ [] →
  distinctNeighbours (sortKeys sort vs)
  ∧ base.filter (λ v, isNaNKey v = true) (sortKeys sort vs)
    = base.filter (λ v, isNaNKey v = true) (sort vs).
Proof.
  intros Hne. unfold sortKeys. destruct vs as [|v0 vs0]; [done |].
  destruct (sort (v0 :: vs0)) as [|v rest]; [done |]. split.
  - by apply dedup_distinctNeighbours.
  - apply dedup_NaN.
Qed.

(** * options.go: fieldExporter *)

Module fieldExporter.
(** [type fieldExporter struct { typs map[reflect.Type]struct{}; pkgs
    map[string]struct{} }]: two sets. *)
Record t := { typs : gset Type_; pkgs : gset string }.

(** [strings.HasPrefix(s, prefix)]. *)
Definition HasPrefix (s prefix : string) : bool := String.prefix prefix s.

(** The body of the loop of [mayExport] for one [pkgPrefix]. *)
Definition matches (pkgPath pkgPrefix : string) : bool :=
  HasPrefix pkgPath pkgPrefix
  && (Nat.eqb (String.length pkgPath) (String.length pkgPrefix)
      || bool_decide (String.get (String.length pkgPrefix) pkgPath = Some "/"%char)
      || Nat.eqb (String.length pkgPrefix) 0).

(** options.go: [fieldExporter.mayExport], on the type [t] of the struct
    and the [PkgPath] of the field.  The loop returns at the first prefix
    that matches, whatever the order the map is ranged over in. *)
Definition mayExport (x : t) (ty : Type_) (pkgPath : string) : bool :=
  if Nat.ltb 0 (size (pkgs x)) && bool_decide (pkgPath = "") then true
  else if bool_decide (ty ∈ typs x) then true
  else existsb (matches pkgPath) (elements (pkgs x)).
End fieldExporter.

Lemma String_length_append (p r : string) :
  String.length (p +:+ r) = (String.length p + String.length r)%nat.
Proof.
  induction p as [|a p IH]; [reflexivity |].
  change (String a p +:+ r) with (String a (p +:+ r)). simpl. by rewrite IH.
Qed.

Lemma String_prefix_append (p r : string) : String.prefix p (p +:+ r) = true.
Proof.
  induction p as [|a p IH]; [by destruct r |].
  change (String a p +:+ r) with (String a (p +:+ r)). simpl.
  by destruct (ascii_dec a a).
Qed.

Lemma String_prefix_split (p : string) : ∀ q,
  String.prefix p q = true → ∃ r, q = p +:+ r.
Proof.
  induction p as [|a p IH]; intros q Hq; [by exists q |].
  destruct q as [|b q]; [discriminate |]. simpl in Hq.
  destruct (ascii_dec a b) as [-> | ?]; [| discriminate].
  destruct (IH q Hq) as (r & ->). by exists r.
Qed.

Lemma String_get_at_length (p r : string) :
  String.get (String.length p) (p +:+ r) = String.get 0 r.
Proof. symmetry. apply (String.append_correct2 p r 0). Qed.

(** The path prefix match of the comment on [AllowUnexportedWithinModule]:
    a string prefix match where what follows the prefix is nothing, or
    starts with a slash, or the prefix is empty. *)
Definition pathPrefixMatch (pkgPath pkgPrefix : string) : Prop :=
  pkgPrefix = "" ∨ pkgPath = pkgPrefix ∨ ∃ rest, pkgPath = pkgPrefix +:+ "/" +:+ rest.

Lemma matches_pathPrefixMatch pkgPath pkgPrefix :
  fieldExporter.matches pkgPath pkgPrefix = true ↔ pathPrefixMatch pkgPath pkgPrefix.
Proof.
  unfold fieldExporter.matches, fieldExporter.HasPrefix, pathPrefixMatch. split.
  - intros [Hpre Hnext]%andb_true_iff.
    destruct (String_prefix_split _ _ Hpre) as (r & ->).
    apply orb_true_iff in Hnext as [[Hlen | Hslash]%orb_true_iff | Hempty].
    + apply Nat.eqb_eq in Hlen. rewrite String_length_append in Hlen.
      right; left. destruct r; [by rewrite append_empty_r | simpl in Hlen; lia].
    + apply bool_decide_eq_true_1 in Hslash. rewrite String_get_at_length in Hslash.
      right; right. destruct r as [|c r]; [discriminate |].
      simpl in Hslash. injection Hslash as ->. by exists r.
    + apply Nat.eqb_eq in Hempty. left. by destruct pkgPrefix.
  - intros [-> | [-> | (rest & ->)]].
    + change (String.length "") with 0%nat. rewrite Nat.eqb_refl, orb_true_r.
      by destruct pkgPath.
    + pose proof (String_prefix_append pkgPrefix "") as Hpre.
      rewrite append_empty_r in Hpre. rewrite Hpre, Nat.eqb_refl. reflexivity.
    + rewrite String_prefix_append, String_get_at_length.
      change ("/" +:+ rest) with (String "/"%char rest). cbn [String.get].
      rewrite (bool_decide_eq_true_2 (Some "/"%char = Some "/"%char)) by reflexivity.
      by rewrite orb_true_r.
Qed.

(** X22: for a field that carries a package path, of a struct type not
    granted by type, [mayExport] holds exactly when some granted prefix is
    a path prefix match of the package path. *)
Theorem mayExport_is_path_prefix_match (x : fieldExporter.t) (ty : Type_)
    (pkgPath : string) :
  pkgPath ≠ "" → ty ∉ fieldExporter.typs x →
  fieldExporter.mayExport x ty pkgPath = true
  ↔ ∃ pkgPrefix, pkgPrefix ∈ fieldExporter.pkgs x ∧ pathPrefixMatch pkgPath pkgPrefix.
Proof.
  intros Hpath Hty. unfold fieldExporter.mayExport.
  rewrite (bool_decide_eq_false_2 _ Hpath), andb_false_r.
  rewrite (bool_decide_eq_false_2 _ Hty).
  rewrite existsb_exists. split.
  - intros (p & Hin & Hm). exists p. split.
    + by apply elem_of_elements, list_elem_of_In.
    + by apply matches_pathPrefixMatch.
  - intros (p & Hin & Hm). exists p. split.
    + by apply list_elem_of_In, elem_of_elements.
    + by apply matches_pathPrefixMatch.
Qed.

(** * cmpopts/ignore.go: IgnoreTypes *)

Module cmpopts.
(** ignore.go: [typeFilter.filter]; [p.Last()] is the last step of a path
    that has one. *)
Definition typeFilter_filter (W : World) (tf : list Type_) (p : Path) : bool :=
  match last p with
  | None => false
  | Some st => existsb (λ ti, AssignableTo W (step_Type st) ti) tf
  end.

(** ignore.go: [IgnoreTypes], the types given as their descriptors:
    [cmp.FilterPath(tf.filter, cmp.Ignore())]. *)
Definition IgnoreTypes (W : World) (tf : list Type_) : Option :=
  pathFilter (typeFilter_filter W tf) "cmpopts.typeFilter.filter" ignore.
End cmpopts.

(** X23: with [IgnoreTypes] first among the options, a node whose type is
    assignable to one of the types is ignored wherever it stands in the
    tree: [compareAny] returns, with the tallies as they were, whatever the
    two values and the options after it are. *)
Theorem IgnoreTypes_ignores_the_node W (fuel : nat) (tf : list Type_)
    (rest : list Option) (step : PathStep) (s : state) :
  opts s = validator :: cmpopts.IgnoreTypes W tf :: rest →
  existsb (λ ti, AssignableTo W (step_Type step) ti) tf = true →
  len (push (curPath s) step) < threshold s →
  ∃ s', compareAny W (S fuel) step s = Ret tt s' ∧ result s' = result s.
Proof.
  intros Ho Htf Hlen. rewrite compareAny_S. cbv zeta.
  rewrite Check_short by exact Hlen.
  set (s2 := set_recChecker _ _).
  assert (opts s2 = validator :: cmpopts.IgnoreTypes W tf :: rest) as Ho2 by exact Ho.
  assert (curPath s2 = push (curPath s) step) as Hp2 by reflexivity.
  assert (result s2 = result s) as Hres2 by reflexivity.
  clearbody s2.
  unfold bind at 1. unfold tryOptions, Options_filter.
  unfold bind at 1. unfold gets at 1. rewrite Ho2.
  cbn [Option_filter Options_filter_loop].
  unfold bind at 1. unfold bind at 1.
  assert (∃ r, validator_filter (step_Values step).1 (step_Values step).2 s2 = Ret r s2
               ∧ (r = Nil ∨ r = validator)) as (r & -> & Hr).
  { unfold validator_filter, bind, gets. destruct (_ || _); [eauto |].
    destruct (forbidden _); eauto. }
  assert (cmpopts.typeFilter_filter W tf (curPath s2) = true) as Hf.
  { unfold cmpopts.typeFilter_filter. rewrite Hp2. unfold push. by rewrite last_snoc. }
  destruct Hr as [-> | ->];
    unfold bind at 1; unfold cmpopts.IgnoreTypes; cbn [Option_filter];
    unfold bind at 1; unfold gets at 1; rewrite Hf;
    unfold ret at 1; cbn [Option_apply];
    unfold report, bind, gets, emit, modify, ret; cbn;
    (eexists; split; [reflexivity | exact Hres2]).
Qed.

(** * compareSlice: the loops end *)

(** A walker [keeps] the options [o] when, started in a state whose options
    are [o], it returns a value that satisfies [Q] in a state whose options
    are [o], or panics: it does not run out of the depth the recursive calls
    are given. *)
Definition keeps (o : list Option) {A} (Q : A → Prop) (m : M A) : Prop :=
  ∀ s, opts s = o →
    match m s with
    | Ret a s' => opts s' = o ∧ Q a
    | Panic _ => True
    | Exhausted => False
    end.

Definition anything {A} : A → Prop := λ _, True.

Lemma keeps_bind o {A B} (Q : A → Prop) (R : B → Prop) (m : M A) (k : A → M B) :
  keeps o Q m → (∀ a, Q a → keeps o R (k a)) → keeps o R (bind m k).
Proof.
  intros Hm Hk s Ho. unfold bind. specialize (Hm s Ho).
  destruct (m s) as [a s1| |]; [| done | done].
  destruct Hm as [Ho1 Ha]. by apply Hk.
Qed.

Lemma keeps_weaken o {A} (Q R : A → Prop) (m : M A) :
  (∀ a, Q a → R a) → keeps o Q m → keeps o R m.
Proof.
  intros HQR Hm s Ho. specialize (Hm s Ho). destruct (m s); [| done | done].
  destruct Hm. auto.
Qed.

Lemma keeps_ret o {A} (Q : A → Prop) (a : A) : Q a → keeps o Q (ret a).
Proof. by intros Ha s Ho. Qed.

Lemma keeps_panic o {A} (Q : A → Prop) msg : keeps o Q (@panic A msg).
Proof. by intros s Ho. Qed.

Lemma keeps_must o {A} (x : option A) what : keeps o anything (must x what).
Proof. by destruct x; intros s Ho. Qed.

Lemma keeps_gets o {A} (f : state → A) : keeps o anything (gets f).
Proof. by intros s Ho. Qed.

Lemma keeps_gets_opts o : keeps o (λ os, os = o) (gets opts).
Proof. by intros s Ho. Qed.

Lemma keeps_Next o : keeps o anything Next.
Proof. intros s Ho. unfold Next. by destruct (dynChecker_Next _). Qed.

Lemma keeps_Check o p : keeps o anything (Check p).
Proof.
  intros s Ho. unfold Check. destruct (len p <? _); [done |]. by destruct (0 <? _).
Qed.

Lemma keeps_report o eq rf : keeps o anything (report eq rf).
Proof.
  intros s Ho. unfold report, bind, gets, emit, modify, ret.
  destruct (Z.land rf reportIgnored =? 0); [destruct eq |]; done.
Qed.

Lemma keeps_callTTBFunc o W f x y : keeps o anything (callTTBFunc W f x y).
Proof.
  unfold callTTBFunc. eapply keeps_bind; [apply keeps_Next | intros ok _].
  destruct ok; simpl; [| by apply keeps_ret].
  destruct (negb _); [apply keeps_panic | by apply keeps_ret].
Qed.

Ltac keeps_step :=
  lazymatch goal with
  | |- keeps _ _ (bind _ _) => eapply keeps_bind; [| intros ? ?]
  | |- keeps _ _ (ret _) => by apply keeps_ret
  | |- keeps _ _ (panic _) => apply keeps_panic
  | |- keeps _ _ indexOutOfRange => apply keeps_panic
  | |- keeps _ _ (gets _) => apply keeps_gets
  | |- keeps _ _ (must _ _) => apply keeps_must
  | |- keeps _ _ (report _ _) => apply keeps_report
  | |- keeps _ _ Next => apply keeps_Next
  | |- keeps _ _ (Check _) => apply keeps_Check
  | |- keeps _ _ (callTTBFunc _ _ _ _) => apply keeps_callTTBFunc
  | |- keeps _ _ (if ?b then _ else _) => destruct b
  | |- keeps _ _ (match ?x with _ => _ end) => destruct x
  | |- keeps _ _ (let _ := _ in _) => cbv zeta
  end.
Ltac keeps_auto := repeat keeps_step; try (by eauto).

Lemma Index_in_range v i e l :
  rv.Index v i = Some e → rv.Len v = Some l → (i < l)%nat.
Proof.
  destruct v as [| | | | | | | | | | |es|[es|]| | |]; try discriminate;
    simpl; intros Hi [= <-]; by apply lookup_lt_Some in Hi.
Qed.

(** [withIndexes] returns only for indexes that are in range, a step of
    the element type, the state untouched; and it does return or panic. *)
Lemma withIndexes_in_range te vx vy ix iy lx ly s step s' :
  rv.Len vx = Some lx → rv.Len vy = Some ly →
  withIndexes te vx vy ix iy s = Ret step s' →
  (0 <= ix → (Z.to_nat ix < lx)%nat) ∧ (0 <= iy → (Z.to_nat iy < ly)%nat).
Proof.
  intros Hlx Hly. unfold withIndexes, bind, must, ret, panic.
  destruct (0 <=? ix) eqn:Hix.
  - destruct (rv.Index vx (Z.to_nat ix)) as [ex|] eqn:Hex; [| done].
    pose proof (Index_in_range _ _ _ _ Hex Hlx).
    destruct (0 <=? iy) eqn:Hiy.
    + destruct (rv.Index vy (Z.to_nat iy)) as [ey|] eqn:Hey; [| done].
      pose proof (Index_in_range _ _ _ _ Hey Hly). done.
    + apply Z.leb_gt in Hiy. intros _. split; [done | lia].
  - apply Z.leb_gt in Hix. destruct (0 <=? iy) eqn:Hiy.
    + destruct (rv.Index vy (Z.to_nat iy)) as [ey|] eqn:Hey; [| done].
      pose proof (Index_in_range _ _ _ _ Hey Hly). intros _. split; [lia | done].
    + apply Z.leb_gt in Hiy. intros _. split; lia.
Qed.

Lemma keeps_withIndexes o te vx vy ix iy :
  keeps o (λ step, step_Type step = te) (withIndexes te vx vy ix iy).
Proof.
  intros s Ho. unfold withIndexes, bind, must, ret, panic.
  destruct (0 <=? ix); [destruct (rv.Index vx (Z.to_nat ix)) |];
    (destruct (0 <=? iy); [destruct (rv.Index vy (Z.to_nat iy)) |]); done.
Qed.

Section Walkers_keep.
  Context (W : World) (rec : PathStep → M unit) (o : list Option) (te : Type_).
  Hypothesis Hrec : ∀ step, step_Type step = te → keeps o anything (rec step).

Lemma keeps_statelessCompare step :
  step_Type step = te → keeps o anything (statelessCompare rec step).
Proof.
  intros Hte s Ho. rewrite statelessCompare_unfold.
  pose proof (Hrec step Hte (set_reporters [] (set_result diff.zero s)) Ho) as H.
  destruct (rec step _) as [a s'| |]; [| done | done]. by destruct H.
Qed.

Lemma keeps_scanIgnored mk idxs :
  (∀ i, keeps o (λ step, step_Type step = te) (mk i)) →
  keeps o anything (scanIgnored rec mk idxs).
Proof.
  intros Hmk. induction idxs as [|i idxs IH]; simpl; [by apply keeps_ret |].
  eapply keeps_bind; [apply Hmk | intros step Hstep].
  eapply keeps_bind; [by apply keeps_statelessCompare | intros res _].
  eapply keeps_bind; [apply IH | intros r _; by apply keeps_ret].
Qed.

Lemma keeps_runPlan f p :
  (∀ ix iy, keeps o anything (f ix iy)) → keeps o anything (runPlan f p).
Proof.
  intros Hf. induction p as [es | ix iy k IH]; simpl; [by apply keeps_ret |].
  eapply keeps_bind; [apply Hf | intros r _; apply IH].
Qed.

(** Every turn of the replay loop moves [ix] or [iy] forward, or panics:
    as many turns as there are elements left are enough. *)
Lemma keeps_replay vx vy lx ly ignoredX ignoredY :
  rv.Len vx = Some lx → rv.Len vy = Some ly →
  ∀ n ix iy edits,
    ((lx - ix) + (ly - iy) ≤ n)%nat →
    keeps o anything (replay rec te vx vy lx ly ignoredX ignoredY n ix iy edits).
Proof.
  intros Hlx Hly. induction n as [|n IH]; intros ix iy edits Hn.
  - cbn [replay].
    rewrite (bool_decide_eq_false_2 (ix < lx)%nat), (bool_decide_eq_false_2 (iy < ly)%nat)
      by lia.
    by apply keeps_ret.
  - cbn [replay]. destruct (_ || _); [| by apply keeps_ret].
    eapply keeps_bind.
    { instantiate (1 := anything).
      destruct (default false (ignoredX !! ix)); [by apply keeps_ret |].
      destruct (default false (ignoredY !! iy)); [by apply keeps_ret |].
      destruct edits; [apply keeps_panic | by apply keeps_ret]. }
    intros ee _ s Ho.
    assert (∀ jx jy ix' iy',
      ((0 <= jx → (Z.to_nat jx < lx)%nat) → (0 <= jy → (Z.to_nat jy < ly)%nat) →
       ((lx - ix') + (ly - iy') ≤ n)%nat) →
      match (step <- withIndexes te vx vy jx jy ;;
             rec step ;;;
             replay rec te vx vy lx ly ignoredX ignoredY n ix' iy' ee.2) s with
      | Ret a s' => opts s' = o ∧ anything a
      | Panic _ => True
      | Exhausted => False
      end) as Hturn.
    { intros jx jy ix' iy' Hmeasure. unfold bind at 1.
      pose proof (keeps_withIndexes o te vx vy jx jy s Ho) as Hw.
      destruct (withIndexes te vx vy jx jy s) as [step s2| |] eqn:Ew; [| done | done].
      destruct Hw as [Ho2 Hte].
      destruct (withIndexes_in_range _ _ _ _ _ _ _ _ _ _ Hlx Hly Ew) as [Hx Hy].
      unfold bind at 1. pose proof (Hrec step Hte s2 Ho2) as Hr.
      destruct (rec step s2) as [[] s3| |]; [| done | done].
      destruct Hr as [Ho3 _]. apply IH; [by apply Hmeasure | exact Ho3]. }
    destruct (ee.1); apply Hturn; intros Hx Hy;
      try specialize (Hx ltac:(lia)); try specialize (Hy ltac:(lia));
      rewrite ?Nat2Z.id in *; lia.
Qed.

Lemma keeps_compareSlice t vx vy :
  Elem W t = te → keeps o anything (compareSlice W rec t vx vy).
Proof.
  intros Hte s Ho. unfold compareSlice. cbv zeta. rewrite Hte.
  unfold bind at 1. unfold must at 1.
  destruct (rv.Len vx) as [lx|] eqn:Hlx; [| done]. unfold ret at 1.
  unfold bind at 1. unfold must at 1.
  destruct (rv.Len vy) as [ly|] eqn:Hly; [| done]. unfold ret at 1.
  revert s Ho.
  change (keeps o anything
    (sx <- scanIgnored rec (λ i, withIndexes te vx vy (Z.of_nat i) (-1)) (seq 0 lx) ;;
     sy <- scanIgnored rec (λ i, withIndexes te vx vy (-1) (Z.of_nat i)) (seq 0 ly) ;;
     edits <- runPlan
       (λ ix iy,
          match sx.1 !! ix, sy.1 !! iy with
          | Some jx, Some jy =>
              step <- withIndexes te vx vy (Z.of_nat jx) (Z.of_nat jy) ;;
              statelessCompare rec step
          | _, _ => indexOutOfRange
          end)
       (Difference W (length sx.1) (length sy.1)) ;;
     replay rec te vx vy lx ly sx.2 sy.2 (lx + ly) 0 0 edits)).
  eapply keeps_bind;
    [apply keeps_scanIgnored; intros i; apply keeps_withIndexes | intros sx _].
  eapply keeps_bind;
    [apply keeps_scanIgnored; intros i; apply keeps_withIndexes | intros sy _].
  eapply keeps_bind.
  - apply keeps_runPlan. intros ix iy.
    destruct (_ !! ix); [| apply keeps_panic]. destruct (_ !! iy); [| apply keeps_panic].
    eapply keeps_bind; [apply keeps_withIndexes | intros step Hstep].
    by apply keeps_statelessCompare.
  - intros edits _. apply keeps_replay; [exact Hlx | exact Hly | lia].
Qed.
End Walkers_keep.

(** The kinds rule 3 compares without a recursive call. *)
Definition isLeafKind (k : reflect.Kind) : bool :=
  match k with
  | reflect.Bool
  | reflect.Int | reflect.Int8 | reflect.Int16 | reflect.Int32 | reflect.Int64
  | reflect.Uint | reflect.Uint8 | reflect.Uint16 | reflect.Uint32 | reflect.Uint64
  | reflect.Uintptr
  | reflect.Float32 | reflect.Float64 | reflect.Complex64 | reflect.Complex128
  | reflect.String | reflect.Chan | reflect.UnsafePointer | reflect.Func => true
  | _ => false
  end.

(** The validator alone makes no recursive call. *)
Lemma keeps_tryOptions_validator W rec t vx vy :
  keeps [validator] anything (tryOptions W rec t vx vy).
Proof.
  intros s Ho. unfold tryOptions, Options_filter.
  unfold bind at 1. unfold gets at 1. rewrite Ho.
  cbn [Option_filter Options_filter_loop].
  unfold validator_filter, bind, gets, ret.
  destruct (negb (rv.IsValid vx) || negb (rv.IsValid vy)) eqn:Hval; cbn [Option_apply].
  - unfold validator_apply. rewrite Hval.
    unfold report, bind, gets, emit, modify, ret.
    change (Z.land 0 reportIgnored =? 0) with true. cbv iota.
    by destruct (Bool.eqb _ _).
  - destruct (forbidden (curPath s)); cbn [Option_apply]; [| done].
    unfold validator_apply. rewrite Hval. done.
Qed.

(** With no option but the validator and no Equal method on the type of
    the node, [compareAny] ends when rule 3 does. *)
Lemma keeps_compareAny_body W rec step :
  MethodEqual W (step_Type step) = None →
  (∀ vx vy, keeps [validator] anything (compareKind W rec (step_Type step) vx vy)) →
  keeps [validator] anything (compareAny_body W rec step).
Proof.
  intros HM HK s Ho. rewrite compareAny_body_unfold. cbv zeta.
  match goal with |- context [Check ?p ?s0] =>
    pose proof (keeps_Check [validator] p s0 Ho) as HC;
    destruct (Check p s0) as [[] s1| |] end; [| done | done].
  destruct HC as [Ho1 _].
  match goal with |- context [bind ?m ?k s1] =>
    assert (keeps [validator] anything (bind m k)) as Hrules end.
  { eapply keeps_bind; [apply keeps_tryOptions_validator | intros b _].
    destruct b; [by apply keeps_ret |].
    unfold tryMethod. rewrite HM.
    eapply keeps_bind; [by apply (keeps_ret _ anything) | intros b _].
    destruct b; [by apply keeps_ret |].
    apply HK. }
  specialize (Hrules s1 Ho1).
  match goal with |- context [bind ?m ?k s1] =>
    destruct (bind m k s1) as [[] s2| |] end; [| done | done].
  by destruct Hrules.
Qed.

Lemma keeps_compareKind_leaf W rec t vx vy :
  isLeafKind (Kind W t) = true → keeps [validator] anything (compareKind W rec t vx vy).
Proof.
  intros Hleaf. unfold compareKind. destruct (Kind W t); try discriminate Hleaf; keeps_auto.
Qed.

(** X24: [compareSlice] returns or panics whenever the recursive calls on
    its elements do, from the states that hold the options it was started
    with: its loops end, the replay of the edit script included, every turn
    of which moves one of the two indexes forward or panics.  With the
    engine's own [compareAny] one level of calls is enough for elements of
    a basic kind: given no option, [Equal] on two slices or arrays of such
    elements returns a verdict or panics, whatever their lengths and
    whatever edit script [diff.Difference] hands back. *)
Theorem compareSlice_loops_end W (t : Type_) (vx vy : Value) :
  (∀ (rec : PathStep → M unit) (s : state),
     (∀ step s', step_Type step = Elem W t → opts s' = opts s →
        (∃ s'', rec step s' = Ret tt s'' ∧ opts s'' = opts s)
        ∨ (∃ msg, rec step s' = Panic msg)) →
     (∃ s', compareSlice W rec t vx vy s = Ret tt s')
     ∨ (∃ msg, compareSlice W rec t vx vy s = Panic msg))
  ∧ (Kind W t = reflect.Slice ∨ Kind W t = reflect.Array →
     MethodEqual W t = None → MethodEqual W (Elem W t) = None →
     isLeafKind (Kind W (Elem W t)) = true →
     ∀ fuel,
       (∃ b, Equal W (S (S fuel)) (Some (t, vx)) (Some (t, vy)) [] = Returns b)
       ∨ (∃ msg, Equal W (S (S fuel)) (Some (t, vx)) (Some (t, vy)) [] = Panics msg)).
Proof.
  split.
  - intros rec s Hrec.
    assert (∀ step, step_Type step = Elem W t → keeps (opts s) anything (rec step)) as Hk.
    { intros step Hte s' Ho. destruct (Hrec step s' Hte Ho) as [(s'' & -> & ?) | (msg & ->)];
        done. }
    pose proof (keeps_compareSlice W rec (opts s) (Elem W t) Hk t vx vy eq_refl s eq_refl) as H.
    destruct (compareSlice W rec t vx vy s) as [[] s'| |]; [eauto | eauto | done].
  - intros HK HM HMe Hleaf fuel.
    assert (∀ step, step_Type step = Elem W t →
                    keeps [validator] anything (compareAny W (S fuel) step)) as Hleafs.
    { intros step Hte. cbn [compareAny]. apply keeps_compareAny_body.
      - by rewrite Hte.
      - intros ex ey. rewrite Hte. by apply keeps_compareKind_leaf. }
    assert (keeps [validator] anything
              (compareAny W (S (S fuel)) (Root {| typ := t; vx := vx; vy := vy |}))) as Hroot.
    { cbn [compareAny]. apply keeps_compareAny_body; [exact HM |].
      intros ex ey. cbn [step_Type step_pathStep typ]. unfold compareKind.
      pose proof (keeps_compareSlice W (compareAny W (S fuel)) [validator] (Elem W t)
                    Hleafs t ex ey eq_refl) as Hslice.
      destruct HK as [-> | ->]; [keeps_auto | exact Hslice]. }
    unfold Equal, traverse. change (newState []) with (Ret tt emptyState).
    rewrite rootStep_same. specialize (Hroot emptyState eq_refl).
    destruct (compareAny W (S (S fuel)) _ emptyState) as [[] s| |]; [eauto | eauto | done].
Qed.

(** * Reporters and transformers *)

(** X25: reporters are listeners: attaching a reporter to a comparison
    changes neither the verdict [Equal] returns nor the panic it ends in. *)
Theorem reporters_are_listeners W (fuel : nat) (x y : option (Type_ * Value))
    (os : list Option) (r : reporterOption) :
  Equal W fuel x y [Options os; reporter r] = Equal W fuel x y os.
Proof.
  unfold Equal. pose proof (traverse_with_reporter W fuel x y os r) as Hsim.
  destruct (traverse W fuel x y [Options os; reporter r]) as [[] s| |],
    (traverse W fuel x y os) as [[] s'| |]; simpl in Hsim; try done.
  - destruct Hsim as (_ & Hres & _). by rewrite Hres.
  - by rewrite Hsim.
Qed.

(** [compareAny] on the Transform step of [tr] itself, at a result type of
    kind Int that has no Equal method, with [tr] the only option: [tr] is
    not applied upon itself, and the two ints are compared. *)
Lemma compareAny_after_transform W fuel (tr : transformer) (u : Type_) (a b : Z) s :
  opts s = [validator; Transformer tr] →
  reporters s = [] →
  Kind W u = reflect.Int → MethodEqual W u = None →
  len (push (curPath s) (Transform {| typ := u; vx := VInt a; vy := VInt b |} tr))
  < threshold s →
  ∃ s', compareAny W (S fuel) (Transform {| typ := u; vx := VInt a; vy := VInt b |} tr) s
        = Ret tt s'
        ∧ opts s' = opts s ∧ reporters s' = [] ∧ curPath s' = curPath s
        ∧ dynChecker_ s' = dynChecker_ s
        ∧ threshold s' = threshold s
        ∧ diff.NumSame (result s')
          = (if a =? b then int_add (diff.NumSame (result s)) 1 else diff.NumSame (result s))
        ∧ diff.NumDiff (result s')
          = (if a =? b then diff.NumDiff (result s) else int_add (diff.NumDiff (result s)) 1).
Proof.
  intros Ho Hr HK HM Hlen. rewrite compareAny_S. cbv zeta.
  rewrite Check_short by exact Hlen.
  cbn [step_Type step_Values step_pathStep typ vx vy fst snd].
  unfold bind at 1.
  rewrite (tryOptions_validator_then _ _ _ _ _ [Transformer tr]);
    [| exact Ho | reflexivity | reflexivity | by apply forbidden_push].
  cbn [Options_filter_loop Option_filter].
  unfold bind at 1. unfold bind at 1. unfold bind at 1. unfold gets at 1.
  cbn [curPath set_recChecker set_calls set_curPath]. unfold push at 1.
  rewrite rev_unit. cbn [inTransformTail]. rewrite Z.eqb_refl.
  unfold ret at 1. unfold ret at 1. unfold ret at 1.
  unfold bind at 1. unfold tryMethod. rewrite HM. unfold ret at 1.
  unfold compareKind. rewrite HK.
  unfold bind, must, ret. cbn [rv.Int_].
  unfold report, bind, gets, emit, modify, ret.
  change (Z.land 0 reportIgnored =? 0) with true. cbv iota.
  rewrite Hr.
  assert (threshold (set_recChecker {| rc_next := threshold s |} s) = threshold s) as Hth.
  { unfold threshold at 1. cbn [recChecker_ set_recChecker rc_next].
    unfold threshold. destruct (rc_next (recChecker_ s) =? 0) eqn:E; [reflexivity |].
    by rewrite E. }
  destruct (a =? b); cbn;
    (eexists; split; [reflexivity |]); cbn; rewrite ?pop_push;
    repeat split; try done; exact Hth.
Qed.

(** [callTRFunc] at an int image: the image is returned; on a turn of the
    checker the transformer is run again and the two images compared, under
    the Transform step, where the transformer does not apply to itself. *)
Lemma callTRFunc_int W fuel (tr : transformer) (u : Type_) (dx : Value) (a : Z) s :
  opts s = [validator; Transformer tr] →
  reporters s = [] →
  Kind W u = reflect.Int → MethodEqual W u = None →
  call1 (tr_fnc tr) dx = VInt a →
  len (curPath s) + 1 < threshold s →
  ∃ s', callTRFunc W (compareAny W (S fuel)) (tr_fnc tr) dx u tr s = Ret (VInt a) s'
        ∧ opts s' = opts s ∧ reporters s' = [] ∧ curPath s' = curPath s
        ∧ result s' = result s ∧ threshold s' = threshold s.
Proof.
  intros Ho Hr HK HM Hcall Hlen. unfold callTRFunc. rewrite sanitizeValue_id, Hcall.
  unfold bind at 1. unfold Next.
  destruct (dynChecker_Next (dynChecker_ s)) as [[|] dc]; cbn [negb].
  2:{ eexists. split; [reflexivity |]. by repeat split. }
  unfold bind at 1. rewrite statelessCompare_unfold.
  destruct (compareAny_after_transform W fuel tr u a a
              (set_reporters [] (set_result diff.zero (set_dynChecker dc s))))
    as (s1 & -> & Ho1 & Hr1 & Hp1 & Hd1 & Hth1 & Hsame & Hdiff);
    [exact Ho | reflexivity | exact HK | exact HM | |].
  { cbn [curPath set_reporters set_result set_dynChecker]. unfold push. rewrite len_app.
    change (len [_]) with 1. exact Hlen. }
  rewrite Z.eqb_refl in Hdiff. cbn in Hdiff.
  unfold diff.Equal. cbn [result set_reporters set_result]. rewrite Hdiff.
  change (negb (0 =? 0)) with false. cbv iota.
  eexists. split; [reflexivity |].
  cbn. rewrite Hr. repeat split; try done.
Qed.

(** X26: a Transformer whose result type is an integer type without an
    Equal method, given as the only option, makes [Equal] compare the two
    images: the transformer is applied once to each value and not again to
    its own results, and the verdict is whether the images are the same
    integer. *)
Theorem Transformer_compares_the_images W (fuel : nat) (t u : Type_) (dx dy : Value)
    (a b : Z) (tr : transformer) :
  tr_typ tr ≠ None →
  typeMatches W (tr_typ tr) t = true →
  f1_out (tr_fnc tr) = u →
  Kind W u = reflect.Int → MethodEqual W u = None →
  rv.IsValid dx = true → rv.IsValid dy = true →
  call1 (tr_fnc tr) dx = VInt a → call1 (tr_fnc tr) dy = VInt b →
  Equal W (S (S fuel)) (Some (t, dx)) (Some (t, dy)) [Transformer tr] = Returns (a =? b).
Proof.
  intros Hty Hmatch Hout HK HM Hx Hy Ha Hb.
  rewrite (Equal_at_root W (S fuel) _ _ [Transformer tr] [validator; Transformer tr]).
  2:{ unfold newState. cbn [processOptions processOption isFiltered]. unfold bind.
      by rewrite (bool_decide_eq_true_2 _ Hty). }
  rewrite rootStep_same. unfold rules.
  cbn [step_Type step_Values step_pathStep typ vx vy fst snd].
  unfold bind at 1.
  rewrite (tryOptions_validator_then _ _ _ _ _ [Transformer tr]);
    [| reflexivity | exact Hx | exact Hy | reflexivity].
  cbn [Options_filter_loop Option_filter].
  unfold bind at 1. unfold bind at 1. unfold bind at 1. unfold gets at 1.
  cbn [curPath rootState rev app inTransformTail]. rewrite Hmatch.
  unfold ret at 1. unfold ret at 1.
  cbn [Option_apply]. unfold transformer_apply. rewrite Hout.
  unfold bind at 1. unfold bind at 1.
  destruct (callTRFunc_int W fuel tr u dx a
              (rootState [validator; Transformer tr] (Root {| typ := t; vx := dx; vy := dy |})))
    as (s1 & -> & Ho1 & Hr1 & Hp1 & Hres1 & Hth1);
    [reflexivity | reflexivity | exact HK | exact HM | exact Ha | reflexivity |].
  unfold bind at 1.
  destruct (callTRFunc_int W fuel tr u dy b s1)
    as (s2 & -> & Ho2 & Hr2 & Hp2 & Hres2 & Hth2);
    [by rewrite Ho1 | exact Hr1 | exact HK | exact HM | exact Hb
    | by rewrite Hp1, Hth1 |].
  destruct (compareAny_after_transform W fuel tr u a b s2)
    as (s3 & -> & _ & _ & _ & _ & _ & _ & Hdiff);
    [by rewrite Ho2, Ho1 | exact Hr2 | exact HK | exact HM | |].
  { unfold push. rewrite len_app, Hp2, Hp1, Hth2, Hth1. reflexivity. }
  unfold ret. unfold diff.Equal. rewrite Hdiff, Hres2, Hres1.
  cbn [result rootState diff.NumDiff diff.zero].
  by destruct (a =? b).
Qed.

(** X27: pointers are compared by what they point to, not by address:
    with no option and no Equal method, [Equal] on two non-nil pointers to
    integers returns whether the two integers are the same. *)
Theorem Equal_compares_the_pointees W (fuel : nat) (t u : Type_) (px py : uintptr)
    (a b : Z) :
  Kind W t = reflect.Ptr → Elem W t = u → Kind W u = reflect.Int →
  MethodEqual W t = None → MethodEqual W u = None →
  px ≠ 0 → py ≠ 0 →
  Load W px = VInt a → Load W py = VInt b →
  Equal W (S (S fuel)) (Some (t, VPtr px)) (Some (t, VPtr py)) [] = Returns (a =? b).
Proof.
  intros HKt HE HKu HMt HMu Hpx Hpy Ha Hb.
  rewrite (Equal_at_root W (S fuel) _ _ [] [validator]) by reflexivity.
  rewrite rootStep_same. unfold rules.
  cbn [step_Type step_Values step_pathStep typ vx vy fst snd].
  unfold bind at 1.
  rewrite tryOptions_validator_only; [| reflexivity | reflexivity | reflexivity | reflexivity].
  unfold bind at 1. unfold tryMethod at 1. rewrite HMt. unfold ret at 1.
  unfold compareKind at 1. rewrite HKt.
  unfold bind at 1. unfold must at 1. cbn [rv.IsNil]. unfold ret at 1.
  unfold bind at 1. unfold must at 1. unfold ret at 1.
  rewrite (proj2 (Z.eqb_neq px 0) Hpx), (proj2 (Z.eqb_neq py 0) Hpy). cbn [orb].
  unfold bind at 1. unfold must at 1. cbn [rv.Pointer_]. unfold ret at 1.
  unfold bind at 1. unfold must at 1. unfold ret at 1.
  rewrite HE, Ha, Hb.
  rewrite compareAny_S. cbv zeta.
  rewrite Check_short by reflexivity.
  cbn [step_Type step_Values step_pathStep typ vx vy fst snd].
  unfold bind at 1.
  rewrite tryOptions_validator_only; [| reflexivity | reflexivity | reflexivity | reflexivity].
  unfold bind at 1. unfold tryMethod. rewrite HMu. unfold ret at 1.
  unfold compareKind. rewrite HKu.
  unfold bind, must, ret. cbn [rv.Int_].
  unfold report, bind, gets, emit, modify, ret.
  change (Z.land 0 reportIgnored =? 0) with true. cbv iota.
  by destruct (a =? b).
Qed.

(** * The further properties at concrete inputs *)

(** [type B struct { _ int; _ string }], next to the types of
    [exampleWorld]. *)
Definition blankWorld : World := {|
  Kind := λ t, if bool_decide (t = "B") then reflect.Struct else Kind exampleWorld t;
  Elem := Elem exampleWorld;
  Fields := λ t,
    if bool_decide (t = "B")
    then [ {| reflect.Name := "_"; reflect.Typ := "int" |};
           {| reflect.Name := "_"; reflect.Typ := "string" |} ]
    else Fields exampleWorld t;
  MethodEqual := MethodEqual exampleWorld;
  AssignableTo := AssignableTo exampleWorld;
  Load := Load exampleWorld;
  SortKeys := SortKeys exampleWorld;
  Difference := Difference exampleWorld;
  GoString := GoString exampleWorld;
  Format := Format exampleWorld;
  IsUpper := IsUpper exampleWorld;
  AtLeastGo110 := AtLeastGo110 exampleWorld
|}.

Lemma compareStruct_skips_blank_witness :
  (compareStruct exampleWorld (compareAny exampleWorld 3) "S"
     (VStruct [VInt 1; VInt 7]) (VStruct [VInt 2; VInt 7]) (atRoot [])
   = compareNamed exampleWorld (compareAny exampleWorld 3) "S"
       (VStruct [VInt 1; VInt 7]) (VStruct [VInt 2; VInt 7])
       (namedFields exampleWorld "S") false (atRoot [])
   ∧ compareStruct exampleWorld (compareAny exampleWorld 3) "S"
       (VStruct [VInt 1; VInt 7]) (VStruct [VInt 2; VInt 7]) (atRoot [])
     = compareStruct exampleWorld (compareAny exampleWorld 3) "S"
         (VStruct [VInt 5; VInt 7]) (VStruct [VInt 5; VInt 7]) (atRoot [])
   ∧ ∀ fuel, Equal exampleWorld (S (S fuel)) (Some ("S", VStruct [VInt 1; VInt 7]))
               (Some ("S", VStruct [VInt 2; VInt 7])) []
             = Returns true)
  ∧ (compareStruct blankWorld (compareAny blankWorld 3) "B"
       (VStruct [VInt 1; VString "a"]) (VStruct [VInt 2; VString "b"]) (atRoot [])
     = Ret tt (atRoot [])
     ∧ ∀ fuel, Equal blankWorld (S fuel) (Some ("B", VStruct [VInt 1; VString "a"]))
                 (Some ("B", VStruct [VInt 2; VString "b"])) []
               = Returns true).
Proof.
  split.
  - assert (Fields exampleWorld "S"
            = [ {| reflect.Name := "_"; reflect.Typ := "int" |};
                {| reflect.Name := "A"; reflect.Typ := "int" |} ]) as HF by reflexivity.
    destruct (compareStruct_skips_blank exampleWorld (compareAny exampleWorld 3) "S"
                [VInt 5; VInt 7] [VInt 1; VInt 7] [VInt 5; VInt 7] [VInt 2; VInt 7]
                (atRoot [])) as (Ha & Hb & _ & Hd).
    + rewrite HF. constructor; [by left |]. constructor; [by right |]. constructor.
    + rewrite HF. constructor; [by left |]. constructor; [by right |]. constructor.
    + split; [exact Ha |]. split; [exact Hb |].
      apply Hd; try reflexivity; rewrite HF.
      * constructor; [by left |]. constructor; [by right | constructor].
      * constructor; [by left |]. constructor; [right; by exists 7 | constructor].
  - assert (Fields blankWorld "B"
            = [ {| reflect.Name := "_"; reflect.Typ := "int" |};
                {| reflect.Name := "_"; reflect.Typ := "string" |} ]) as HF by reflexivity.
    destruct (compareStruct_skips_blank blankWorld (compareAny blankWorld 3) "B"
                [VInt 1; VString "a"] [VInt 1; VString "a"]
                [VInt 2; VString "b"] [VInt 2; VString "b"]
                (atRoot [])) as (_ & _ & Hc & _).
    + rewrite HF. constructor; [by right |]. constructor; [by right |]. constructor.
    + rewrite HF. constructor; [by right |]. constructor; [by right |]. constructor.
    + destruct Hc as [Hc1 Hc2].
      * rewrite HF. by repeat constructor.
      * split; [exact Hc1 |]. apply Hc2; reflexivity.
Defined.

(** The state [compareAny] leaves after comparing the ints 1 and 2 from the
    empty state. *)
Definition afterIntRoot : state :=
  match compareAny exampleWorld 3 (intRoot 1 2) emptyState with
  | Ret _ s => s
  | _ => emptyState
  end.

Lemma compareAny_restores_path_witness :
  curPath afterIntRoot = curPath emptyState
  ∧ reporters afterIntRoot = reporters emptyState
  ∧ opts afterIntRoot = opts emptyState
  ∧ exporters afterIntRoot = exporters emptyState
  ∧ (reporters emptyState = [] → calls afterIntRoot = calls emptyState).
Proof.
  apply (compareAny_restores_path exampleWorld 3 (intRoot 1 2) emptyState afterIntRoot).
  vm_compute. reflexivity.
Defined.

(** [Equal(x, y, FilterPath(always, Ignore()), Options{reporter, nil},
    AllowUnexported(S{}))]. *)
Definition someOptions : list Option :=
  [pathFilter always "always" ignore; Options [reporter 7%nat; Nil]; visibleStructs ["S"]].
Definition someOptionsState : state :=
  match newState someOptions with Ret _ s => s | _ => emptyState end.

Lemma newState_sorts_the_options_witness :
  opts someOptionsState = validator :: List.filter isCoreOption (expandOptions someOptions)
  ∧ reporters someOptionsState = omap asReporter (expandOptions someOptions)
  ∧ (∀ t, exporters someOptionsState !! t
          = if bool_decide (t ∈ granted (expandOptions someOptions)) then Some true else None)
  ∧ result someOptionsState = diff.zero ∧ curPath someOptionsState = []
  ∧ calls someOptionsState = []
  ∧ recChecker_ someOptionsState = {| rc_next := 0 |}
  ∧ dynChecker_ someOptionsState = {| curr := 0; next := 0 |}.
Proof.
  apply (newState_sorts_the_options someOptions someOptionsState). reflexivity.
Defined.

Lemma report_gives_one_verdict_witness :
  ∃ rf' s',
    report false reportByMethod emptyState = Ret tt s'
    ∧ calls s' = calls emptyState ++ ((λ r, (r, CallReport rf')) <$> reporters emptyState)
    ∧ ((Z.land rf' 7 = reportIgnored ∧ result s' = result emptyState)
       ∨ (Z.land rf' 7 = reportEqual ∧ false = true
          ∧ diff.NumSame (result s') = int_add (diff.NumSame (result emptyState)) 1
          ∧ diff.NumDiff (result s') = diff.NumDiff (result emptyState))
       ∨ (Z.land rf' 7 = reportUnequal ∧ false = false
          ∧ diff.NumSame (result s') = diff.NumSame (result emptyState)
          ∧ diff.NumDiff (result s') = int_add (diff.NumDiff (result emptyState)) 1)).
Proof.
  apply (report_gives_one_verdict false reportByMethod emptyState). reflexivity.
Defined.

Lemma Equal_false_on_different_types_witness :
  Equal exampleWorld 1 (Some ("int", VInt 1)) (Some ("string", VString "1")) []
  = Returns false.
Proof.
  apply (Equal_false_on_different_types exampleWorld 0 "int" "string" (VInt 1) (VString "1")).
  - reflexivity.
  - reflexivity.
  - discriminate.
Defined.

(** [type T int] with [func (x T) Equal(y T) bool { return x%2 == y%2 }],
    and [Comparer(func(x, y T) bool { return x == y })]. *)
Definition equalMod2 : Func2 :=
  {| f2_name := "T.Equal"; f2_in := "T";
     call2 := λ x y, match x, y with
                     | VInt a, VInt b => a mod 2 =? b mod 2
                     | _, _ => false
                     end |}.
Definition exactT : comparer :=
  {| cm_typ := Some "T";
     cm_fnc := {| f2_name := "exactT"; f2_in := "T"; call2 := rv.goEq |} |}.
Definition methodWorld : World := {|
  Kind := λ t, if bool_decide (t = "T") then reflect.Int else Kind exampleWorld t;
  Elem := Elem exampleWorld;
  Fields := Fields exampleWorld;
  MethodEqual := λ t, if bool_decide (t = "T") then Some equalMod2 else None;
  AssignableTo := AssignableTo exampleWorld;
  Load := Load exampleWorld;
  SortKeys := SortKeys exampleWorld;
  Difference := Difference exampleWorld;
  GoString := GoString exampleWorld;
  Format := Format exampleWorld;
  IsUpper := IsUpper exampleWorld;
  AtLeastGo110 := true
|}.

Lemma Equal_uses_the_Equal_method_witness :
  Equal methodWorld 1 (Some ("T", VInt 1)) (Some ("T", VInt 3)) [] = Returns true.
Proof.
  apply (Equal_uses_the_Equal_method methodWorld 0 "T" (VInt 1) (VInt 3) equalMod2);
    reflexivity.
Defined.

Lemma Comparer_precedes_Equal_method_witness :
  Equal methodWorld 1 (Some ("T", VInt 1)) (Some ("T", VInt 3)) [Comparer exactT]
  = Returns false.
Proof.
  apply (Comparer_precedes_Equal_method methodWorld 0 "T" (VInt 1) (VInt 3) exactT).
  - discriminate.
  - reflexivity.
  - reflexivity.
  - reflexivity.
Defined.

Lemma Diff_empty_iff_Equal_witness :
  (Diff exampleWorld 3 (oneInt 1) (oneInt 1) [] = Returns ""
   ↔ Equal exampleWorld 3 (oneInt 1) (oneInt 1) [] = Returns true)
  ∧ ((∃ d, d ≠ "" ∧ Diff exampleWorld 3 (oneInt 1) (oneInt 2) [] = Returns d)
     ∨ Diff exampleWorld 3 (oneInt 1) (oneInt 2) []
       = Panics "inconsistent difference and equality results").
Proof.
  split.
  - apply (proj1 (Diff_empty_iff_Equal exampleWorld 3 (oneInt 1) (oneInt 1) [])).
    intros s Hs. vm_compute in Hs. injection Hs as <-. vm_compute. reflexivity.
  - apply (proj1 (proj2 (proj2 (Diff_empty_iff_Equal exampleWorld 3
                                  (oneInt 1) (oneInt 2) [])))).
    vm_compute. reflexivity.
Defined.

(** The three outcomes at work: equal ints, [Diff] is empty; unequal ints,
    [Diff] is the entry of the root; and two values an Equal method calls
    unequal, which [Equal] answers with false while the reporter of
    report.go, which prints the reports flagged [reportUnequal] and nothing
    else, has heard [reportByMethod|reportUnequal] and prints nothing:
    [Diff] panics. *)
Example Diff_at_work :
  Diff exampleWorld 3 (oneInt 1) (oneInt 1) [] = Returns ""
  ∧ Diff exampleWorld 3 (oneInt 1) (oneInt 2) []
    = Returns ("{root}:" +:+ nltab +:+ "-: 1" +:+ nltab +:+ "+: 2" +:+ nl)
  ∧ Equal methodWorld 3 (Some ("T", VInt 1)) (Some ("T", VInt 2)) [] = Returns false
  ∧ Diff methodWorld 3 (Some ("T", VInt 1)) (Some ("T", VInt 2)) []
    = Panics "inconsistent difference and equality results".
Proof. repeat split; vm_compute; reflexivity. Qed.

Lemma Ignore_at_root_makes_Equal_true_witness :
  Equal exampleWorld 1 None (Some ("int", VInt 1)) [pathFilter always "always" ignore]
  = Returns true.
Proof.
  apply (Ignore_at_root_makes_Equal_true exampleWorld 0 None (Some ("int", VInt 1))
           always "always").
  reflexivity.
Defined.

Lemma nil_equals_only_nil_witness :
  Equal exampleWorld 1 (Some ("[]int", VSlice None)) (Some ("[]int", VSlice (Some []))) []
  = Returns false.
Proof.
  apply (proj1 (nil_equals_only_nil exampleWorld 0 "[]int" eq_refl) eq_refl
           None (Some [])).
  by left.
Defined.

Lemma Equal_false_on_NaN_witness :
  Equal exampleWorld 1 (Some ("float64", VFloat float64.NaN))
    (Some ("float64", VFloat float64.NaN)) [] = Returns false.
Proof.
  apply (Equal_false_on_NaN exampleWorld 0 "float64" float64.NaN float64.NaN).
  - left. reflexivity.
  - reflexivity.
  - left. reflexivity.
Defined.

(** The state in which the traversal of [Diff(1, 2)] ends. *)
Definition afterDiff : state :=
  match traverse exampleWorld 3 (Some ("int", VInt 1)) (Some ("int", VInt 2))
          [Options []; reporter (newReporter [])] with
  | Ret _ s => s
  | _ => emptyState
  end.

Lemma Diff_reporter_stack_is_balanced_witness :
  ∃ rep, replayCalls exampleWorld report.new (received (newReporter []) (calls afterDiff))
         = Some rep
         ∧ report.curVals rep = [] ∧ report.curPath rep = [].
Proof.
  apply (Diff_reporter_stack_is_balanced exampleWorld 3
           (Some ("int", VInt 1)) (Some ("int", VInt 2)) [] afterDiff).
  vm_compute. reflexivity.
Defined.

Lemma normalizeOption_idempotent_witness :
  normalizeOption ignore = inl ignore
  ∧ ∀ l, ignore = Options l →
         (2 ≤ length l)%nat ∧ Forall (λ c, isCoreOption c = true) l.
Proof.
  apply (normalizeOption_idempotent (Options [Nil; Options [ignore]]) ignore).
  reflexivity.
Defined.

Lemma cycles_pop_undoes_push_witness :
  (cycles_go.push cycles_go.init 1 2).2 (cycles_go.push cycles_go.init 1 2).1
  = cycles_go.init.
Proof.
  apply (cycles_pop_undoes_push cycles_go.init 1 2); reflexivity.
Defined.

Lemma cycles_compare_after_push_witness :
  cycles_go.compare (cycles_go.push cycles_go.init 1 2).1 1 2 = (true, true)
  ∧ cycles_go.compare (cycles_go.push cycles_go.init 1 2).1 1 3 = (false, true).
Proof.
  apply (cycles_compare_after_push cycles_go.init 1 2 3).
  - reflexivity.
  - discriminate.
  - reflexivity.
Defined.

Lemma reporter_marker_is_negative_witness :
  ∃ k, 0 < k
       ∧ k = reporter.ndiffs
               (reporter.ReportAll examplePrettyPrint exampleGoString manyDiffs reporter.new)
             - len (reporter.diffs
                      (reporter.ReportAll examplePrettyPrint exampleGoString manyDiffs
                         reporter.new))
       ∧ reporter.String
           (reporter.ReportAll examplePrettyPrint exampleGoString manyDiffs reporter.new)
         = Join (reporter.diffs
                   (reporter.ReportAll examplePrettyPrint exampleGoString manyDiffs
                      reporter.new)) ""
           +:+ "... " +:+ pretty (- k) +:+ " more differences ...".
Proof.
  apply (reporter_marker_is_negative examplePrettyPrint exampleGoString manyDiffs).
  - vm_compute. reflexivity.
  - intros H. vm_compute in H. discriminate H.
Defined.

(** The calls the reporter of report.go receives when 90 differences are
    reported at the root. *)
Definition manyCalls : list Event :=
  CallPushStep (intRoot 1 2) :: replicate 90 (CallReport reportUnequal).
Definition afterManyCalls : report.defaultReporter :=
  match replayCalls exampleWorld report.new manyCalls with
  | Some rep => rep
  | None => report.new
  end.

Lemma report_marker_counts_the_dropped_witness :
  ∃ k, 0 < k
       ∧ k = report.ndiffs afterManyCalls - len (report.diffs afterManyCalls)
       ∧ report.String afterManyCalls
         = Join (report.diffs afterManyCalls) "" +:+ "... " +:+ pretty k
           +:+ " more differences ...".
Proof.
  apply (report_marker_counts_the_dropped exampleWorld manyCalls afterManyCalls).
  - vm_compute. reflexivity.
  - vm_compute. reflexivity.
  - intros H. vm_compute in H. discriminate H.
Defined.

Lemma isLess_asymmetric_witness :
  isLess exampleWorld (λ t, t) (λ _, "") (λ _, 0) 2
    (VArray [VInt 1; VInt 3]) (VArray [VInt 1; VInt 2]) = Returns false.
Proof.
  apply (isLess_asymmetric exampleWorld (λ t, t) (λ _, "") (λ _, 0) 2
           (VArray [VInt 1; VInt 2]) (VArray [VInt 1; VInt 3])).
  - simpl. tauto.
  - reflexivity.
Defined.

Lemma sortKeys_keeps_NaN_keys_witness :
  distinctNeighbours
    (sortKeys (λ vs, vs) [VFloat float64.NaN; VFloat float64.NaN; VFloat float64.one;
                          VFloat float64.one])
  ∧ base.filter (λ v, isNaNKey v = true)
      (sortKeys (λ vs, vs) [VFloat float64.NaN; VFloat float64.NaN; VFloat float64.one;
                            VFloat float64.one])
    = base.filter (λ v, isNaNKey v = true)
        [VFloat float64.NaN; VFloat float64.NaN; VFloat float64.one; VFloat float64.one].
Proof.
  apply (sortKeys_keeps_NaN_keys (λ vs, vs)
           [VFloat float64.NaN; VFloat float64.NaN; VFloat float64.one; VFloat float64.one]).
  discriminate.
Defined.

(** [AllowUnexportedWithinModule("example.com/foo")]. *)
Definition withinFoo : fieldExporter.t :=
  {| fieldExporter.typs := ∅; fieldExporter.pkgs := {["example.com/foo"]} |}.

Lemma mayExport_is_path_prefix_match_witness :
  fieldExporter.mayExport withinFoo "bar.T" "example.com/foo/bar" = true
  ↔ ∃ pkgPrefix, pkgPrefix ∈ fieldExporter.pkgs withinFoo
                 ∧ pathPrefixMatch "example.com/foo/bar" pkgPrefix.
Proof.
  apply (mayExport_is_path_prefix_match withinFoo "bar.T" "example.com/foo/bar").
  - discriminate.
  - apply not_elem_of_empty.
Defined.

(** The comment's examples: "example.com/foo/bar" is matched by
    "example.com/foo" and not by "example.com/foo/ba". *)
Example mayExport_examples :
  fieldExporter.matches "example.com/foo/bar" "example.com/foo" = true
  ∧ fieldExporter.matches "example.com/foo/bar" "example.com/foo/bar" = true
  ∧ fieldExporter.matches "example.com/foo/bar" "example.com" = true
  ∧ fieldExporter.matches "example.com/foo/bar" "example.com/foo/ba" = false
  ∧ fieldExporter.matches "example.com/foo/bar" "example.com/fizz" = false
  ∧ fieldExporter.matches "example.com/foo/bar" "example.org" = false.
Proof. repeat split; vm_compute; reflexivity. Qed.

(** A comparison that has [IgnoreTypes(0)] for its only option. *)
Definition ignoringInts : state :=
  set_opts [validator; cmpopts.IgnoreTypes exampleWorld ["int"]] emptyState.

Lemma IgnoreTypes_ignores_the_node_witness :
  ∃ s', compareAny exampleWorld 1 (intRoot 1 2) ignoringInts = Ret tt s'
        ∧ result s' = result ignoringInts.
Proof.
  apply (IgnoreTypes_ignores_the_node exampleWorld 0 ["int"] [] (intRoot 1 2) ignoringInts).
  - reflexivity.
  - reflexivity.
  - reflexivity.
Defined.

Lemma compareSlice_loops_end_witness :
  (∃ b, Equal exampleWorld 2 (ints [1; 2; 3]) (ints [1; 5]) [] = Returns b)
  ∨ (∃ msg, Equal exampleWorld 2 (ints [1; 2; 3]) (ints [1; 5]) [] = Panics msg).
Proof.
  apply (proj2 (compareSlice_loops_end exampleWorld "[]int"
                  (VSlice (Some (VInt <$> [1; 2; 3]))) (VSlice (Some (VInt <$> [1; 5])))));
    try reflexivity.
  by left.
Defined.

Lemma Transformer_compares_the_images_witness :
  Equal exampleWorld 2 (Some ("int", VInt 1)) (Some ("int", VInt 2)) [Transformer double]
  = Returns false.
Proof.
  apply (Transformer_compares_the_images exampleWorld 0 "int" "int" (VInt 1) (VInt 2) 2 4
           double).
  - discriminate.
  - reflexivity.
  - reflexivity.
  - reflexivity.
  - reflexivity.
  - reflexivity.
  - reflexivity.
  - reflexivity.
  - reflexivity.
Defined.

(** [type IP *int]: two cells at the addresses 16 and 32 that hold 7, and
    one at 48 that holds 8. *)
Definition pointerWorld : World := {|
  Kind := λ t, if bool_decide (t = "IP") then reflect.Ptr else Kind exampleWorld t;
  Elem := λ t, if bool_decide (t = "IP") then "int" else Elem exampleWorld t;
  Fields := Fields exampleWorld;
  MethodEqual := λ _, None;
  AssignableTo := AssignableTo exampleWorld;
  Load := λ p, if p =? 48 then VInt 8 else VInt 7;
  SortKeys := SortKeys exampleWorld;
  Difference := Difference exampleWorld;
  GoString := GoString exampleWorld;
  Format := Format exampleWorld;
  IsUpper := IsUpper exampleWorld;
  AtLeastGo110 := true
|}.

Lemma Equal_compares_the_pointees_witness :
  Equal pointerWorld 2 (Some ("IP", VPtr 16)) (Some ("IP", VPtr 32)) [] = Returns true.
Proof.
  apply (Equal_compares_the_pointees pointerWorld 0 "IP" "int" 16 32 7 7);
    (reflexivity || discriminate).
Defined.
